(** * InkScript: the editor's document engine and the CLI renderer, verified

    A shallow embedding of [src/editor/inkpaint0.3.py] (the [InkPaint] editor:
    geometry helpers, eraser, fill, undo/redo log, [.inks] loader and writer)
    and of [src/tools/inks_renderer.py] (colour parsing and the path parser of
    the command-line renderer), followed by the properties of the
    specification that concern them.

    Conventions of the embedding.
    - A Python [str] is a [string]; character classes are those of ASCII
      (characters above 127 are neither whitespace nor word characters).
    - A Python [float] is a binary64 [float] of the kernel; arithmetic and
      comparisons are the IEEE ones Python uses.
    - A Python [int] is a [Z].
    - The builtins [int(str)], [int(str, 16)], [float(str)] and the format
      [f"{x:.2f}"] are fields of the class [PyRuntime]; the program is embedded
      over any runtime, and [cpython] is a reference instance used to evaluate
      the program on concrete files.
    - A raised exception is the [Raise] outcome of the [outcome] monad.
    - [Stroke] objects are mutable and shared between the layers and the
      undo log, so they live in a store ([heap]) and are named by address.
    - Calls that only touch the Tk widgets ([_redraw_canvas], [status_set],
      [_refresh_layer_list], [_canvas_delete_strokes]) are not embedded. *)

From Stdlib Require Import ZArith List String Ascii Bool Lia.
From Stdlib Require Import PrimFloat FloatOps SpecFloat.
Import ListNotations.

Local Open Scope string_scope.
Local Open Scope Z_scope.

(* ===================================================================== *)
(** ** Python string methods *)
(* ===================================================================== *)

Module PyStr.

(** [str.isspace] on one ASCII character: TAB, LF, VT, FF, CR, FS, GS, RS,
    US and the space. *)
Definition is_space (c : ascii) : bool :=
  let n := nat_of_ascii c in
  ((9 <=? n) && (n <=? 13) || (28 <=? n) && (n <=? 32))%nat.

(** The class [\w] of [re] on ASCII: letters, digits and the underscore. *)
Definition is_word (c : ascii) : bool :=
  let n := nat_of_ascii c in
  ((48 <=? n) && (n <=? 57) || (65 <=? n) && (n <=? 90)
   || (97 <=? n) && (n <=? 122) || (n =? 95))%nat.

Definition LF : ascii := ascii_of_nat 10.
Definition CR : ascii := ascii_of_nat 13.
Definition quote : ascii := ascii_of_nat 34.

Definition is_char (a c : ascii) : bool := Ascii.eqb a c.

(** [bool(s)]: a string is truthy when it is not empty. *)
Definition nonempty (s : string) : bool :=
  match s with EmptyString => false | String _ _ => true end.

(** [bool(l)] for a list. *)
Definition nonempty_list {A : Type} (l : list A) : bool :=
  match l with [] => false | _ :: _ => true end.

(** [s.lstrip(chars)] and [s.rstrip(chars)] for a set of characters [p]. *)
Fixpoint lstrip_p (p : ascii -> bool) (s : string) : string :=
  match s with
  | EmptyString => EmptyString
  | String c s' => if p c then lstrip_p p s' else s
  end.

Fixpoint rstrip_p (p : ascii -> bool) (s : string) : string :=
  match s with
  | EmptyString => EmptyString
  | String c s' =>
      match rstrip_p p s' with
      | EmptyString => if p c then EmptyString else String c EmptyString
      | r => String c r
      end
  end.

Definition strip_p (p : ascii -> bool) (s : string) : string :=
  rstrip_p p (lstrip_p p s).

(** [s.strip()], [s.rstrip] of LF, [s.strip] of the double quote and
    [s.lstrip] of the hash sign. *)
Definition strip (s : string) : string := strip_p is_space s.
Definition rstrip_nl (s : string) : string := rstrip_p (is_char LF) s.
Definition strip_quotes (s : string) : string := strip_p (is_char quote) s.
Definition lstrip_hash (s : string) : string := lstrip_p (is_char "#") s.

(** [s.startswith(p)]. *)
Fixpoint startswith (p s : string) : bool :=
  match p, s with
  | EmptyString, _ => true
  | String a p', String b s' => Ascii.eqb a b && startswith p' s'
  | String _ _, EmptyString => false
  end.

(** [c in s] for a character and [sub in s] for a substring. *)
Fixpoint contains_char (c : ascii) (s : string) : bool :=
  match s with
  | EmptyString => false
  | String a s' => Ascii.eqb a c || contains_char c s'
  end.

Fixpoint contains (sub s : string) : bool :=
  startswith sub s ||
  match s with
  | EmptyString => false
  | String _ s' => contains sub s'
  end.

(** [s.index(c)] when [c in s]. *)
Fixpoint index_char (c : ascii) (s : string) : nat :=
  match s with
  | EmptyString => O
  | String a s' => if Ascii.eqb a c then O else S (index_char c s')
  end.

(** [s.partition(c)]: the text before the first [c] and the text after
    it; the whole string and the empty string when [c] does not occur. *)
Fixpoint partition (c : ascii) (s : string) : string * string :=
  match s with
  | EmptyString => (EmptyString, EmptyString)
  | String a s' =>
      if Ascii.eqb a c then (EmptyString, s')
      else let '(l, r) := partition c s' in (String a l, r)
  end.

(** [s.split()]: the maximal runs of non-whitespace characters; [cur] is
    the run being read. *)
Fixpoint split_aux (cur s : string) : list string :=
  match s with
  | EmptyString => if nonempty cur then [cur] else []
  | String c s' =>
      if is_space c
      then (if nonempty cur then cur :: split_aux EmptyString s'
            else split_aux EmptyString s')
      else split_aux (cur ++ String c EmptyString) s'
  end.

Definition split (s : string) : list string := split_aux EmptyString s.

(** [s.split(None, 1)]: the first run of non-whitespace characters, and
    what follows the whitespace after it when something does. *)
Fixpoint take_token (s : string) : string * string :=
  match s with
  | EmptyString => (EmptyString, EmptyString)
  | String c s' =>
      if is_space c then (EmptyString, s)
      else let '(t, r) := take_token s' in (String c t, r)
  end.

Definition split_none_1 (s : string) : list string :=
  match lstrip_p is_space s with
  | EmptyString => []
  | s1 =>
      let '(t, r) := take_token s1 in
      match lstrip_p is_space r with
      | EmptyString => [t]
      | r' => [t; r']
      end
  end.

(** [s.splitlines()] on ASCII: a line ends at LF, VT, FF, FS, GS, RS, at CR
    and at CR LF; no empty last line. *)
Definition is_linebreak (c : ascii) : bool :=
  let n := nat_of_ascii c in
  ((10 <=? n) && (n <=? 13) || (28 <=? n) && (n <=? 30))%nat.

Fixpoint splitlines_aux (cur : string) (skip_lf : bool) (s : string)
  : list string :=
  match s with
  | EmptyString => if nonempty cur then [cur] else []
  | String c s' =>
      if skip_lf && Ascii.eqb c LF then splitlines_aux cur false s'
      else if is_linebreak c
      then cur :: splitlines_aux EmptyString (Ascii.eqb c CR) s'
      else splitlines_aux (cur ++ String c EmptyString) false s'
  end.

Definition splitlines (s : string) : list string :=
  splitlines_aux EmptyString false s.

(** [s.lower()] on ASCII. *)
Definition lower_char (c : ascii) : ascii :=
  let n := nat_of_ascii c in
  if ((65 <=? n) && (n <=? 90))%nat then ascii_of_nat (n + 32) else c.

Fixpoint lower (s : string) : string :=
  match s with
  | EmptyString => EmptyString
  | String c s' => String (lower_char c) (lower s')
  end.

(** [s in (a, b, ...)]. *)
Definition mem (s : string) (l : list string) : bool :=
  existsb (String.eqb s) l.

(** The longest prefix whose characters satisfy [p], and its length. *)
Fixpoint span (p : ascii -> bool) (s : string) : string * string :=
  match s with
  | EmptyString => (EmptyString, EmptyString)
  | String c s' =>
      if p c then let '(a, b) := span p s' in (String c a, b)
      else (EmptyString, s)
  end.

(** [" ".join(pieces)]. *)
Fixpoint join_space (l : list string) : string :=
  match l with
  | [] => EmptyString
  | [x] => x
  | x :: l' => x ++ " " ++ join_space l'
  end.

(** [f.readlines()] of a text file opened with universal newlines: CR LF
    and CR are read as LF, and each line keeps its LF. *)
Fixpoint readlines_aux (cur : string) (skip_lf : bool) (s : string)
  : list string :=
  match s with
  | EmptyString => if nonempty cur then [cur] else []
  | String c s' =>
      if skip_lf && Ascii.eqb c LF then readlines_aux cur false s'
      else if Ascii.eqb c LF || Ascii.eqb c CR
      then (cur ++ String LF EmptyString)
             :: readlines_aux EmptyString (Ascii.eqb c CR) s'
      else readlines_aux (cur ++ String c EmptyString) false s'
  end.

Definition readlines (s : string) : list string :=
  readlines_aux EmptyString false s.

End PyStr.

(* ===================================================================== *)
(** ** Exceptions and the Python runtime *)
(* ===================================================================== *)

Inductive exn : Type := ValueError | OverflowError | ZeroDivisionError.

Inductive outcome (A : Type) : Type :=
| Ok (a : A)
| Raise (e : exn).

Arguments Ok {A} a.
Arguments Raise {A} e.

Definition bind {A B : Type} (m : outcome A) (k : A -> outcome B) : outcome B :=
  match m with
  | Ok a => k a
  | Raise e => Raise e
  end.

Notation "x <- m ;; k" := (bind m (fun x => k))
  (at level 61, m at next level, right associativity).

(** The string conversions of the interpreter; [None] is [ValueError]. *)
Class PyRuntime : Type := {
  py_int : string -> option Z;       (* int(s) *)
  py_int16 : string -> option Z;     (* int(s, 16) *)
  py_float : string -> option float; (* float(s) *)
  py_fmt2 : float -> string          (* f"{x:.2f}" *)
}.

Module PyNum.

Definition prec : Z := 53.
Definition emax : Z := 1024.

(** [str(n)] for an [int]. *)
Definition digit_char (d : Z) : ascii := ascii_of_nat (48 + Z.to_nat d).

Fixpoint str_of_pos_aux (fuel : nat) (n : Z) (acc : string) : string :=
  match fuel with
  | O => acc
  | S fuel' =>
      let acc' := String (digit_char (n mod 10)) acc in
      if n <? 10 then acc' else str_of_pos_aux fuel' (n / 10) acc'
  end.

Definition str_of_Z (n : Z) : string :=
  if n <? 0
  then String "-" (str_of_pos_aux (S (Z.to_nat (Z.log2 (- n)))) (- n) EmptyString)
  else str_of_pos_aux (S (Z.to_nat (Z.log2 n))) n EmptyString.

(** The value of a digit in bases up to 16. *)
Definition digit_val (c : ascii) : option Z :=
  let n := Z.of_nat (nat_of_ascii c) in
  if (48 <=? n) && (n <=? 57) then Some (n - 48)
  else if (97 <=? n) && (n <=? 102) then Some (n - 87)
  else if (65 <=? n) && (n <=? 70) then Some (n - 55)
  else None.

(** Digits of [base] with single underscores between them, read up to the
    first other character: the value, the number of digits, the rest. *)
Fixpoint scan_digits (base : Z) (prev_digit : bool) (acc : Z) (n : nat)
         (s : string) : option (Z * nat * string) :=
  match s with
  | EmptyString => if prev_digit || (n =? 0)%nat then Some (acc, n, s) else None
  | String c s' =>
      if Ascii.eqb c "_"
      then (if prev_digit then scan_digits base false acc n s' else None)
      else match digit_val c with
           | Some d =>
               if d <? base
               then scan_digits base true (acc * base + d) (S n) s'
               else if prev_digit || (n =? 0)%nat then Some (acc, n, s) else None
           | None => if prev_digit || (n =? 0)%nat then Some (acc, n, s) else None
           end
  end.

Definition all_digits (base : Z) (s : string) : option Z :=
  match scan_digits base false 0 O s with
  | Some (v, S _, EmptyString) => Some v
  | _ => None
  end.

Definition split_sign (s : string) : bool * string :=
  match s with
  | String "-" s' => (true, s')
  | String "+" s' => (false, s')
  | _ => (false, s)
  end.

Definition signed (neg : bool) (v : Z) : Z := if neg then - v else v.

(** The whitespace that [int] and [float] skip around an ASCII literal:
    TAB, LF, VT, FF, CR and the space. *)
Definition is_cspace (c : ascii) : bool :=
  let n := nat_of_ascii c in ((9 <=? n) && (n <=? 13) || (n =? 32))%nat.

Definition cstrip (s : string) : string := PyStr.strip_p is_cspace s.

(** [int(s)]: surrounding whitespace, a sign, decimal digits. *)
Definition int10 (s : string) : option Z :=
  let '(neg, body) := split_sign (cstrip s) in
  option_map (signed neg) (all_digits 10 body).

(** [int(s, 16)]: as above with an optional [0x] prefix, after which one
    underscore may stand. *)
Definition int16 (s : string) : option Z :=
  let '(neg, body) := split_sign (cstrip s) in
  let digits :=
    match body with
    | String "0" (String x rest) =>
        if Ascii.eqb x "x" || Ascii.eqb x "X"
        then match rest with String "_" rest' => rest' | _ => rest end
        else body
    | _ => body
    end in
  option_map (signed neg) (all_digits 16 digits).

(** The nearest binary64 to [m * 10 ^ e], ties to even. *)
Definition dec_to_float (neg : bool) (m e : Z) : float :=
  match m with
  | Zpos p =>
      if 0 <=? e
      then SF2Prim (binary_normalize prec emax (signed neg (m * 10 ^ e)) 0 neg)
      else SF2Prim (SFdiv prec emax (S754_finite neg p 0)
                          (S754_finite false (Z.to_pos (10 ^ (- e))) 0))
  | _ => if neg then neg_zero else zero
  end.

(** [float(s)]: [inf], [infinity], [nan], or a decimal literal with an
    optional fraction and exponent. *)
Definition float_literal (neg : bool) (s : string) : option float :=
  match scan_digits 10 false 0 O s with
  | None => None
  | Some (ip, n1, r1) =>
      let frac :=
        match r1 with
        | String "." r => scan_digits 10 false 0 O r
        | _ => Some (0, O, r1)
        end in
      match frac with
      | None => None
      | Some (fp, n2, r2) =>
          if (n1 + n2 =? 0)%nat then None
          else
            let m := ip * 10 ^ Z.of_nat n2 + fp in
            match r2 with
            | EmptyString => Some (dec_to_float neg m (- Z.of_nat n2))
            | String c r3 =>
                if Ascii.eqb c "e" || Ascii.eqb c "E"
                then let '(eneg, r4) := split_sign r3 in
                     match all_digits 10 r4 with
                     | Some ex =>
                         Some (dec_to_float neg m (signed eneg ex - Z.of_nat n2))
                     | None => None
                     end
                else None
            end
      end
  end.

Definition float_of_str (s : string) : option float :=
  let '(neg, body) := split_sign (cstrip s) in
  let low := PyStr.lower body in
  if String.eqb low "inf" || String.eqb low "infinity"
  then Some (if neg then neg_infinity else infinity)
  else if String.eqb low "nan" then Some nan
  else float_literal neg body.

(** [int(x)] for a float: truncation towards zero; [OverflowError] on an
    infinity and [ValueError] on a NaN. *)
Definition int_of_float (x : float) : outcome Z :=
  match Prim2SF x with
  | S754_zero _ => Ok 0
  | S754_infinity _ => Raise OverflowError
  | S754_nan => Raise ValueError
  | S754_finite s m e =>
      let a := if 0 <=? e then Zpos m * 2 ^ e else Zpos m / 2 ^ (- e) in
      Ok (signed s a)
  end.

(** The conversion of an [int] operand of a float operation;
    [OverflowError] when it is too large. *)
Definition float_of_int (n : Z) : outcome float :=
  let f := SF2Prim (binary_normalize prec emax n 0 false) in
  match Prim2SF f with
  | S754_infinity _ => Raise OverflowError
  | _ => Ok f
  end.

(** [f"{x:.2f}"]: the decimal with two places nearest to [x], ties to even. *)
Definition two_digits (n : Z) : string :=
  String (digit_char (n / 10)) (String (digit_char (n mod 10)) EmptyString).

Definition round_half_even (num den : Z) : Z :=
  let q := num / den in
  let r := num mod den in
  if 2 * r <? den then q
  else if den <? 2 * r then q + 1
  else if Z.even q then q else q + 1.

Definition fmt2 (x : float) : string :=
  match Prim2SF x with
  | S754_nan => "nan"
  | S754_infinity s => if s then "-inf" else "inf"
  | S754_zero s => if s then "-0.00" else "0.00"
  | S754_finite s m e =>
      let n := if 0 <=? e then Zpos m * 2 ^ e * 100
               else round_half_even (Zpos m * 100) (2 ^ (- e)) in
      (if s then "-" else "") ++ str_of_Z (n / 100) ++ "." ++ two_digits (n mod 100)
  end.

(** [int(s)] of CPython 3.11 and later, with the default limit of 4300
    digits: a decimal literal with more digits raises [ValueError]. *)
Definition max_str_digits : nat := 4300.

Definition int10_limited (s : string) : option Z :=
  let '(neg, body) := split_sign (cstrip s) in
  match scan_digits 10 false 0 O body with
  | Some (v, S n, EmptyString) =>
      if (S n <=? max_str_digits)%nat then Some (signed neg v) else None
  | _ => None
  end.

End PyNum.

(** The reference runtime: the conversions of CPython on ASCII literals.
    The limit that recent interpreters put on the number of digits of a
    decimal [int] literal is not part of it. *)
#[export] Instance cpython : PyRuntime := {
  py_int := PyNum.int10;
  py_int16 := PyNum.int16;
  py_float := PyNum.float_of_str;
  py_fmt2 := PyNum.fmt2
}.

(** The same conversions with the limit on the digits of a decimal [int]
    literal, as CPython 3.11 and later have it by default. It is no
    instance: a statement names it where it means it. *)
Definition cpython_limited : PyRuntime :=
  Build_PyRuntime PyNum.int10_limited PyNum.int16 PyNum.float_of_str
                  PyNum.fmt2.

(* ===================================================================== *)
(** ** Models: strokes, layers, the undo log and the editor *)
(* ===================================================================== *)

Local Open Scope list_scope.

Definition point : Type := (float * float)%type.

(** The address of a [Stroke] object in the store. *)
Definition addr : Type := nat.

Module Stroke.

(** [class Stroke]: [color] is [None] for an eraser buffer, [fill] is
    [None] when the stroke is not filled. *)
Record t : Type := mk {
  id : string;
  color : option string;
  width : Z;
  points : list point;
  erased : bool;
  fill : option string
}.

(** [Stroke(stroke_id, color, width, points, fill)]: a new object is not
    erased. *)
Definition new (stroke_id : string) (color : option string) (width : Z)
           (points : list point) (fill : option string) : t :=
  mk stroke_id color width points false fill.

Definition set_erased (b : bool) (s : t) : t :=
  mk (id s) (color s) (width s) (points s) b (fill s).

Definition set_points (pts : list point) (s : t) : t :=
  mk (id s) (color s) (width s) pts (erased s) (fill s).

Definition set_fill (f : option string) (s : t) : t :=
  mk (id s) (color s) (width s) (points s) (erased s) f.

End Stroke.

Module Layer.

(** [class Layer]: [strokes] lists the stroke objects, oldest first. *)
Record t : Type := mk {
  id : Z;
  name : string;
  visible : bool;
  strokes : list addr
}.

Definition set_strokes (l : list addr) (y : t) : t :=
  mk (id y) (name y) (visible y) l.

End Layer.

(** The three action classes of the undo log. [ActionAddStroke] keeps a
    reference to the stroke object, the other two keep stroke ids. *)
Inductive Action : Type :=
| ActionAddStroke (layer_id : Z) (stroke : addr)
| ActionEraseStrokes (layer_id : Z) (stroke_ids : list string)
| ActionMoveStrokes (layer_id : Z)
    (stroke_snapshots : list (string * list point * list point)).

(** The fields of [class InkPaint] that make the document and its history;
    [heap] is the store of the stroke objects. The two stacks have their top
    at the head. *)
Record InkPaint : Type := mkInkPaint {
  width : Z;
  height : Z;
  bg_color : string;
  layers : list Layer.t;
  layer_counter : Z;
  current_layer_index : Z;
  stroke_counter : Z;
  color : string;
  undo_stack : list Action;
  redo_stack : list Action;
  heap : list Stroke.t
}.

Definition set_heap (h : list Stroke.t) (ed : InkPaint) : InkPaint :=
  mkInkPaint (width ed) (height ed) (bg_color ed) (layers ed)
    (layer_counter ed) (current_layer_index ed) (stroke_counter ed)
    (color ed) (undo_stack ed) (redo_stack ed) h.

Definition set_layers (l : list Layer.t) (ed : InkPaint) : InkPaint :=
  mkInkPaint (width ed) (height ed) (bg_color ed) l
    (layer_counter ed) (current_layer_index ed) (stroke_counter ed)
    (color ed) (undo_stack ed) (redo_stack ed) (heap ed).

Definition set_undo_stack (u : list Action) (ed : InkPaint) : InkPaint :=
  mkInkPaint (width ed) (height ed) (bg_color ed) (layers ed)
    (layer_counter ed) (current_layer_index ed) (stroke_counter ed)
    (color ed) u (redo_stack ed) (heap ed).

Definition set_redo_stack (r : list Action) (ed : InkPaint) : InkPaint :=
  mkInkPaint (width ed) (height ed) (bg_color ed) (layers ed)
    (layer_counter ed) (current_layer_index ed) (stroke_counter ed)
    (color ed) (undo_stack ed) r (heap ed).

Definition set_counters (lc sc : Z) (ed : InkPaint) : InkPaint :=
  mkInkPaint (width ed) (height ed) (bg_color ed) (layers ed)
    lc (current_layer_index ed) sc
    (color ed) (undo_stack ed) (redo_stack ed) (heap ed).

Definition set_width (w : Z) (ed : InkPaint) : InkPaint :=
  mkInkPaint w (height ed) (bg_color ed) (layers ed)
    (layer_counter ed) (current_layer_index ed) (stroke_counter ed)
    (color ed) (undo_stack ed) (redo_stack ed) (heap ed).

Definition set_height (h : Z) (ed : InkPaint) : InkPaint :=
  mkInkPaint (width ed) h (bg_color ed) (layers ed)
    (layer_counter ed) (current_layer_index ed) (stroke_counter ed)
    (color ed) (undo_stack ed) (redo_stack ed) (heap ed).

Definition set_bg_color (c : string) (ed : InkPaint) : InkPaint :=
  mkInkPaint (width ed) (height ed) c (layers ed)
    (layer_counter ed) (current_layer_index ed) (stroke_counter ed)
    (color ed) (undo_stack ed) (redo_stack ed) (heap ed).

(** *** The store *)

Definition deref (h : list Stroke.t) (a : addr) : option Stroke.t :=
  nth_error h a.

(** [obj.field = v] on the object at [a]. *)
Fixpoint modify (f : Stroke.t -> Stroke.t) (a : addr) (h : list Stroke.t)
  : list Stroke.t :=
  match h, a with
  | [], _ => []
  | s :: h', O => f s :: h'
  | s :: h', S a' => s :: modify f a' h'
  end.

(** A new object is stored after the last one. *)
Definition alloc (s : Stroke.t) (h : list Stroke.t) : addr * list Stroke.t :=
  (List.length h, h ++ [s]).

(** [obj.id == sid] for the object at [a]. *)
Definition has_id (h : list Stroke.t) (sid : string) (a : addr) : bool :=
  match deref h a with
  | Some s => String.eqb (Stroke.id s) sid
  | None => false
  end.

(** *** Lists updated in place *)

Fixpoint update_nth {A : Type} (f : A -> A) (n : nat) (l : list A) : list A :=
  match l, n with
  | [], _ => []
  | x :: l', O => f x :: l'
  | x :: l', S n' => x :: update_nth f n' l'
  end.

(** [l.remove(x)] for the first [x] that satisfies [p]. *)
Fixpoint remove_first {A : Type} (p : A -> bool) (l : list A) : list A :=
  match l with
  | [] => []
  | x :: l' => if p x then l' else x :: remove_first p l'
  end.

Fixpoint find_index {A : Type} (p : A -> bool) (l : list A) : option nat :=
  match l with
  | [] => None
  | x :: l' => if p x then Some O else option_map S (find_index p l')
  end.

(** *** Lookups of the editor *)

(** [_layer_by_id]: the first layer with this id, as its position in
    [layers]. *)
Definition _layer_by_id (ed : InkPaint) (lid : Z) : option nat :=
  find_index (fun l => Layer.id l =? lid) (layers ed).

(** [_find_stroke_by_id]: the first stroke object with this id, layer after
    layer. *)
Definition _find_stroke_by_id (ed : InkPaint) (sid : string) : option addr :=
  find (has_id (heap ed) sid) (flat_map Layer.strokes (layers ed)).

(** [_current_layer]: no layer when there is none; the first one when the
    index is out of range. *)
Definition _current_layer (ed : InkPaint) : option nat :=
  match layers ed with
  | [] => None
  | _ =>
      let idx := current_layer_index ed in
      if (idx <? 0) || (Z.of_nat (List.length (layers ed)) <=? idx)
      then Some O
      else Some (Z.to_nat idx)
  end.

(* ===================================================================== *)
(** ** Geometry: point in polygon and the eraser hit test *)
(* ===================================================================== *)

Local Open Scope float_scope.

(** Python's [a > b] on floats. *)
Definition gtb (a b : float) : bool := PrimFloat.ltb b a.

(** Python's [a / b] on floats. *)
Definition py_div (a b : float) : outcome float :=
  if PrimFloat.eqb b 0 then Raise ZeroDivisionError else Ok (a / b).

(** The guard [1e-12] added to the denominator; the literal is read as the
    nearest binary64, as Python reads it. *)
Definition epsilon : float := 0x1.19799812dea11p-40.

(** One turn of the loop of [_point_in_polygon]: does the edge from
    [(xi, yi)] to [(xj, yj)] cross the ray of [(x, y)]? The right operand of
    [and] is evaluated only when the left one is true. *)
Definition intersect (x y : float) (pi pj : point) : outcome bool :=
  let '(xi, yi) := pi in
  let '(xj, yj) := pj in
  if negb (Bool.eqb (gtb yi y) (gtb yj y))
  then q <- py_div ((xj - xi) * (y - yi)) (yj - yi + epsilon) ;;
       Ok (PrimFloat.ltb x (q + xi))
  else Ok false.

Fixpoint pip_loop (x y : float) (polygon : list point) (n : nat)
         (indices : list nat) (inside : bool) : outcome bool :=
  match indices with
  | [] => Ok inside
  | i :: rest =>
      match nth_error polygon i, nth_error polygon (Nat.modulo (i + 1) n) with
      | Some pi, Some pj =>
          b <- intersect x y pi pj ;;
          pip_loop x y polygon n rest (if b then negb inside else inside)
      | _, _ => Ok inside
      end
  end.

(** [_point_in_polygon(point, polygon)]. *)
Definition _point_in_polygon (pt : point) (polygon : list point)
  : outcome bool :=
  let '(x, y) := pt in
  let n := List.length polygon in
  pip_loop x y polygon n (seq 0 n) false.

Arguments _point_in_polygon : simpl never.

(** The test of the inner loops of [_apply_eraser_path]:
    [dx*dx + dy*dy <= rad*rad]. *)
Definition within (rad : float) (ep sp : point) : bool :=
  let dx := fst ep - fst sp in
  let dy := snd ep - snd sp in
  PrimFloat.leb (dx * dx + dy * dy) (rad * rad).

(** The two nested loops with their [break]s: [hit] for one stroke. *)
Fixpoint hit_inner (rad : float) (ep : point) (pts : list point) : bool :=
  match pts with
  | [] => false
  | sp :: pts' => if within rad ep sp then true else hit_inner rad ep pts'
  end.

Fixpoint hit_test (rad : float) (path_points_w pts : list point) : bool :=
  match path_points_w with
  | [] => false
  | ep :: path' => if hit_inner rad ep pts then true else hit_test rad path' pts
  end.

Local Close Scope float_scope.

(** The loop of [_apply_eraser_path] over the stroke objects of the layer:
    an erased stroke and a stroke without points are skipped, a hit stroke is
    marked erased and its id recorded. *)
Fixpoint erase_loop (rad : float) (path_points_w : list point)
         (strokes : list addr) (h : list Stroke.t) (erased_ids : list string)
  : list string * list Stroke.t :=
  match strokes with
  | [] => (erased_ids, h)
  | a :: rest =>
      match deref h a with
      | None => erase_loop rad path_points_w rest h erased_ids
      | Some stroke =>
          if Stroke.erased stroke
          then erase_loop rad path_points_w rest h erased_ids
          else match Stroke.points stroke with
               | [] => erase_loop rad path_points_w rest h erased_ids
               | pts =>
                   if hit_test rad path_points_w pts
                   then erase_loop rad path_points_w rest
                          (modify (Stroke.set_erased true) a h)
                          (erased_ids ++ [Stroke.id stroke])
                   else erase_loop rad path_points_w rest h erased_ids
               end
      end
  end.

(** [_apply_eraser_path(path_points_w, eraser_width)]: the ids of the strokes
    erased, and the editor after it. *)
Definition _apply_eraser_path (ed : InkPaint) (path_points_w : list point)
           (eraser_width : Z) : outcome (list string * InkPaint) :=
  match path_points_w with
  | [] => Ok ([], ed)
  | _ =>
      match _current_layer ed with
      | None => Ok ([], ed)
      | Some li =>
          w <- PyNum.float_of_int eraser_width ;;
          let rad := PrimFloat.div w 2%float in
          match nth_error (layers ed) li with
          | None => Ok ([], ed)
          | Some layer =>
              let '(ids, h) :=
                erase_loop rad path_points_w (Layer.strokes layer) (heap ed) [] in
              Ok (ids, set_heap h ed)
          end
      end
  end.

(* ===================================================================== *)
(** ** Fill and the undo / redo log *)
(* ===================================================================== *)

(** The loop of [_apply_fill_at] over [reversed(layer.strokes)]: the first
    stroke that is not erased, has at least three points and contains the
    point gets the current colour as its fill; the change is logged as an
    [ActionAddStroke] and the redo stack is cleared. *)
Fixpoint fill_loop (ed : InkPaint) (layer_id : Z) (wx wy : float)
         (strokes : list addr) : outcome InkPaint :=
  match strokes with
  | [] => Ok ed
  | a :: rest =>
      match deref (heap ed) a with
      | None => fill_loop ed layer_id wx wy rest
      | Some s =>
          if Stroke.erased s
             || negb (PyStr.nonempty_list (Stroke.points s))
             || (List.length (Stroke.points s) <? 3)%nat
          then fill_loop ed layer_id wx wy rest
          else
            inside <- _point_in_polygon (wx, wy) (Stroke.points s) ;;
            if inside
            then Ok (set_redo_stack []
                       (set_undo_stack (ActionAddStroke layer_id a :: undo_stack ed)
                          (set_heap
                             (modify (Stroke.set_fill (Some (color ed))) a (heap ed))
                             ed)))
            else fill_loop ed layer_id wx wy rest
      end
  end.

(** [_apply_fill_at(wx, wy)]. *)
Definition _apply_fill_at (ed : InkPaint) (wx wy : float) : outcome InkPaint :=
  match _current_layer ed with
  | None => Ok ed
  | Some li =>
      match nth_error (layers ed) li with
      | None => Ok ed
      | Some layer =>
          fill_loop ed (Layer.id layer) wx wy (rev (Layer.strokes layer))
      end
  end.

(** The two loops of the erase branch of [undo] and [redo]: every stroke of
    the layer whose id is listed gets [erased = b]. *)
Definition mark_id (b : bool) (strokes : list addr) (h : list Stroke.t)
           (sid : string) : list Stroke.t :=
  fold_left
    (fun h a => if has_id h sid a then modify (Stroke.set_erased b) a h else h)
    strokes h.

Definition mark_ids (b : bool) (strokes : list addr) (stroke_ids : list string)
           (h : list Stroke.t) : list Stroke.t :=
  fold_left (mark_id b strokes) stroke_ids h.

(** The loop of the move branch: each listed stroke that is still found gets
    the points chosen by [pick] from its snapshot. *)
Definition restore_points
           (pick : list point * list point -> list point)
           (snapshots : list (string * list point * list point))
           (ed : InkPaint) : InkPaint :=
  fold_left
    (fun ed snap =>
       let '(sid, old_pts, new_pts) := snap in
       match _find_stroke_by_id ed sid with
       | Some a =>
           set_heap (modify (Stroke.set_points (pick (old_pts, new_pts))) a (heap ed)) ed
       | None => ed
       end)
    snapshots ed.

Definition push_redo (act : Action) (ed : InkPaint) : InkPaint :=
  set_redo_stack (act :: redo_stack ed) ed.

Definition push_undo (act : Action) (ed : InkPaint) : InkPaint :=
  set_undo_stack (act :: undo_stack ed) ed.

(** [undo()]. *)
Definition undo (ed0 : InkPaint) : InkPaint :=
  match undo_stack ed0 with
  | [] => ed0
  | act :: stack =>
      let ed := set_undo_stack stack ed0 in
      match act with
      | ActionAddStroke layer_id stroke =>
          match _layer_by_id ed layer_id with
          | None => ed
          | Some li =>
              match nth_error (layers ed) li, deref (heap ed) stroke with
              | Some layer, Some target =>
                  let same := has_id (heap ed) (Stroke.id target) in
                  if existsb same (Layer.strokes layer)
                  then push_redo act
                         (set_layers
                            (update_nth
                               (Layer.set_strokes
                                  (remove_first same (Layer.strokes layer)))
                               li (layers ed))
                            ed)
                  else ed
              | _, _ => ed
              end
          end
      | ActionEraseStrokes layer_id stroke_ids =>
          match _layer_by_id ed layer_id with
          | None => ed
          | Some li =>
              match nth_error (layers ed) li with
              | Some layer =>
                  push_redo act
                    (set_heap
                       (mark_ids false (Layer.strokes layer) stroke_ids (heap ed))
                       ed)
              | None => ed
              end
          end
      | ActionMoveStrokes layer_id stroke_snapshots =>
          match _layer_by_id ed layer_id with
          | None => ed
          | Some _ => push_redo act (restore_points fst stroke_snapshots ed)
          end
      end
  end.

(** [redo()]. *)
Definition redo (ed0 : InkPaint) : InkPaint :=
  match redo_stack ed0 with
  | [] => ed0
  | act :: stack =>
      let ed := set_redo_stack stack ed0 in
      match act with
      | ActionAddStroke layer_id stroke =>
          match _layer_by_id ed layer_id with
          | None => ed
          | Some li =>
              push_undo act
                (set_layers
                   (update_nth
                      (fun layer =>
                         Layer.set_strokes (Layer.strokes layer ++ [stroke]) layer)
                      li (layers ed))
                   ed)
          end
      | ActionEraseStrokes layer_id stroke_ids =>
          match _layer_by_id ed layer_id with
          | None => ed
          | Some li =>
              match nth_error (layers ed) li with
              | Some layer =>
                  push_undo act
                    (set_heap
                       (mark_ids true (Layer.strokes layer) stroke_ids (heap ed))
                       ed)
              | None => ed
              end
          end
      | ActionMoveStrokes layer_id stroke_snapshots =>
          match _layer_by_id ed layer_id with
          | None => ed
          | Some _ => push_undo act (restore_points snd stroke_snapshots ed)
          end
      end
  end.

(** A sequence of calls of [undo] and [redo]. *)
Inductive replay : Type := Undo | Redo.

Definition run_replay (ed : InkPaint) (calls : list replay) : InkPaint :=
  fold_left (fun ed c => match c with Undo => undo ed | Redo => redo ed end)
            calls ed.

(* ===================================================================== *)
(** ** The regular expressions of the loader *)
(* ===================================================================== *)

Module PyRe.

Local Open Scope string_scope.

Definition not_quote (c : ascii) : bool := negb (Ascii.eqb c PyStr.quote).
Definition not_space (c : ascii) : bool := negb (PyStr.is_space c).

(** The value group of the loader's patterns, matched at the start of [s].
    Writing Q for the double quote, the group is (Q[^Q]+Q|\S+): a quoted
    run of at least one character other than Q, or else the longest run of
    non-whitespace characters. The match and what follows it. *)
Definition match_value (s : string) : option (string * string) :=
  let quoted :=
    match s with
    | String c t =>
        if Ascii.eqb c PyStr.quote
        then match PyStr.span not_quote t with
             | (String b body, String c2 r) =>
                 Some (String c (String b body ++ String c2 EmptyString), r)
             | _ => None
             end
        else None
    | EmptyString => None
    end in
  match quoted with
  | Some m => Some m
  | None =>
      match PyStr.span not_space s with
      | (String b v, r) => Some (String b v, r)
      | _ => None
      end
  end.

Fixpoint drop (n : nat) (s : string) : string :=
  match n, s with
  | O, _ => s
  | S n', String _ s' => drop n' s'
  | S _, EmptyString => EmptyString
  end.

(** [re.search] of a literal [key] ([id=] or [ref=]) followed by the value
    group: group 1 of the leftmost match. *)
Fixpoint search_key (key s : string) : option string :=
  let here :=
    if PyStr.startswith key s
    then option_map fst (match_value (drop (String.length key) s))
    else None in
  match here with
  | Some v => Some v
  | None =>
      match s with
      | EmptyString => None
      | String _ s' => search_key key s'
      end
  end.

(** The attribute pattern, (\w+)= followed by the value group, matched at
    the start of [s]: the two groups and what follows the match. *)
Definition match_attr (s : string) : option (string * string * string) :=
  match PyStr.span PyStr.is_word s with
  | (String b k, String "=" r) =>
      match match_value r with
      | Some (v, rest) => Some (String b k, v, rest)
      | None => None
      end
  | _ => None
  end.

(** [re.findall] of that pattern: the matches from left to right, without
    overlap; [skip] counts the characters of the last match still to pass. *)
Fixpoint findall_aux (skip : nat) (s : string) : list (string * string) :=
  match s with
  | EmptyString => []
  | String _ s' =>
      match skip with
      | S k => findall_aux k s'
      | O =>
          match match_attr s with
          | Some (k, v, rest) =>
              (k, v) :: findall_aux (String.length s - String.length rest - 1) s'
          | None => findall_aux O s'
          end
      end
  end.

Definition findall_attrs (s : string) : list (string * string) :=
  findall_aux O s.

Arguments match_value : simpl never.

End PyRe.

(** A [dict] with string keys, as the list of its assignments in order:
    the last assignment of a key is its value. *)
Definition dict : Type := list (string * string).

Fixpoint dict_get (k : string) (d : dict) : option string :=
  match d with
  | [] => None
  | (k', v) :: d' =>
      match dict_get k d' with
      | Some v' => Some v'
      | None => if String.eqb k' k then Some v else None
      end
  end.

Definition dict_set (k v : string) (d : dict) : dict := d ++ [(k, v)].

(** [a or b] on an optional string: [None] and the empty string are false. *)
Definition truthy (o : option string) : option string :=
  match o with
  | Some s => if PyStr.nonempty s then Some s else None
  | None => None
  end.

Definition nl : string := String PyStr.LF EmptyString.
Definition dquote : string := String PyStr.quote EmptyString.

(* ===================================================================== *)
(** ** The loader: [_load_from_lines] and [open_inks] *)
(* ===================================================================== *)

Section Loader.

Context {RT : PyRuntime}.

Local Open Scope string_scope.

(** [parse_attrs_from_header]. *)
Definition parse_attrs_from_header (text : string) : dict :=
  PyRe.findall_attrs text.

(** [parse_style_tokens]. *)
Definition parse_style_tokens (style_text : string) : dict :=
  if PyStr.nonempty style_text
  then fold_left
         (fun style token =>
            if PyStr.contains_char "=" token
            then let '(k, v) := PyStr.partition "=" token in
                 dict_set k (PyStr.strip_quotes (PyStr.strip v)) style
            else style)
         (PyStr.split (PyStr.strip style_text)) []
  else [].

(** The loop that reads [move] and [line] commands from a piece of text;
    the source repeats it at each of its four uses. A command whose
    coordinates [float] rejects is dropped. *)
Definition read_command (draw_pts : list point) (ln : string) : list point :=
  let s2 := PyStr.strip ln in
  if PyStr.nonempty s2
  then match PyStr.split s2 with
       | cmd :: a :: b :: _ =>
           if PyStr.mem cmd ["move"; "line"]
           then match py_float a, py_float b with
                | Some x, Some y => (draw_pts ++ [(x, y)])%list
                | _, _ => draw_pts
                end
           else draw_pts
       | _ => draw_pts
       end
  else draw_pts.

Definition read_commands (draw_pts : list point) (text : string)
  : list point :=
  fold_left read_command (PyStr.splitlines text) draw_pts.

(** [int(float(s))]. *)
Definition int_float (s : string) : outcome Z :=
  match py_float s with
  | Some x => PyNum.int_of_float x
  | None => Raise ValueError
  end.

(** The variables of the loop of [_load_from_lines]; [current_layer] is the
    position in [layers] of the layer object it refers to. *)
Record LoadState : Type := mkLoadState {
  editor : InkPaint;
  current_layer : option nat;
  in_draw : bool;
  draw_id : option string;
  draw_pts : list point
}.

(** The id of a block: the one of its header, or [stroke_<counter>] when
    there is none. *)
Definition block_id (ed : InkPaint) (sid : option string) : string :=
  match truthy sid with
  | Some s => s
  | None => "stroke_" ++ PyNum.str_of_Z (stroke_counter ed)
  end.

(** [style_tokens.get("stroke") or style_tokens.get("color") or "#000000"]. *)
Definition style_color (style_tokens : dict) : string :=
  match truthy (dict_get "stroke" style_tokens) with
  | Some c => c
  | None =>
      match truthy (dict_get "color" style_tokens) with
      | Some c => c
      | None => "#000000"
      end
  end.

(** [style_tokens.get("strokeWidth", style_tokens.get("width", "2"))]. *)
Definition style_width (style_tokens : dict) : string :=
  match dict_get "strokeWidth" style_tokens with
  | Some w => w
  | None =>
      match dict_get "width" style_tokens with
      | Some w => w
      | None => "2"
      end
  end.

(** [layer_ref.strokes.append(st)] for a new object [st]. *)
Definition append_stroke (li : nat) (st : Stroke.t) (ed : InkPaint)
  : InkPaint :=
  let '(a, h) := alloc st (heap ed) in
  set_layers
    (update_nth
       (fun layer => Layer.set_strokes (Layer.strokes layer ++ [a])%list layer)
       li (layers ed))
    (set_heap h ed).

(** The update of the stroke counter: an id [stroke_<n>] whose [n] the
    counter has not passed moves it to [n + 1]. *)
Definition advance_stroke_counter (sid : string) (ed : InkPaint) : InkPaint :=
  if PyStr.startswith "stroke_" sid
  then match py_int (snd (PyStr.partition "_" sid)) with
       | Some nnum =>
           if (stroke_counter ed <=? nnum)%Z
           then set_counters (layer_counter ed) (nnum + 1) ed
           else ed
       | None => ed
       end
  else ed.

(** [finish_draw_block(layer_ref, sid, pts, style_tokens)]. The width is
    converted before anything is changed, so a raise leaves the editor as
    it was. *)
Definition finish_draw_block (ed : InkPaint) (layer_ref : option nat)
           (sid : option string) (pts : list point) (style_tokens : dict)
  : outcome InkPaint :=
  match layer_ref with
  | None => Ok ed
  | Some li =>
      let sid := block_id ed sid in
      let color := style_color style_tokens in
      let fill := dict_get "fill" style_tokens in
      width <- int_float (style_width style_tokens) ;;
      let st := Stroke.new sid (Some color) width pts fill in
      Ok (advance_stroke_counter sid (append_stroke li st ed))
  end.

(** The loop of the [erase] branch: the first stroke of the layer with the
    id is marked erased. *)
Definition erase_ref (ed : InkPaint) (li : nat) (rid : string) : InkPaint :=
  match nth_error (layers ed) li with
  | Some layer =>
      match find (has_id (heap ed) rid) (Layer.strokes layer) with
      | Some a => set_heap (modify (Stroke.set_erased true) a (heap ed)) ed
      | None => ed
      end
  | None => ed
  end.

Definition set_editor (ed : InkPaint) (st : LoadState) : LoadState :=
  mkLoadState ed (current_layer st) (in_draw st) (draw_id st) (draw_pts st).

(** The [canvas] branch: the width is assigned before the height is
    converted. *)
Definition load_canvas (ed : InkPaint) (stripped : string) : InkPaint :=
  match PyStr.split stripped with
  | _ :: w :: h :: _ =>
      match py_int w with
      | Some wi =>
          match py_int h with
          | Some hi => set_height hi (set_width wi ed)
          | None => set_width wi ed
          end
      | None => ed
      end
  | _ => ed
  end.

(** The [background] branch. *)
Definition load_background (ed : InkPaint) (stripped : string) : InkPaint :=
  match PyStr.split_none_1 stripped with
  | [_; c] => set_bg_color (PyStr.strip c) ed
  | _ => ed
  end.

(** The [layer] branch: the new layer is appended and becomes the current
    one. *)
Definition load_layer (st : LoadState) (stripped : string) : LoadState :=
  let ed := editor st in
  let attrs := parse_attrs_from_header stripped in
  let lid :=
    match dict_get "id" attrs with
    | Some v =>
        match py_int v with
        | Some n => n
        | None => layer_counter ed
        end
    | None => layer_counter ed
    end in
  let name :=
    PyStr.strip_quotes
      match dict_get "name" attrs with
      | Some v => v
      | None => "Layer " ++ PyNum.str_of_Z lid
      end in
  let vis :=
    match dict_get "visible" attrs with
    | Some v => String.eqb v "true"
    | None => true
    end in
  let layer := Layer.mk lid name vis [] in
  let counter :=
    if (layer_counter ed <=? lid)%Z then (lid + 1)%Z else layer_counter ed in
  mkLoadState
    (set_layers (layers ed ++ [layer])%list
       (set_counters counter (stroke_counter ed) ed))
    (Some (List.length (layers ed)))
    (in_draw st) (draw_id st) (draw_pts st).

(** The [draw ... path] branch. *)
Definition load_draw (st : LoadState) (line stripped : string)
  : outcome LoadState :=
  let sid := option_map PyStr.strip_quotes (PyRe.search_key "id=" stripped) in
  if PyStr.contains_char "{" line && PyStr.contains_char "}" line
     && (PyStr.index_char "{" line <? PyStr.index_char "}" line)%nat
  then
    let inner := fst (PyStr.partition "}" (snd (PyStr.partition "{" line))) in
    let pts := read_commands (draw_pts st) inner in
    let after := snd (PyStr.partition "}" line) in
    let style := parse_style_tokens after in
    ed <- finish_draw_block (editor st) (current_layer st) sid pts style ;;
    Ok (mkLoadState ed (current_layer st) false None [])
  else
    let pts :=
      if PyStr.contains_char "{" line
      then read_commands [] (snd (PyStr.partition "{" line))
      else [] in
    Ok (mkLoadState (editor st) (current_layer st) true sid pts).

(** The [erase] branch. *)
Definition load_erase (st : LoadState) (li : nat) (stripped : string)
  : LoadState :=
  match PyRe.search_key "ref=" stripped with
  | Some m => set_editor (erase_ref (editor st) li (PyStr.strip_quotes m)) st
  | None => st
  end.

(** The body of the [while] loop for one line. *)
Definition load_line (st : LoadState) (raw : string) : outcome LoadState :=
  let line := PyStr.rstrip_nl raw in
  let stripped := PyStr.strip line in
  if negb (PyStr.nonempty stripped) || PyStr.startswith "#" stripped
  then Ok st
  else if in_draw st then
    if PyStr.contains_char "}" line
    then
      let '(left_part, right_part) := PyStr.partition "}" line in
      let pts := read_commands (draw_pts st) left_part in
      let style := parse_style_tokens (PyStr.strip right_part) in
      ed <- finish_draw_block (editor st) (current_layer st) (draw_id st)
                              pts style ;;
      Ok (mkLoadState ed (current_layer st) false None [])
    else
      Ok (mkLoadState (editor st) (current_layer st) true (draw_id st)
                      (read_commands (draw_pts st) line))
  else if PyStr.startswith "canvas" stripped
  then Ok (set_editor (load_canvas (editor st) stripped) st)
  else if PyStr.startswith "background" stripped
  then Ok (set_editor (load_background (editor st) stripped) st)
  else if PyStr.startswith "layer" stripped
  then Ok (load_layer st stripped)
  else if PyStr.startswith "}" stripped
  then Ok (mkLoadState (editor st) None (in_draw st) (draw_id st) (draw_pts st))
  else
    match current_layer st with
    | Some li =>
        if PyStr.startswith "draw" stripped && PyStr.contains "path" stripped
        then load_draw st line stripped
        else if PyStr.startswith "erase" stripped
        then Ok (load_erase st li stripped)
        else Ok st
    | None => Ok st
    end.

(** What a call of the loader leaves: the editor after a return, or the
    exception and the editor as the raise left it. *)
Inductive load_result : Type :=
| Loaded (ed : InkPaint)
| Failed (e : exn) (ed : InkPaint).

(** The [while] loop. Every raise of [load_line] comes from
    [finish_draw_block], before the line has changed the editor. *)
Fixpoint load_loop (st : LoadState) (lines : list string)
  : LoadState * option exn :=
  match lines with
  | [] => (st, None)
  | raw :: rest =>
      match load_line st raw with
      | Ok st' => load_loop st' rest
      | Raise e => (st, Some e)
      end
  end.

(** The first statements of [_load_from_lines]: the layers are cleared and
    both counters are reset. *)
Definition load_init (ed : InkPaint) : LoadState :=
  mkLoadState (set_counters 1 1 (set_layers [] ed)) None false None [].

(** The last statements: a block still open at the end of the input is
    finished when it has points. *)
Definition load_final (st : LoadState) : load_result :=
  if in_draw st && PyStr.nonempty_list (draw_pts st)
  then match finish_draw_block (editor st) (current_layer st) (draw_id st)
                               (draw_pts st) [] with
       | Ok ed => Loaded ed
       | Raise e => Failed e (editor st)
       end
  else Loaded (editor st).

(** [_load_from_lines(lines)]. *)
Definition _load_from_lines (ed : InkPaint) (lines : list string)
  : load_result :=
  match load_loop (load_init ed) lines with
  | (st, None) => load_final st
  | (st, Some e) => Failed e (editor st)
  end.

(** What reading the chosen file gives: an exception, or its text. *)
Inductive file_read : Type :=
| Unreadable
| Contents (text : string).

Inductive status : Type := Opened | OpenFailed.

(** [open_inks()] once a path is chosen. *)
Definition open_inks (ed : InkPaint) (f : file_read) : InkPaint * status :=
  match f with
  | Unreadable => (ed, OpenFailed)
  | Contents text =>
      match _load_from_lines ed (PyStr.readlines text) with
      | Loaded ed' => (ed', Opened)
      | Failed _ ed' => (ed', OpenFailed)
      end
  end.

(* =================================================================== *)
(** ** The writer: [save_inks] *)
(* =================================================================== *)

(** The lines [move x y] and [line x y] of a block. *)
Fixpoint point_lines (first : bool) (pts : list point) : string :=
  match pts with
  | [] => ""
  | (x, y) :: pts' =>
      "    " ++ (if first then "move" else "line") ++ " "
      ++ py_fmt2 x ++ " " ++ py_fmt2 y ++ nl ++ point_lines false pts'
  end.

(** What [save_inks] writes for one stroke: a draw block with its style
    after the closing brace, or one [erase] line when it is erased. *)
Definition style_pieces (s : Stroke.t) : list string :=
  (["  }"]
   ++ match truthy (Stroke.color s) with
      | Some c => [("stroke=" ++ c)%string]
      | None => []
      end
   ++ match truthy (Stroke.fill s) with
      | Some c => [("fill=" ++ c)%string]
      | None => []
      end
   ++ [("strokeWidth=" ++ PyNum.str_of_Z (Stroke.width s))%string])%list.

Definition stroke_text (s : Stroke.t) : string :=
  if negb (Stroke.erased s)
  then
    "  draw path id=" ++ Stroke.id s ++ " {" ++ nl
    ++ point_lines true (Stroke.points s)
    ++ PyStr.join_space (style_pieces s)
    ++ nl ++ nl
  else "  erase ref=" ++ Stroke.id s ++ nl.

Fixpoint strokes_text (h : list Stroke.t) (strokes : list addr) : string :=
  match strokes with
  | [] => ""
  | a :: rest =>
      match deref h a with
      | Some s => stroke_text s ++ strokes_text h rest
      | None => strokes_text h rest
      end
  end.

Definition layer_text (h : list Stroke.t) (layer : Layer.t) : string :=
  "layer id=" ++ PyNum.str_of_Z (Layer.id layer)
  ++ " name=" ++ dquote ++ Layer.name layer ++ dquote
  ++ " visible=" ++ (if Layer.visible layer then "true" else "false")
  ++ " {" ++ nl
  ++ strokes_text h (Layer.strokes layer)
  ++ "}" ++ nl ++ nl.

(** The text [save_inks] writes to the file. *)
Definition save_inks (ed : InkPaint) : string :=
  "inkscript 1.0" ++ nl ++ nl
  ++ "canvas " ++ PyNum.str_of_Z (width ed) ++ " "
  ++ PyNum.str_of_Z (height ed) ++ nl
  ++ "background " ++ bg_color ed ++ nl ++ nl
  ++ String.concat "" (map (layer_text (heap ed)) (layers ed)).

End Loader.

(* ===================================================================== *)
(** ** Colours: [_hex_to_rgb] of the editor, [parse_color] of the renderer *)
(* ===================================================================== *)

Section Colours.

Context {RT : PyRuntime}.

Local Open Scope string_scope.

Definition rgb : Type := (Z * Z * Z)%type.

(** [s[i:i+2]]. *)
Definition slice2 (i : nat) (s : string) : string := String.substring i 2 s.

(** [int(t, 16)] in a position where [ValueError] propagates. *)
Definition hex (t : string) : outcome Z :=
  match py_int16 t with
  | Some n => Ok n
  | None => Raise ValueError
  end.

Definition channels (a b c : string) : outcome rgb :=
  r <- hex a ;; g <- hex b ;; b' <- hex c ;; Ok (r, g, b').

(** [h[i] * 2]: the character at [i], twice. *)
Definition doubled (i : nat) (s : string) : string :=
  String.substring i 1 s ++ String.substring i 1 s.

(** [InkPaint._hex_to_rgb(h)]: black for [None], for the empty string and
    for a length other than 6 and 3. *)
Definition _hex_to_rgb (h : option string) : outcome rgb :=
  match truthy h with
  | None => Ok (0, 0, 0)
  | Some h0 =>
      let h := PyStr.lstrip_hash h0 in
      if (String.length h =? 6)%nat
      then channels (slice2 0 h) (slice2 2 h) (slice2 4 h)
      else if (String.length h =? 3)%nat
      then channels (doubled 0 h) (doubled 1 h) (doubled 2 h)
      else Ok (0, 0, 0)
  end.

(** [parse_color(c)] of the renderer on a string: [None] for the word
    none, the three channels of a seven-character [#RRGGBB], and
    [ValueError] otherwise. *)
Definition parse_color (c : string) : outcome (option rgb) :=
  if String.eqb c "none" then Ok None
  else if PyStr.startswith "#" c && (String.length c =? 7)%nat
  then v <- channels (slice2 1 c) (slice2 3 c) (slice2 5 c) ;; Ok (Some v)
  else Raise ValueError.

End Colours.

(* ===================================================================== *)
(** ** The renderer's path parser: the [path] branch of [_parse_draw] *)
(* ===================================================================== *)

Section Renderer.

Context {RT : PyRuntime}.

Local Open Scope string_scope.

(** [parse_attr_tokens]. *)
Definition parse_attr_tokens (tokens : list string) : dict :=
  fold_left
    (fun out t =>
       if PyStr.contains_char "=" t
       then let '(k, v) := PyStr.partition "=" t in dict_set k v out
       else out)
    tokens [].

Definition reserved : list string :=
  ["draw"; "set"; "layer"; "transform"; "erase"; "canvas"; "background"].

(** The look-ahead after a closing brace that stands alone: the next line
    that is neither blank nor a comment is taken as the style line when it
    contains [=] and does not start with a reserved word. The tokens, and
    the number of lines consumed. *)
Fixpoint look_ahead (rest : list string) (passed : nat)
  : list string * nat :=
  match rest with
  | [] => ([], O)
  | raw :: rest' =>
      let nxt := PyStr.strip raw in
      if negb (PyStr.nonempty nxt) || PyStr.startswith "#" nxt
      then look_ahead rest' (S passed)
      else if PyStr.contains_char "=" nxt
              && negb (PyStr.mem (hd "" (PyStr.split nxt)) reserved)
      then (PyStr.split nxt, S passed)
      else ([], O)
  end.

(** [parts[-2]] and [parts[-1]]. *)
Definition last_two (parts : list string) : option (string * string) :=
  match rev parts with
  | b :: a :: _ => Some (a, b)
  | _ => None
  end.

(** One command line inside the block. *)
Definition path_command (points : list point) (stripped : string)
  : list point :=
  let parts := PyStr.split stripped in
  let cmdname := PyStr.lower (hd "" parts) in
  if PyStr.mem cmdname ["move"; "line"] && (3 <=? List.length parts)%nat
  then match parts with
       | _ :: a :: b :: _ =>
           match py_float a, py_float b with
           | Some x, Some y => (points ++ [(x, y)])%list
           | _, _ => points
           end
       | _ => points
       end
  else if String.eqb cmdname "curve" && (7 <=? List.length parts)%nat
  then match last_two parts with
       | Some (a, b) =>
           match py_float a, py_float b with
           | Some x, Some y => (points ++ [(x, y)])%list
           | _, _ => points
           end
       | None => points
       end
  else points.

(** The [while] loop of the branch over the lines from [idx] on: the
    points, the style tokens and the number of lines consumed. *)
Fixpoint path_loop (rest : list string) (points : list point)
         (consumed : nat) : list point * list string * nat :=
  match rest with
  | [] => (points, [], consumed)
  | raw :: rest' =>
      let pline := PyStr.rstrip_nl raw in
      let stripped := PyStr.strip pline in
      if negb (PyStr.nonempty stripped) || PyStr.startswith "#" stripped
      then path_loop rest' points (S consumed)
      else if PyStr.startswith "}" stripped
      then
        let trailing := PyStr.strip (PyRe.drop 1 stripped) in
        if PyStr.nonempty trailing
        then (points, PyStr.split trailing, S consumed)
        else let '(toks, k) := look_ahead rest' O in
             (points, toks, (S consumed + k)%nat)
      else path_loop rest' (path_command points stripped) (S consumed)
  end.

(** The style of a layer: [layer["style"]]. *)
Record LayerStyle : Type := mkLayerStyle {
  style_stroke : option rgb;
  style_strokeWidth : Z
}.

(** The command a path leaves in [layer["commands"]]: what its closure
    captured. *)
Record PathCommand : Type := mkPathCommand {
  path_points : list point;
  path_stroke : option rgb;
  path_sw : Z
}.

(** The [path] branch of [_parse_draw(line, lines, idx, layer)]: the
    command appended to the layer and the new [idx]. *)
Definition _parse_draw_path (lines : list string) (idx : nat)
           (layer_style : LayerStyle) : outcome (PathCommand * nat) :=
  let '(points, style_tokens, consumed) := path_loop (skipn idx lines) [] O in
  let style := parse_attr_tokens style_tokens in
  stroke <- match dict_get "stroke" style with
            | Some c => parse_color c
            | None => Ok (style_stroke layer_style)
            end ;;
  sw <- match dict_get "strokeWidth" style with
        | Some w =>
            match py_int w with
            | Some n => Ok n
            | None => Raise ValueError
            end
        | None => Ok (style_strokeWidth layer_style)
        end ;;
  Ok (mkPathCommand points stroke sw, (idx + consumed)%nat).

End Renderer.

(* ===================================================================== *)
(** ** Document management: layers *)
(* ===================================================================== *)

Definition set_current_layer_index (i : Z) (ed : InkPaint) : InkPaint :=
  mkInkPaint (width ed) (height ed) (bg_color ed) (layers ed)
    (layer_counter ed) i (stroke_counter ed)
    (color ed) (undo_stack ed) (redo_stack ed) (heap ed).

(** [add_layer(name)]: the new layer takes the counter as its id and goes
    on top. *)
Definition add_layer (ed : InkPaint) (name : option string) : InkPaint :=
  let name :=
    match truthy name with
    | Some n => n
    | None => ("Layer " ++ PyNum.str_of_Z (layer_counter ed))%string
    end in
  let layer := Layer.mk (layer_counter ed) name true [] in
  set_current_layer_index 0
    (set_layers (layer :: layers ed)
       (set_counters (layer_counter ed + 1) (stroke_counter ed) ed)).

(** [new_document()]. *)
Definition new_document (ed : InkPaint) : InkPaint :=
  set_current_layer_index 0
    (add_layer
       (set_redo_stack []
          (set_undo_stack [] (set_counters 1 1 (set_layers [] ed))))
       (Some "Layer 1"%string)).

(** [l.pop(n)] for an index in range: the list without its element [n]. *)
Fixpoint remove_nth {A : Type} (n : nat) (l : list A) : list A :=
  match l, n with
  | [], _ => []
  | _ :: l', O => l'
  | x :: l', S n' => x :: remove_nth n' l'
  end.

(** [remove_layer()]: the current layer is removed when the index is in
    range, and the index is brought back into range. *)
Definition remove_layer (ed : InkPaint) : InkPaint :=
  match layers ed with
  | [] => ed
  | _ =>
      let idx := current_layer_index ed in
      if (idx <? 0) || (Z.of_nat (List.length (layers ed)) <=? idx)
      then ed
      else
        let rest := remove_nth (Z.to_nat idx) (layers ed) in
        set_current_layer_index
          (Z.max 0 (Z.min idx (Z.of_nat (List.length rest) - 1)))
          (set_layers rest ed)
  end.

(** The position that the index [i] names in a list of length [n]: a
    negative index counts from the end; [None] is [IndexError]. *)
Definition py_index (n : nat) (i : Z) : option nat :=
  if (0 <=? i) && (i <? Z.of_nat n) then Some (Z.to_nat i)
  else if (i <? 0) && (- Z.of_nat n <=? i) then Some (Z.to_nat (Z.of_nat n + i))
  else None.

(** [l[i], l[j] = l[j], l[i]]: both elements are read before the first is
    written; [None] is [IndexError], which leaves the list as it was. *)
Definition swap_items {A : Type} (i j : Z) (l : list A) : option (list A) :=
  match py_index (List.length l) j, py_index (List.length l) i with
  | Some pj, Some pi =>
      match nth_error l pj, nth_error l pi with
      | Some xj, Some xi =>
          Some (update_nth (fun _ => xi) pj (update_nth (fun _ => xj) pi l))
      | _, _ => None
      end
  | _, _ => None
  end.

(** [move_layer_up()]; [None] is [IndexError]. *)
Definition move_layer_up (ed : InkPaint) : option InkPaint :=
  let idx := current_layer_index ed in
  if 0 <? idx
  then match swap_items (idx - 1) idx (layers ed) with
       | Some l => Some (set_current_layer_index (idx - 1) (set_layers l ed))
       | None => None
       end
  else Some ed.

(** [move_layer_down()]; [None] is [IndexError]. *)
Definition move_layer_down (ed : InkPaint) : option InkPaint :=
  let idx := current_layer_index ed in
  if idx <? Z.of_nat (List.length (layers ed)) - 1
  then match swap_items (idx + 1) idx (layers ed) with
       | Some l => Some (set_current_layer_index (idx + 1) (set_layers l ed))
       | None => None
       end
  else Some ed.

(** [toggle_layer_visibility()]. *)
Definition toggle_layer_visibility (ed : InkPaint) : InkPaint :=
  match _current_layer ed with
  | None => ed
  | Some li =>
      set_layers
        (update_nth
           (fun layer =>
              Layer.mk (Layer.id layer) (Layer.name layer)
                       (negb (Layer.visible layer)) (Layer.strokes layer))
           li (layers ed))
        ed
  end.

(** The ids of the strokes of a layer that are not erased:
    [[s.id for s in layer.strokes if not s.erased]]. *)
Fixpoint live_ids (h : list Stroke.t) (strokes : list addr) : list string :=
  match strokes with
  | [] => []
  | a :: rest =>
      match deref h a with
      | Some s =>
          if Stroke.erased s then live_ids h rest
          else Stroke.id s :: live_ids h rest
      | None => live_ids h rest
      end
  end.

(** [clear_current_layer()]: the strokes leave the layer, and the change is
    logged as an erasure of those that were not erased. *)
Definition clear_current_layer (ed : InkPaint) : InkPaint :=
  match _current_layer ed with
  | None => ed
  | Some li =>
      match nth_error (layers ed) li with
      | None => ed
      | Some layer =>
          let removed_ids := live_ids (heap ed) (Layer.strokes layer) in
          set_redo_stack []
            (set_undo_stack
               (ActionEraseStrokes (Layer.id layer) removed_ids :: undo_stack ed)
               (set_layers
                  (update_nth (Layer.set_strokes []) li (layers ed)) ed))
      end
  end.

(* ===================================================================== *)
(** ** Gestures: the brush and the eraser *)
(* ===================================================================== *)

(** The brush branch of [on_pointer_down] at the world point [(wx, wy)],
    [stroke_width] being the width of the brush: a new stroke with the next
    id and this one point joins the current layer and becomes the active
    stroke, whose address is returned. *)
Definition on_pointer_down_brush (ed : InkPaint) (stroke_width : Z)
           (wx wy : float) : InkPaint * option addr :=
  match _current_layer ed with
  | None => (ed, None)
  | Some li =>
      let sid := ("stroke_" ++ PyNum.str_of_Z (stroke_counter ed))%string in
      let s := Stroke.new sid (Some (color ed)) stroke_width [(wx, wy)] None in
      let '(a, h) := alloc s (heap ed) in
      (set_layers
         (update_nth
            (fun layer => Layer.set_strokes (Layer.strokes layer ++ [a]) layer)
            li (layers ed))
         (set_heap h
            (set_counters (layer_counter ed) (stroke_counter ed + 1) ed)),
       Some a)
  end.

(** The brush branch of [on_pointer_move]: the point is appended to the
    active stroke. *)
Definition on_pointer_move_brush (ed : InkPaint) (active : addr)
           (wx wy : float) : InkPaint :=
  set_heap
    (modify (fun s => Stroke.set_points (Stroke.points s ++ [(wx, wy)]) s)
            active (heap ed))
    ed.

(** The brush branch of [on_pointer_up]: the active stroke is logged as
    added to the layer that is current at that moment. *)
Definition on_pointer_up_brush (ed : InkPaint) (active : addr) : InkPaint :=
  match _current_layer ed with
  | None => ed
  | Some li =>
      match nth_error (layers ed) li with
      | None => ed
      | Some layer =>
          set_redo_stack []
            (set_undo_stack
               (ActionAddStroke (Layer.id layer) active :: undo_stack ed) ed)
      end
  end.

(** The eraser branch of [on_pointer_up], [eraser] being the buffer of the
    gesture: the path is applied, and a gesture that erased something is
    logged as one action. *)
Definition on_pointer_up_eraser (ed : InkPaint) (eraser : Stroke.t)
  : outcome InkPaint :=
  match _current_layer ed with
  | None => Ok ed
  | Some _ =>
      r <- _apply_eraser_path ed (Stroke.points eraser) (Stroke.width eraser) ;;
      let '(erased_ids, ed1) := r in
      match erased_ids with
      | [] => Ok ed1
      | _ =>
          match _current_layer ed1 with
          | Some li =>
              match nth_error (layers ed1) li with
              | Some layer =>
                  Ok (set_redo_stack []
                        (set_undo_stack
                           (ActionEraseStrokes (Layer.id layer) erased_ids
                              :: undo_stack ed1) ed1))
              | None => Ok ed1
              end
          | None => Ok ed1
          end
      end
  end.

(* ===================================================================== *)
(** ** Colours written: [_hex_from_rgb_tuple] *)
(* ===================================================================== *)

(** One lower-case hexadecimal digit. *)
Definition hex_char (d : Z) : ascii :=
  if d <? 10 then ascii_of_nat (48 + Z.to_nat d)
  else ascii_of_nat (87 + Z.to_nat d).

Fixpoint hex_of_pos_aux (fuel : nat) (n : Z) (acc : string) : string :=
  match fuel with
  | O => acc
  | S fuel' =>
      let acc' := String (hex_char (n mod 16)) acc in
      if n <? 16 then acc' else hex_of_pos_aux fuel' (n / 16) acc'
  end.

(** [format(n, "x")] for [n >= 0]. *)
Definition hex_of_nonneg (n : Z) : string :=
  hex_of_pos_aux (S (Z.to_nat (Z.log2 n))) n EmptyString.

(** [format(n, "02x")]: zeros fill the width of two after the sign. *)
Definition fmt_02x (n : Z) : string :=
  if n <? 0 then String "-" (hex_of_nonneg (- n))
  else let d := hex_of_nonneg n in
       if (String.length d <? 2)%nat then String "0" d else d.

(** [InkPaint._hex_from_rgb_tuple(rgb)]. *)
Definition _hex_from_rgb_tuple (c : rgb) : string :=
  let '(r, g, b) := c in
  ("#" ++ fmt_02x r ++ fmt_02x g ++ fmt_02x b)%string.

(* ===================================================================== *)
(** ** Vocabulary of the statements *)
(* ===================================================================== *)

(** An editor whose only layer holds the given stroke objects. *)
Definition one_layer (h : list Stroke.t) : InkPaint :=
  mkInkPaint 1000 700 "#0b0d12"
    [Layer.mk 1 "Layer 1" true (seq 0 (List.length h))]
    2 0 (1 + Z.of_nat (List.length h)) "#ffffff" [] [] h.

(** An editor without layers. *)
Definition blank : InkPaint :=
  mkInkPaint 1000 700 "#0b0d12" [] 1 0 1 "#ffffff" [] [] [].

(** The unit square of the specification's example. *)
Definition square : list point :=
  [(0, 0); (10, 0); (10, 10); (0, 10)]%float.

(** A closed shape that is not filled: the square, drawn back to its first
    corner. *)
Definition outline : Stroke.t :=
  Stroke.mk "stroke_1" (Some "#ffffff") 3
            [(0, 0); (10, 0); (10, 10); (0, 10); (0, 0)]%float false None.

(** The outline, erased. *)
Definition erased_outline : Stroke.t := Stroke.set_erased true outline.

(** What the eraser does to one stroke object. *)
Definition erase_effect (rad : float) (path : list point) (s : Stroke.t)
  : Stroke.t :=
  if Stroke.erased s then s
  else if hit_test rad path (Stroke.points s)
       then Stroke.set_erased true s
       else s.

(** What the frame property is about: the layers without their strokes, and
    the canvas. *)
Definition layer_header (l : Layer.t) : Z * string * bool :=
  (Layer.id l, Layer.name l, Layer.visible l).

Definition frame (ed : InkPaint) : list (Z * string * bool) * Z * Z * string :=
  (map layer_header (layers ed), width ed, height ed, bg_color ed).

(** The editor a call of the loader leaves, returned or raised. *)
Definition result_editor (r : load_result) : InkPaint :=
  match r with
  | Loaded ed => ed
  | Failed _ ed => ed
  end.

(** The store a call of the loader leaves. *)
Definition loaded_strokes (r : load_result) : list Stroke.t :=
  match r with
  | Loaded ed => heap ed
  | Failed _ ed => heap ed
  end.

(** A stroke object is registered when a layer of the document lists it. *)
Definition registered (ed : InkPaint) (s : Stroke.t) : Prop :=
  exists layer a,
    In layer (layers ed) /\ In a (Layer.strokes layer)
    /\ deref (heap ed) a = Some s.

(** Every address listed by a layer names an object of the store. *)
Definition addresses_valid (ed : InkPaint) : Prop :=
  forall layer a,
    In layer (layers ed) -> In a (Layer.strokes layer) ->
    (a < List.length (heap ed))%nat.




(** A character that is neither whitespace nor the double quote. *)
Definition plain (c : ascii) : bool :=
  negb (PyStr.is_space c) && negb (Ascii.eqb c PyStr.quote).

(** Every character of [s] satisfies [p]. *)
Fixpoint all_chars (p : ascii -> bool) (s : string) : bool :=
  match s with
  | EmptyString => true
  | String c s' => p c && all_chars p s'
  end.

(** An id that the file format can carry as it is: not empty, without
    whitespace and without double quotes. *)
Definition plain_id (s : string) : bool :=
  PyStr.nonempty s && all_chars plain s.

(** The line of an erased stroke. *)
Definition erase_line (sid : string) : string :=
  ("  erase ref=" ++ sid ++ nl)%string.

(** A loader state inside layer 1, in which [outline] is registered. *)
Definition inside_layer : LoadState :=
  mkLoadState (one_layer [outline]) (Some 0%nat) false None [].

(** The draw block of the specification's example inside a layer, with the
    style tokens after the closing brace, and with the brace alone and the
    tokens on the next line. *)
Definition block_head : list string :=
  [("layer id=1 name=" ++ dquote ++ "Layer 1" ++ dquote ++ " visible=true {" ++ nl)%string;
   ("  draw path id=stroke_1 {" ++ nl)%string;
   ("    move 1.00 2.00" ++ nl)%string;
   ("    line 3.00 4.00" ++ nl)%string].

Definition brace_tail_file : list string :=
  block_head
  ++ [("  } stroke=#ff0000 strokeWidth=4" ++ nl)%string; ("}" ++ nl)%string].

Definition look_ahead_file : list string :=
  block_head
  ++ [("  }" ++ nl)%string;
      ("  stroke=#ff0000 strokeWidth=4" ++ nl)%string;
      ("}" ++ nl)%string].

(** The style a layer of the renderer starts with. *)
Definition white_2 : LayerStyle := mkLayerStyle (Some (255, 255, 255)) 2.

(** The file of the specification's example: stroke id [stroke_77] in layer
    12. *)
Definition counters_file : list string :=
  [("layer id=12 {" ++ nl)%string;
   ("  draw path id=stroke_77 {" ++ nl)%string;
   ("    move 1.00 2.00" ++ nl)%string;
   ("  } stroke=#ffffff strokeWidth=3" ++ nl)%string;
   ("}" ++ nl)%string].

(** A file whose draw block closes with a stroke width that is no number. *)
Definition bad_width_text : string :=
  "inkscript 1.0" ++ nl
  ++ "canvas 100 50" ++ nl
  ++ "layer id=5 {" ++ nl
  ++ "  draw path id=a {" ++ nl
  ++ "    move 1.00 2.00" ++ nl
  ++ "  } strokeWidth=abc" ++ nl.



(** A layer whose header gives its id in double quotes. *)
Definition quoted_id_file : list string :=
  [("layer id=" ++ dquote ++ "12" ++ dquote ++ " {" ++ nl)%string;
   ("}" ++ nl)%string].

(** [c * n]: the character [c], [n] times. *)
Fixpoint repeat_char (c : ascii) (n : nat) : string :=
  match n with
  | O => EmptyString
  | S n' => String c (repeat_char c n')
  end.

(** A stroke whose id is [stroke_] and 4301 nines. *)
Definition long_id : string := ("stroke_" ++ repeat_char "9" 4301)%string.

Definition long_id_file : list string :=
  [("layer id=1 {" ++ nl)%string;
   ("  draw path id=" ++ long_id ++ " {" ++ nl)%string;
   ("    move 1.00 2.00" ++ nl)%string;
   ("  } stroke=#ffffff strokeWidth=3" ++ nl)%string;
   ("}" ++ nl)%string].

(** The exact value of a finite float times [2 ^ k], when that is an
    integer. *)
Definition exact_scaled (k : Z) (x : float) : option Z :=
  match Prim2SF x with
  | S754_zero _ => Some 0
  | S754_finite s m e =>
      let sh := e + k in
      if 0 <=? sh then Some (PyNum.signed s (Zpos m * 2 ^ sh))
      else if Zpos m mod 2 ^ (- sh) =? 0
           then Some (PyNum.signed s (Zpos m / 2 ^ (- sh)))
           else None
  | _ => None
  end.

Section Vocabulary.

Context {RT : PyRuntime}.

(** Both counters are past every id of the document: every layer id is
    below the layer counter, and every number that [int] reads after
    [stroke_] in the id of a registered stroke is below the stroke counter. *)
Definition counters_above (ed : InkPaint) : Prop :=
  (forall layer, In layer (layers ed) -> Layer.id layer < layer_counter ed)
  /\ (forall s suffix n,
         registered ed s ->
         Stroke.id s = ("stroke_" ++ suffix)%string ->
         py_int suffix = Some n ->
         n < stroke_counter ed).

(** The invariant of the loader's loop on the editor. *)
Definition load_inv (ed : InkPaint) : Prop :=
  addresses_valid ed /\ counters_above ed.


End Vocabulary.

(** *** Vocabulary of the further properties *)

(** What no replay changes in a stroke object: id, colour, width, fill. *)
Definition stroke_static (s : Stroke.t)
  : string * option string * Z * option string :=
  (Stroke.id s, Stroke.color s, Stroke.width s, Stroke.fill s).

(** Two stores hold the same objects up to their points and erased flags. *)
Definition static_eq (h h' : list Stroke.t) : Prop :=
  List.length h' = List.length h
  /\ forall a, option_map stroke_static (deref h' a)
               = option_map stroke_static (deref h a).

(** The number of entries of the history. *)
Definition history_size (ed : InkPaint) : nat :=
  (List.length (undo_stack ed) + List.length (redo_stack ed))%nat.

(** A stroke that the fill passes over: erased, or with fewer than three
    points. *)
Definition not_fillable (s : Stroke.t) : bool :=
  Stroke.erased s
  || negb (PyStr.nonempty_list (Stroke.points s))
  || (List.length (Stroke.points s) <? 3)%nat.

(** Distinct stroke objects of the list have distinct ids. *)
Definition ids_unique (h : list Stroke.t) (strokes : list addr) : Prop :=
  forall a b s t,
    In a strokes -> In b strokes ->
    deref h a = Some s -> deref h b = Some t ->
    Stroke.id s = Stroke.id t -> a = b.

(** No layer of the document has the id [lid]. *)
Definition no_layer_with (ed : InkPaint) (lid : Z) : Prop :=
  forall layer, In layer (layers ed) -> Layer.id layer <> lid.

(** The layer an action of the log refers to. *)
Definition action_layer (act : Action) : Z :=
  match act with
  | ActionAddStroke lid _ => lid
  | ActionEraseStrokes lid _ => lid
  | ActionMoveStrokes lid _ => lid
  end.

(** A brush gesture: the pointer goes down at [p0], moves through [moves]
    and is released. *)
Definition brush_gesture (ed : InkPaint) (stroke_width : Z) (p0 : point)
           (moves : list point) : InkPaint :=
  match on_pointer_down_brush ed stroke_width (fst p0) (snd p0) with
  | (ed1, Some a) =>
      on_pointer_up_brush
        (fold_left (fun e p => on_pointer_move_brush e a (fst p) (snd p))
                   moves ed1)
        a
  | (ed1, None) => ed1
  end.

(** The commands of the layer panel and of the history, and a brush
    gesture. *)
Inductive command : Type :=
| AddLayer (name : option string)
| RemoveLayer
| MoveLayerUp
| MoveLayerDown
| ToggleVisibility
| ClearLayer
| Brush (stroke_width : Z) (p0 : point) (moves : list point)
| CallUndo
| CallRedo.

(** One command; [None] is an [IndexError]. *)
Definition run_command (ed : InkPaint) (c : command) : option InkPaint :=
  match c with
  | AddLayer name => Some (add_layer ed name)
  | RemoveLayer => Some (remove_layer ed)
  | MoveLayerUp => move_layer_up ed
  | MoveLayerDown => move_layer_down ed
  | ToggleVisibility => Some (toggle_layer_visibility ed)
  | ClearLayer => Some (clear_current_layer ed)
  | Brush w p0 moves => Some (brush_gesture ed w p0 moves)
  | CallUndo => Some (undo ed)
  | CallRedo => Some (redo ed)
  end.

Fixpoint run_commands (ed : InkPaint) (cs : list command)
  : option InkPaint :=
  match cs with
  | [] => Some ed
  | c :: cs' =>
      match run_command ed c with
      | Some ed' => run_commands ed' cs'
      | None => None
      end
  end.

(** The layers have distinct ids below the layer counter, and the current
    index names a layer whenever there is one (and is 0 when there is
    none). *)
Definition layers_wf (ed : InkPaint) : Prop :=
  NoDup (map Layer.id (layers ed))
  /\ (forall lid, In lid (map Layer.id (layers ed)) ->
                  (lid < layer_counter ed)%Z)
  /\ (0 <= current_layer_index ed
      < Z.max 1 (Z.of_nat (List.length (map Layer.id (layers ed)))))%Z.

(** What [layers_wf] reads of an editor. *)
Definition layer_shape (ed : InkPaint) : list Z * Z * Z :=
  (map Layer.id (layers ed), layer_counter ed, current_layer_index ed).

(** What belongs to the session and not to the document: the colour, the
    current index and the two stacks. *)
Definition session (ed : InkPaint) : string * Z * list Action * list Action :=
  (color ed, current_layer_index ed, undo_stack ed, redo_stack ed).

(** The stroke objects made since the store had [n] objects are listed by
    the layers, each once, in the order of their creation. *)
Definition listed_in_order (n : nat) (ed : InkPaint) : Prop :=
  flat_map Layer.strokes (layers ed)
  = seq n (List.length (heap ed) - n).

(** The invariant of the loader's loop on what it keeps: the session is as
    in [ed0], the objects of [ed0] are untouched, the objects made since
    are listed in order, and the open layer is the last one. *)
Definition load_order (ed0 : InkPaint) (st : LoadState) : Prop :=
  session (editor st) = session ed0
  /\ firstn (List.length (heap ed0)) (heap (editor st)) = heap ed0
  /\ listed_in_order (List.length (heap ed0)) (editor st)
  /\ (forall li, current_layer st = Some li ->
                 S li = List.length (layers (editor st))).

(** A channel that [_hex_from_rgb_tuple] writes as two digits which the
    reference interpreter reads back; the first of them is not a hash
    sign. *)
Definition byte_round_trip (n : nat) : bool :=
  match fmt_02x (Z.of_nat n) with
  | String d1 (String d2 EmptyString) =>
      negb (Ascii.eqb "#" d1)
      && match PyNum.int16 (String d1 (String d2 EmptyString)) with
         | Some v => v =? Z.of_nat n
         | None => false
         end
  | _ => false
  end.

(* ===================================================================== *)
(** * Properties *)
(* ===================================================================== *)

Ltac split_and :=
  repeat match goal with |- _ /\ _ => split end.

(** ** The store *)

Lemma deref_modify_same :
  forall f a h, deref (modify f a h) a = option_map f (deref h a).
Proof.
  intros f a h. revert a. unfold deref.
  induction h as [|s h IH]; intros [|a]; simpl; auto.
Qed.

Lemma deref_modify_other :
  forall f a b h, a <> b -> deref (modify f a h) b = deref h b.
Proof.
  intros f a b h. revert a b. unfold deref.
  induction h as [|s h IH]; intros [|a] [|b] Hne; simpl; auto; congruence.
Qed.

Lemma deref_modify :
  forall f a b h,
    deref (modify f a h) b
    = if Nat.eqb a b then option_map f (deref h b) else deref h b.
Proof.
  intros f a b h. destruct (Nat.eqb a b) eqn:E.
  - apply Nat.eqb_eq in E. subst. apply deref_modify_same.
  - apply Nat.eqb_neq in E. now apply deref_modify_other.
Qed.

Lemma length_modify :
  forall f a h, List.length (modify f a h) = List.length h.
Proof.
  intros f a h. revert a.
  induction h as [|s h IH]; intros [|a]; simpl; auto.
Qed.

Lemma deref_alloc_old :
  forall s h a, (a < List.length h)%nat -> deref (h ++ [s]) a = deref h a.
Proof. intros s h a Hlt. unfold deref. now apply nth_error_app1. Qed.

Lemma deref_alloc_new :
  forall s h, deref (h ++ [s]) (List.length h) = Some s.
Proof.
  intros s h. unfold deref. rewrite nth_error_app2 by lia.
  now rewrite Nat.sub_diag.
Qed.

Lemma nth_error_update_nth_same :
  forall (A : Type) (f : A -> A) n l,
    nth_error (update_nth f n l) n = option_map f (nth_error l n).
Proof.
  intros A f n l. revert n.
  induction l as [|x l IH]; intros [|n]; simpl; auto.
Qed.


Lemma length_update_nth :
  forall (A : Type) (f : A -> A) n l,
    List.length (update_nth f n l) = List.length l.
Proof.
  intros A f n l. revert n.
  induction l as [|x l IH]; intros [|n]; simpl; auto.
Qed.

Lemma map_update_nth_invariant :
  forall (A B : Type) (g : A -> B) (f : A -> A) n l,
    (forall x, g (f x) = g x) -> map g (update_nth f n l) = map g l.
Proof.
  intros A B g f n l Hg. revert n.
  induction l as [|x l IH]; intros [|n]; simpl; auto.
  - now rewrite Hg.
  - now rewrite IH.
Qed.

(** ** Geometry *)

Lemma hit_inner_true :
  forall rad ep pts,
    hit_inner rad ep pts = true
    <-> exists sp, In sp pts /\ within rad ep sp = true.
Proof.
  intros rad ep pts. induction pts as [|sp pts IH]; simpl.
  - split; [discriminate | intros [sp [[] _]]].
  - destruct (within rad ep sp) eqn:E.
    + split; [intros _; exists sp; auto | reflexivity].
    + rewrite IH. split.
      * intros [sp' [Hin Hw]]. exists sp'. auto.
      * intros [sp' [[Heq | Hin] Hw]]; [subst; congruence | exists sp'; auto].
Qed.

Lemma hit_test_true :
  forall rad path pts,
    hit_test rad path pts = true
    <-> exists ep sp, In ep path /\ In sp pts /\ within rad ep sp = true.
Proof.
  intros rad path pts. induction path as [|ep path IH]; simpl.
  - split; [discriminate | intros [ep [sp [[] _]]]].
  - destruct (hit_inner rad ep pts) eqn:E.
    + split; [intros _ | reflexivity].
      apply hit_inner_true in E. destruct E as [sp [Hin Hw]].
      exists ep, sp. auto.
    + rewrite IH. split.
      * intros [ep' [sp [Hin [Hs Hw]]]]. exists ep', sp. auto.
      * intros [ep' [sp [[Heq | Hin] [Hs Hw]]]].
        -- subst ep'.
           assert (hit_inner rad ep pts = true) as Habs
               by (apply hit_inner_true; exists sp; auto).
           congruence.
        -- exists ep', sp. auto.
Qed.

Lemma hit_test_no_points : forall rad path, hit_test rad path [] = false.
Proof. intros rad path. induction path as [|ep path IH]; simpl; auto. Qed.

Lemma erase_effect_idempotent :
  forall rad path s,
    erase_effect rad path (erase_effect rad path s) = erase_effect rad path s.
Proof.
  intros rad path s. unfold erase_effect.
  destruct (Stroke.erased s) eqn:E; [now rewrite E|].
  destruct (hit_test rad path (Stroke.points s)) eqn:H; simpl.
  - reflexivity.
  - now rewrite E, H.
Qed.

Lemma erase_loop_heap :
  forall rad path strokes h ids,
    forall a,
      deref (snd (erase_loop rad path strokes h ids)) a
      = if existsb (Nat.eqb a) strokes
        then option_map (erase_effect rad path) (deref h a)
        else deref h a.
Proof.
  intros rad path strokes.
  induction strokes as [|b rest IH]; intros h ids a; simpl; [reflexivity|].
  assert (forall h1,
             (forall c, deref h1 c
                        = if Nat.eqb b c
                          then option_map (erase_effect rad path) (deref h c)
                          else deref h c) ->
             (if existsb (Nat.eqb a) rest
              then option_map (erase_effect rad path) (deref h1 a)
              else deref h1 a)
             = (if Nat.eqb a b || existsb (Nat.eqb a) rest
                then option_map (erase_effect rad path) (deref h a)
                else deref h a)) as Hcomb.
  { intros h1 Hh1. rewrite Hh1. rewrite (Nat.eqb_sym a b).
    destruct (Nat.eqb b a) eqn:Eba; simpl.
    - destruct (existsb (Nat.eqb a) rest); [|reflexivity].
      destruct (deref h a) as [s|]; simpl; [|reflexivity].
      now rewrite erase_effect_idempotent.
    - reflexivity. }
  assert (forall c s, deref h b = Some s -> erase_effect rad path s = s ->
                      deref h c
                      = if Nat.eqb b c
                        then option_map (erase_effect rad path) (deref h c)
                        else deref h c) as Hsame.
  { intros c s Hb Hs. destruct (Nat.eqb b c) eqn:E; [|reflexivity].
    apply Nat.eqb_eq in E. subst c. rewrite Hb. simpl. now rewrite Hs. }
  destruct (deref h b) as [s|] eqn:Hb.
  - destruct (Stroke.erased s) eqn:He.
    + rewrite IH. apply Hcomb. intros c. apply (Hsame c s eq_refl).
      unfold erase_effect. now rewrite He.
    + destruct (Stroke.points s) as [|p pts] eqn:Hp.
      * rewrite IH. apply Hcomb. intros c. apply (Hsame c s eq_refl).
        unfold erase_effect. now rewrite He, Hp, hit_test_no_points.
      * destruct (hit_test rad path (p :: pts)) eqn:Hh.
        -- rewrite IH. apply Hcomb. intros c. rewrite deref_modify.
           destruct (Nat.eqb b c) eqn:E; [|reflexivity].
           apply Nat.eqb_eq in E. subst c. rewrite Hb. simpl.
           unfold erase_effect. now rewrite He, Hp, Hh.
        -- rewrite IH. apply Hcomb. intros c. apply (Hsame c s eq_refl).
           unfold erase_effect. now rewrite He, Hp, Hh.
  - rewrite IH. apply Hcomb. intros c.
    destruct (Nat.eqb b c) eqn:E; [|reflexivity].
    apply Nat.eqb_eq in E. subst c. now rewrite Hb.
Qed.

Lemma erase_loop_ids_grow :
  forall rad path strokes h ids sid,
    In sid ids -> In sid (fst (erase_loop rad path strokes h ids)).
Proof.
  intros rad path strokes.
  induction strokes as [|b rest IH]; intros h ids sid Hin; simpl; [assumption|].
  destruct (deref h b) as [s|]; [|now apply IH].
  destruct (Stroke.erased s); [now apply IH|].
  destruct (Stroke.points s) as [|p pts]; [now apply IH|].
  destruct (hit_test rad path (p :: pts)); apply IH; auto.
  apply in_or_app. now left.
Qed.

Lemma erase_loop_ids_hit :
  forall rad path strokes h ids a s,
    In a strokes -> deref h a = Some s -> Stroke.erased s = false ->
    hit_test rad path (Stroke.points s) = true ->
    In (Stroke.id s) (fst (erase_loop rad path strokes h ids)).
Proof.
  intros rad path strokes.
  induction strokes as [|b rest IH]; intros h ids a s Hin Ha He Hh; simpl;
    [contradiction|].
  destruct (Nat.eq_dec b a) as [-> | Hne].
  - rewrite Ha, He.
    destruct (Stroke.points s) as [|p pts] eqn:Hp;
      [now rewrite hit_test_no_points in Hh|].
    rewrite Hh. apply erase_loop_ids_grow. apply in_or_app. right. now left.
  - destruct Hin as [Heq | Hin]; [congruence|].
    destruct (deref h b) as [t|] eqn:Hb; [|now apply (IH h ids a s)].
    destruct (Stroke.erased t); [now apply (IH h ids a s)|].
    destruct (Stroke.points t) as [|p pts]; [now apply (IH h ids a s)|].
    destruct (hit_test rad path (p :: pts)).
    + apply (IH _ _ a s); auto. now rewrite deref_modify_other.
    + now apply (IH h ids a s).
Qed.

Lemma existsb_eqb_In :
  forall a l, In a l -> existsb (Nat.eqb a) l = true.
Proof.
  intros a l Hin. apply existsb_exists. exists a. split; auto.
  apply Nat.eqb_refl.
Qed.

Lemma fill_loop_spares_short_strokes :
  forall strokes ed layer_id wx wy ed' a s,
    fill_loop ed layer_id wx wy strokes = Ok ed' ->
    deref (heap ed) a = Some s ->
    (List.length (Stroke.points s) < 3)%nat ->
    deref (heap ed') a = Some s.
Proof.
  induction strokes as [|b rest IH]; intros ed lid wx wy ed' a s Hrun Ha Hlen;
    simpl in Hrun.
  - inversion Hrun. now subst.
  - destruct (deref (heap ed) b) as [t|] eqn:Hb; [|now apply (IH _ _ _ _ _ _ _ Hrun)].
    destruct (Stroke.erased t
              || negb (PyStr.nonempty_list (Stroke.points t))
              || (List.length (Stroke.points t) <? 3)%nat) eqn:Hskip;
      [now apply (IH _ _ _ _ _ _ _ Hrun)|].
    destruct (_point_in_polygon (wx, wy) (Stroke.points t)) as [[|]|e] eqn:Hpip;
      simpl in Hrun; [| now apply (IH _ _ _ _ _ _ _ Hrun) | discriminate].
    inversion Hrun. subst ed'. simpl.
    destruct (Nat.eq_dec b a) as [-> | Hne].
    + rewrite Ha in Hb. inversion Hb. subst t.
      apply orb_false_iff in Hskip. destruct Hskip as [_ Hshort].
      apply Nat.ltb_ge in Hshort. lia.
    + now rewrite deref_modify_other.
Qed.

(** C7, as the claim states it, fails: with two vertices the two turns of
    the loop see the same edge in both directions, and the guard [1e-12]
    moves the two crossings apart; a point between them is classified
    inside. The point is [(1.9999999999995, 2.0)]. *)
Lemma two_vertices_classified_inside :
  _point_in_polygon (0x1.ffffffffff734p+0, 2)%float [(0, 0); (10, 10)]%float
  = Ok true.
Proof. vm_compute. reflexivity. Qed.

(** C7 (amended): for every vertex sequence with fewer than two vertices and
    every point, [_point_in_polygon] returns false; for the square
    [(0,0),(10,0),(10,10),(0,10)] the point (5,5) is inside and (15,5) is
    outside; and the fill never changes a stroke with fewer than three
    points, which are skipped before the test is applied. *)
Theorem point_in_polygon_degenerate_and_square :
  forall (pt : point) (polygon : list point),
    (List.length polygon < 2)%nat ->
    _point_in_polygon pt polygon = Ok false
    /\ _point_in_polygon (5, 5)%float square = Ok true
    /\ _point_in_polygon (15, 5)%float square = Ok false
    /\ (forall ed wx wy ed' a s,
           _apply_fill_at ed wx wy = Ok ed' ->
           deref (heap ed) a = Some s ->
           (List.length (Stroke.points s) < 3)%nat ->
           deref (heap ed') a = Some s).
Proof.
  intros [x y] polygon Hlen. split; [|split; [|split]].
  - destruct polygon as [|[xi yi] [|q polygon]]; simpl in Hlen; try lia.
    + reflexivity.
    + unfold _point_in_polygon. simpl.
      now rewrite Bool.eqb_reflx.
  - vm_compute. reflexivity.
  - vm_compute. reflexivity.
  - intros ed wx wy ed' a s Hfill Ha Hshort.
    unfold _apply_fill_at in Hfill.
    destruct (_current_layer ed) as [li|]; [|inversion Hfill; now subst].
    destruct (nth_error (layers ed) li) as [layer|]; [|inversion Hfill; now subst].
    now apply (fill_loop_spares_short_strokes _ _ _ _ _ _ _ _ Hfill).
Qed.

Lemma point_in_polygon_degenerate_and_square_witness :
  (List.length [(0, 0)%float] < 2)%nat
  /\ _point_in_polygon (1, 1)%float [(0, 0)%float] = Ok false.
Proof.
  split; [simpl; lia|].
  apply (point_in_polygon_degenerate_and_square (1, 1)%float [(0, 0)%float]).
  simpl. lia.
Defined.

(** C8, as the claim states it, fails by rounding: the eraser compares
    [dx*dx + dy*dy] with [rad*rad] in binary64. With the eraser width 3 the
    radius is 1.5; the stroke point (1.5, 2^-30) is farther than that from
    the path point (0, 0), its squared distance being 1.5^2 + 2^-60 (the
    last conjuncts state this on the exact values, scaled by 2^30), but
    the sum rounds to 1.5^2 and the stroke is hit. *)
Lemma rounded_distance_is_hit :
  let far := (1.5, 0x1p-30)%float in
  let s := Stroke.mk "stroke_1" (Some "#ffffff") 3 [far] false None in
  _apply_eraser_path (one_layer [s]) [(0, 0)%float] 3
  = Ok (["stroke_1"], one_layer [Stroke.set_erased true s])
  /\ PyNum.float_of_int 3 = Ok 3%float
  /\ exact_scaled 30 (3 / 2)%float = Some 1610612736
  /\ exact_scaled 30 (fst far) = Some 1610612736
  /\ exact_scaled 30 (snd far) = Some 1
  /\ exact_scaled 30 0%float = Some 0
  /\ 1610612736 * 1610612736
     < (0 - 1610612736) * (0 - 1610612736) + (0 - 1) * (0 - 1).
Proof. intros far s. split_and; vm_compute; reflexivity. Qed.

(** C8 (amended): for every eraser path, eraser width and stroke of the
    current layer, with [rad] half the width: a stroke that is already
    erased is skipped, whatever the path; a stroke that is not erased is
    marked erased, and its id reported, if and only if some point of the
    path and some point of the stroke satisfy [dx*dx + dy*dy <= rad*rad]
    as binary64 computes it (boundary included), and is left as it was
    otherwise; a one-point path at (0,0) with radius 5 hits every stroke
    that contains (3,4) and does not hit a stroke whose only point is
    (10,10). *)
Theorem eraser_hits_within_radius :
  forall ed path eraser_width ids ed' li layer w a s,
    _apply_eraser_path ed path eraser_width = Ok (ids, ed') ->
    _current_layer ed = Some li ->
    nth_error (layers ed) li = Some layer ->
    PyNum.float_of_int eraser_width = Ok w ->
    In a (Layer.strokes layer) ->
    deref (heap ed) a = Some s ->
    let rad := PrimFloat.div w 2%float in
    let near :=
      exists ep sp,
        In ep path /\ In sp (Stroke.points s) /\ within rad ep sp = true in
    (Stroke.erased s = true -> deref (heap ed') a = Some s)
    /\ (Stroke.erased s = false ->
        (near <->
         exists s', deref (heap ed') a = Some s' /\ Stroke.erased s' = true)
        /\ (near ->
            deref (heap ed') a = Some (Stroke.set_erased true s)
            /\ In (Stroke.id s) ids)
        /\ (~ near -> deref (heap ed') a = Some s))
    /\ (forall pts, In (3, 4)%float pts ->
                    hit_test 5%float [(0, 0)%float] pts = true)
    /\ hit_test 5%float [(0, 0)%float] [(10, 10)%float] = false.
Proof.
  intros ed path ew ids ed' li layer w a s Hrun Hcur Hlay Hw Hin Ha rad near.
  assert (Hnear : near <-> hit_test rad path (Stroke.points s) = true)
    by (symmetry; apply hit_test_true).
  assert (Hheap : deref (heap ed') a
                  = Some (erase_effect rad path s)
                  /\ (Stroke.erased s = false ->
                      hit_test rad path (Stroke.points s) = true ->
                      In (Stroke.id s) ids)).
  { unfold _apply_eraser_path in Hrun.
    destruct path as [|ep path].
    - inversion Hrun. subst. split.
      + unfold erase_effect. rewrite Ha.
        destruct (Stroke.erased s); reflexivity.
      + discriminate.
    - rewrite Hcur, Hw in Hrun. simpl in Hrun. rewrite Hlay in Hrun.
      fold rad in Hrun.
      pose proof (erase_loop_heap rad (ep :: path) (Layer.strokes layer)
                                  (heap ed) [] a) as Hh.
      pose proof (erase_loop_ids_hit rad (ep :: path) (Layer.strokes layer)
                                     (heap ed) [] a s Hin Ha) as Hi.
      destruct (erase_loop rad (ep :: path) (Layer.strokes layer) (heap ed) [])
        as [ids0 h0].
      inversion Hrun. subst. simpl in *.
      rewrite (existsb_eqb_In _ _ Hin), Ha in Hh. split; assumption. }
  destruct Hheap as [Hheap Hids].
  unfold erase_effect in Hheap.
  split; [|split; [|split]].
  - intros He. now rewrite He in Hheap.
  - intros He. rewrite He in Hheap. split; [split|split].
    + intros Hn. apply Hnear in Hn. rewrite Hn in Hheap.
      exists (Stroke.set_erased true s). auto.
    + intros [s' [Hs' He']].
      destruct (hit_test rad path (Stroke.points s)) eqn:Hh;
        [now apply Hnear|].
      rewrite Hs' in Hheap. inversion Hheap. congruence.
    + intros Hn. apply Hnear in Hn. rewrite Hn in Hheap. split; auto.
    + intros Hn.
      destruct (hit_test rad path (Stroke.points s)) eqn:Hh;
        [exfalso; now apply Hn, Hnear | assumption].
  - intros pts H34. apply hit_test_true.
    exists (0, 0)%float, (3, 4)%float. repeat split; auto.
    now left.
  - vm_compute. reflexivity.
Qed.

Lemma eraser_hits_within_radius_witness :
  let s := Stroke.mk "stroke_1" (Some "#ffffff") 3 [(3, 4)%float] false None in
  let t := Stroke.set_erased true s in
  _apply_eraser_path (one_layer [s; t]) [(0, 0)%float] 10
  = Ok (["stroke_1"], one_layer [t; t])
  /\ deref (heap (one_layer [t; t])) 0%nat = Some t
  /\ In "stroke_1" ["stroke_1"]
  /\ deref (heap (one_layer [t; t])) 1%nat = Some t.
Proof.
  intros s t.
  assert (Hrun : _apply_eraser_path (one_layer [s; t]) [(0, 0)%float] 10
                 = Ok (["stroke_1"], one_layer [t; t]))
    by (vm_compute; reflexivity).
  split; [exact Hrun|].
  destruct (eraser_hits_within_radius
              (one_layer [s; t]) [(0, 0)%float] 10 ["stroke_1"]
              (one_layer [t; t]) 0%nat
              (Layer.mk 1 "Layer 1" true [0%nat; 1%nat]) 10%float 0%nat s
              Hrun eq_refl eq_refl eq_refl (or_introl eq_refl) eq_refl)
    as [_ [Hlive _]].
  destruct (Hlive eq_refl) as [_ [Hnear _]].
  destruct (eraser_hits_within_radius
              (one_layer [s; t]) [(0, 0)%float] 10 ["stroke_1"]
              (one_layer [t; t]) 0%nat
              (Layer.mk 1 "Layer 1" true [0%nat; 1%nat]) 10%float 1%nat t
              Hrun eq_refl eq_refl eq_refl (or_intror (or_introl eq_refl))
              eq_refl)
    as [Hskip _].
  split; [|split]; [| |exact (Hskip eq_refl)].
  - apply Hnear. exists (0, 0)%float, (3, 4)%float.
    repeat split; [now left | now left].
  - apply Hnear. exists (0, 0)%float, (3, 4)%float.
    repeat split; [now left | now left].
Defined.

(** ** Undo and redo *)

Lemma restore_points_frame :
  forall pick snaps ed, frame (restore_points pick snaps ed) = frame ed.
Proof.
  intros pick snaps. unfold restore_points.
  induction snaps as [|[[sid old_pts] new_pts] snaps IH]; intros ed; simpl;
    [reflexivity|].
  rewrite IH. destruct (_find_stroke_by_id ed sid); reflexivity.
Qed.

Lemma undo_frame : forall ed, frame (undo ed) = frame ed.
Proof.
  intros ed. unfold undo.
  destruct (undo_stack ed) as [|act stack]; [reflexivity|].
  destruct act as [lid a | lid ids | lid snaps].
  - destruct (_layer_by_id _ lid) as [li|]; [|reflexivity].
    destruct (nth_error _ li) as [layer|]; [|reflexivity].
    destruct (deref _ a) as [target|]; [|reflexivity].
    destruct (existsb _ _); [|reflexivity].
    unfold push_redo, frame. simpl.
    now rewrite map_update_nth_invariant.
  - destruct (_layer_by_id _ lid) as [li|]; [|reflexivity].
    destruct (nth_error _ li) as [layer|]; reflexivity.
  - destruct (_layer_by_id _ lid) as [li|]; [|reflexivity].
    unfold push_redo.
    change (frame (restore_points fst snaps (set_undo_stack stack ed))
            = frame ed).
    now rewrite restore_points_frame.
Qed.

Lemma redo_frame : forall ed, frame (redo ed) = frame ed.
Proof.
  intros ed. unfold redo.
  destruct (redo_stack ed) as [|act stack]; [reflexivity|].
  destruct act as [lid a | lid ids | lid snaps].
  - destruct (_layer_by_id _ lid) as [li|]; [|reflexivity].
    unfold push_undo, frame. simpl.
    now rewrite map_update_nth_invariant.
  - destruct (_layer_by_id _ lid) as [li|]; [|reflexivity].
    destruct (nth_error _ li) as [layer|]; reflexivity.
  - destruct (_layer_by_id _ lid) as [li|]; [|reflexivity].
    unfold push_undo.
    change (frame (restore_points snd snaps (set_redo_stack stack ed))
            = frame ed).
    now rewrite restore_points_frame.
Qed.

(** C10: for every editor state and every sequence of calls of [undo] and
    [redo], the layers keep their order, ids, names and visibility, and the
    canvas width, height and background colour are unchanged: only strokes
    change. *)
Theorem replay_preserves_frame :
  forall (ed : InkPaint) (calls : list replay),
    frame (run_replay ed calls) = frame ed.
Proof.
  intros ed calls. revert ed. unfold run_replay.
  induction calls as [|c calls IH]; intros ed; simpl; [reflexivity|].
  rewrite IH. destruct c; [apply undo_frame | apply redo_frame].
Qed.

(** C2 (the code at the failing input): filling the outline at (5,5) sets
    its fill and logs an [ActionAddStroke]; the [undo] that follows removes
    the stroke from its layer and leaves the new fill on the object, instead
    of restoring the previous fill; [redo] appends the stroke again. *)
Theorem undo_of_fill_removes_the_stroke :
  exists ed1,
    _apply_fill_at (one_layer [outline]) 5%float 5%float = Ok ed1
    /\ undo_stack ed1 = [ActionAddStroke 1 0%nat]
    /\ map Layer.strokes (layers ed1) = [[0%nat]]
    /\ deref (heap ed1) 0%nat = Some (Stroke.set_fill (Some "#ffffff") outline)
    /\ map Layer.strokes (layers (undo ed1)) = [[]]
    /\ deref (heap (undo ed1)) 0%nat
       = Some (Stroke.set_fill (Some "#ffffff") outline)
    /\ map Layer.strokes (layers (redo (undo ed1))) = [[0%nat]].
Proof.
  eexists. split; [vm_compute; reflexivity|].
  repeat split.
Qed.

(** ** Colours *)

(** C9 (the code at the failing input): the renderer's [parse_color] raises
    [ValueError] on [#fff], under every runtime, while it reads [#ffffff] and
    [#FFFFFF] as (255,255,255); the editor's [_hex_to_rgb] reads both forms. *)
Theorem renderer_rejects_three_digit_colour :
  (forall RT : PyRuntime, @parse_color RT "#fff" = Raise ValueError)
  /\ parse_color "#ffffff" = Ok (Some (255, 255, 255))
  /\ parse_color "#FFFFFF" = Ok (Some (255, 255, 255))
  /\ _hex_to_rgb (Some "#fff") = Ok (255, 255, 255)
  /\ _hex_to_rgb (Some "#ffffff") = Ok (255, 255, 255).
Proof. repeat split. Qed.

(** ** The two places of the style tokens *)

(** C4 (the code at the failing input): the editor's loader reads the style
    only from the line of the closing brace. With the tokens on the next line
    the stroke gets the default colour and width, and the style line is
    skipped; the renderer's path parser gives the same command for both. *)
Theorem loader_ignores_style_on_next_line :
  loaded_strokes (_load_from_lines blank brace_tail_file)
  = [Stroke.mk "stroke_1" (Some "#ff0000") 4
               [(1, 2); (3, 4)]%float false None]
  /\ loaded_strokes (_load_from_lines blank look_ahead_file)
     = [Stroke.mk "stroke_1" (Some "#000000") 2
                  [(1, 2); (3, 4)]%float false None]
  /\ _parse_draw_path brace_tail_file 2 white_2
     = Ok (mkPathCommand [(1, 2); (3, 4)]%float (Some (255, 0, 0)) 4, 5%nat)
  /\ _parse_draw_path look_ahead_file 2 white_2
     = Ok (mkPathCommand [(1, 2); (3, 4)]%float (Some (255, 0, 0)) 4, 6%nat).
Proof. repeat split. Qed.

(** ** The loader *)

Lemma In_update_nth :
  forall (A : Type) (f : A -> A) n l x,
    In x (update_nth f n l) -> In x l \/ exists y, In y l /\ x = f y.
Proof.
  intros A f n l. revert n.
  induction l as [|y l IH]; intros [|n] x Hin; simpl in *; try contradiction.
  - destruct Hin as [<- | Hin]; [right; exists y; auto | left; auto].
  - destruct Hin as [<- | Hin]; [left; auto|].
    destruct (IH n x Hin) as [H | [z [Hz Hx]]]; [left; auto|].
    right. exists z. auto.
Qed.

Section LoaderProperties.

Context {RT : PyRuntime}.

Lemma load_inv_init : forall ed, load_inv (editor (load_init ed)).
Proof.
  intros ed. split; [|split].
  - intros layer a [].
  - intros layer [].
  - intros s suffix n [layer [a [[] _]]].
Qed.

Lemma advance_stroke_counter_spec :
  forall sid ed,
    let ed' := advance_stroke_counter sid ed in
    layers ed' = layers ed /\ heap ed' = heap ed
    /\ layer_counter ed' = layer_counter ed
    /\ stroke_counter ed <= stroke_counter ed'
    /\ (forall suffix n,
           sid = ("stroke_" ++ suffix)%string -> py_int suffix = Some n ->
           n < stroke_counter ed').
Proof.
  intros sid ed. unfold advance_stroke_counter.
  destruct (PyStr.startswith "stroke_" sid) eqn:Hpre.
  - destruct (py_int (snd (PyStr.partition "_" sid))) as [nnum|] eqn:Hint.
    + destruct (stroke_counter ed <=? nnum) eqn:Hle; simpl; split_and;
        try reflexivity.
      * apply Z.leb_le in Hle. lia.
      * intros suffix n Hsid Hn. subst sid.
        simpl in Hint. assert (n = nnum) by congruence. lia.
      * intros suffix n Hsid Hn. subst sid.
        simpl in Hint. assert (n = nnum) by congruence.
        apply Z.leb_gt in Hle. lia.
    + simpl. split_and; try reflexivity; try lia.
      intros suffix n Hsid Hn. subst sid.
      simpl in Hint. congruence.
  - simpl. split_and; try reflexivity; try lia.
    intros suffix n Hsid Hn. subst sid.
    simpl in Hpre. discriminate.
Qed.

Lemma append_stroke_registered :
  forall li st ed s,
    addresses_valid ed ->
    registered (append_stroke li st ed) s ->
    registered ed s \/ s = st.
Proof.
  intros li st ed s Hval [layer [a [Hl [Ha Hs]]]].
  unfold append_stroke, alloc in *. simpl in *.
  apply In_update_nth in Hl. destruct Hl as [Hl | [y [Hy ->]]].
  - left. exists layer, a. repeat split; auto.
    rewrite deref_alloc_old in Hs; auto. now apply (Hval layer).
  - simpl in Ha. apply in_app_or in Ha. destruct Ha as [Ha | [<- | []]].
    + left. exists y, a. repeat split; auto.
      rewrite deref_alloc_old in Hs; auto. now apply (Hval y).
    + right. rewrite deref_alloc_new in Hs. congruence.
Qed.

Lemma append_stroke_valid :
  forall li st ed, addresses_valid ed -> addresses_valid (append_stroke li st ed).
Proof.
  intros li st ed Hval layer a Hl Ha.
  unfold append_stroke, alloc in *. simpl in *.
  rewrite length_app. simpl.
  apply In_update_nth in Hl. destruct Hl as [Hl | [y [Hy ->]]].
  - specialize (Hval layer a Hl Ha). lia.
  - simpl in Ha. apply in_app_or in Ha. destruct Ha as [Ha | [<- | []]].
    + specialize (Hval y a Hy Ha). lia.
    + lia.
Qed.

Lemma append_stroke_layer_ids :
  forall li st ed layer,
    In layer (layers (append_stroke li st ed)) ->
    exists y, In y (layers ed) /\ Layer.id layer = Layer.id y.
Proof.
  intros li st ed layer Hl. unfold append_stroke, alloc in Hl. simpl in Hl.
  apply In_update_nth in Hl. destruct Hl as [Hl | [y [Hy ->]]].
  - exists layer. auto.
  - exists y. auto.
Qed.

Lemma finish_draw_block_inv :
  forall ed layer_ref sid pts style ed',
    finish_draw_block ed layer_ref sid pts style = Ok ed' ->
    load_inv ed -> load_inv ed'.
Proof.
  intros ed layer_ref sid pts style ed' Hrun [Hval [Hlay Hstr]].
  unfold finish_draw_block in Hrun.
  destruct layer_ref as [li|]; [|inversion Hrun; subst; repeat split; auto].
  destruct (int_float (style_width style)) as [w|e]; simpl in Hrun;
    [|discriminate].
  inversion Hrun as [Hed]. clear Hrun.
  set (st := Stroke.new (block_id ed sid) (Some (style_color style)) w pts
                        (dict_get "fill" style)) in *.
  set (ed1 := append_stroke li st ed) in *.
  destruct (advance_stroke_counter_spec (block_id ed sid) ed1)
    as [Hl [Hh [Hlc [Hsc Hnew]]]].
  split; [|split].
  - intros layer a Hin Ha. rewrite Hl in Hin. rewrite Hh.
    now apply (append_stroke_valid li st ed Hval layer a).
  - intros layer Hin. rewrite Hl in Hin. rewrite Hlc.
    destruct (append_stroke_layer_ids li st ed layer Hin) as [y [Hy ->]].
    unfold ed1, append_stroke, alloc. simpl. now apply Hlay.
  - intros s suffix n [layer [a [Hin [Ha Hs]]]] Hid Hn.
    rewrite Hl in Hin. rewrite Hh in Hs.
    assert (Hreg : registered ed1 s) by (exists layer, a; auto).
    apply append_stroke_registered in Hreg; auto.
    destruct Hreg as [Hreg | ->].
    + specialize (Hstr s suffix n Hreg Hid Hn).
      assert (stroke_counter ed1 = stroke_counter ed)
        by (unfold ed1, append_stroke, alloc; reflexivity).
      lia.
    + now apply (Hnew suffix n).
Qed.

Lemma erase_ref_inv :
  forall ed li rid, load_inv ed -> load_inv (erase_ref ed li rid).
Proof.
  intros ed li rid [Hval [Hlay Hstr]]. unfold erase_ref.
  destruct (nth_error (layers ed) li) as [layer|]; [|repeat split; auto].
  destruct (find _ _) as [a|]; [|repeat split; auto].
  split; [|split].
  - intros y b Hy Hb. simpl in *. rewrite length_modify. now apply (Hval y).
  - assumption.
  - intros s suffix n [y [b [Hy [Hb Hs]]]] Hid Hn. simpl in *.
    rewrite deref_modify in Hs.
    destruct (Nat.eqb a b).
    + destruct (deref (heap ed) b) as [t|] eqn:Ht; [|discriminate].
      simpl in Hs. inversion Hs. subst s. simpl in Hid.
      apply (Hstr t suffix n); auto. exists y, b. auto.
    + apply (Hstr s suffix n); auto. exists y, b. auto.
Qed.

Lemma load_layer_inv :
  forall st stripped,
    load_inv (editor st) -> load_inv (editor (load_layer st stripped)).
Proof.
  intros st stripped [Hval [Hlay Hstr]]. unfold load_layer.
  set (lid := match dict_get "id" (parse_attrs_from_header stripped) with
              | Some v => match py_int v with
                          | Some n => n
                          | None => layer_counter (editor st)
                          end
              | None => layer_counter (editor st)
              end).
  split; [|split].
  - intros layer a Hin Ha. simpl in *. apply in_app_or in Hin.
    destruct Hin as [Hin | [<- | []]]; [now apply (Hval layer) | destruct Ha].
  - intros layer Hin. simpl in *. apply in_app_or in Hin.
    destruct Hin as [Hin | [<- | []]]; simpl.
    + specialize (Hlay layer Hin).
      destruct (layer_counter (editor st) <=? lid) eqn:E; [|assumption].
      apply Z.leb_le in E. lia.
    + destruct (layer_counter (editor st) <=? lid) eqn:E; [lia|].
      apply Z.leb_gt in E. lia.
  - intros s suffix n [layer [a [Hin [Ha Hs]]]] Hid Hn. simpl in *.
    apply in_app_or in Hin. destruct Hin as [Hin | [<- | []]]; [|destruct Ha].
    apply (Hstr s suffix n); auto. exists layer, a. auto.
Qed.

Lemma load_canvas_inv :
  forall ed stripped, load_inv ed -> load_inv (load_canvas ed stripped).
Proof.
  intros ed stripped H. unfold load_canvas.
  destruct (PyStr.split stripped) as [|t0 [|w [|h l]]]; auto.
  destruct (py_int w); auto. destruct (py_int h); exact H.
Qed.

Lemma load_background_inv :
  forall ed stripped, load_inv ed -> load_inv (load_background ed stripped).
Proof.
  intros ed stripped H. unfold load_background.
  destruct (PyStr.split_none_1 stripped) as [|t0 [|c [|x l]]]; auto.
Qed.

Lemma load_line_inv :
  forall st raw st',
    load_line st raw = Ok st' -> load_inv (editor st) -> load_inv (editor st').
Proof.
  intros st raw st' Hrun Hinv. unfold load_line in Hrun.
  destruct (negb _ || _); [inversion Hrun; now subst|].
  destruct (in_draw st).
  { destruct (PyStr.contains_char "}" _).
    - destruct (PyStr.partition "}" _) as [l r].
      destruct (finish_draw_block _ _ _ _ _) as [ed|e] eqn:Hf; simpl in Hrun;
        [|discriminate].
      inversion Hrun. subst st'. simpl.
      now apply (finish_draw_block_inv _ _ _ _ _ _ Hf).
    - inversion Hrun. now subst. }
  destruct (PyStr.startswith "canvas" _);
    [inversion Hrun; subst; now apply load_canvas_inv|].
  destruct (PyStr.startswith "background" _);
    [inversion Hrun; subst; now apply load_background_inv|].
  destruct (PyStr.startswith "layer" _);
    [inversion Hrun; subst; now apply load_layer_inv|].
  destruct (PyStr.startswith "}" _); [inversion Hrun; now subst|].
  destruct (current_layer st) as [li|] eqn:Hcur; [|inversion Hrun; now subst].
  destruct (PyStr.startswith "draw" _ && _).
  { unfold load_draw in Hrun.
    destruct (_ && _ && _).
    - destruct (finish_draw_block _ _ _ _ _) as [ed|e] eqn:Hf; simpl in Hrun;
        [|discriminate].
      inversion Hrun. subst st'. simpl.
      now apply (finish_draw_block_inv _ _ _ _ _ _ Hf).
    - inversion Hrun. now subst. }
  destruct (PyStr.startswith "erase" _); [|inversion Hrun; now subst].
  inversion Hrun. subst st'. unfold load_erase.
  destruct (PyRe.search_key _ _); [|assumption].
  simpl. now apply erase_ref_inv.
Qed.

Lemma load_loop_inv :
  forall lines st,
    load_inv (editor st) -> load_inv (editor (fst (load_loop st lines))).
Proof.
  induction lines as [|raw lines IH]; intros st Hinv; simpl; [assumption|].
  destruct (load_line st raw) as [st'|e] eqn:Hl; [|assumption].
  apply IH. now apply (load_line_inv st raw).
Qed.

Lemma load_from_lines_inv :
  forall ed lines, load_inv (result_editor (_load_from_lines ed lines)).
Proof.
  intros ed lines. unfold _load_from_lines.
  pose proof (load_loop_inv lines (load_init ed) (load_inv_init ed)) as H.
  destruct (load_loop (load_init ed) lines) as [st [e|]]; simpl in *;
    [assumption|].
  unfold load_final. destruct (in_draw st && _); [|assumption].
  destruct (finish_draw_block _ _ _ _ _) as [ed'|e] eqn:Hf; simpl;
    [|assumption].
  now apply (finish_draw_block_inv _ _ _ _ _ _ Hf).
Qed.

End LoaderProperties.

(** C5, as the claim states it, fails where [int] does not read the id.
    The header [layer id="12"] gives the number in quotes, which [int]
    rejects: the layer takes the id 1 from the counter, and the layer
    counter ends at 2, below the 12 of the file. An interpreter with the
    limit on the digits of a decimal literal rejects the suffix of
    [stroke_] and 4301 nines: the stroke is registered with that id and the
    stroke counter stays at 1. *)
Lemma counters_miss_unread_ids :
  (let ed1 := result_editor (@_load_from_lines cpython blank quoted_id_file) in
   layers ed1 = [Layer.mk 1 "Layer 1" true []] /\ layer_counter ed1 = 2)
  /\ (let ed2 :=
         result_editor (@_load_from_lines cpython_limited blank long_id_file) in
       map Stroke.id (heap ed2) = [long_id]
       /\ map Layer.strokes (layers ed2) = [[0%nat]]
       /\ stroke_counter ed2 = 1
       /\ PyNum.int10 (repeat_char "9" 4301) <> None).
Proof.
  split; [split; vm_compute; reflexivity|].
  intros ed2. split_and; try (vm_compute; reflexivity).
  vm_compute. discriminate.
Qed.

(** C5 (amended): after loading any lines, returned or raised, the layer
    counter is strictly greater than the id given to every layer of the
    document, and the stroke counter is strictly greater than every number
    [n] that [int] reads in the id [stroke_<n>] of a registered stroke;
    hence no layer has an id the layer counter can still give, and no
    registered stroke has an id [stroke_<c>] for a [c] the stroke counter
    can still give. *)
Theorem counters_past_loaded_ids :
  forall (RT : PyRuntime) (ed : InkPaint) (lines : list string),
    let ed' := result_editor (_load_from_lines ed lines) in
    (forall layer, In layer (layers ed') -> Layer.id layer < layer_counter ed')
    /\ (forall s suffix n,
           registered ed' s ->
           Stroke.id s = ("stroke_" ++ suffix)%string ->
           py_int suffix = Some n ->
           n < stroke_counter ed')
    /\ (forall layer c,
           In layer (layers ed') -> layer_counter ed' <= c ->
           Layer.id layer <> c)
    /\ (forall s c,
           registered ed' s -> stroke_counter ed' <= c ->
           py_int (PyNum.str_of_Z c) = Some c ->
           Stroke.id s <> ("stroke_" ++ PyNum.str_of_Z c)%string).
Proof.
  intros RT ed lines ed'.
  destruct (load_from_lines_inv ed lines) as [_ [Hlay Hstr]].
  fold ed' in Hlay, Hstr. split_and.
  - exact Hlay.
  - exact Hstr.
  - intros layer c Hin Hc Heq. specialize (Hlay layer Hin). lia.
  - intros s c Hreg Hc Hint Hid.
    specialize (Hstr s (PyNum.str_of_Z c) c Hreg Hid Hint). lia.
Qed.

Lemma counters_past_loaded_ids_witness :
  let ed' := result_editor (_load_from_lines blank counters_file) in
  77 < stroke_counter ed' /\ 12 < layer_counter ed'.
Proof.
  intros ed'.
  destruct (counters_past_loaded_ids cpython blank counters_file)
    as [Hlay [Hstr _]].
  fold ed' in Hlay, Hstr. split.
  - apply (Hstr (Stroke.mk "stroke_77" (Some "#ffffff") 3 [(1, 2)%float]
                           false None) "77" 77).
    + exists (Layer.mk 12 "Layer 12" true [0%nat]), 0%nat.
      split; [now left | split; [now left | reflexivity]].
    + reflexivity.
    + reflexivity.
  - apply (Hlay (Layer.mk 12 "Layer 12" true [0%nat])). now left.
Defined.

Section LoadFailure.

Context {RT : PyRuntime}.


Lemma load_loop_raise :
  forall lines st st' e,
    load_loop st lines = (st', Some e) ->
    exists pre bad post,
      lines = pre ++ bad :: post
      /\ load_loop st pre = (st', None)
      /\ load_line st' bad = Raise e.
Proof.
  induction lines as [|raw lines IH]; intros st st' e Hrun; simpl in Hrun;
    [discriminate|].
  destruct (load_line st raw) as [st1|e1] eqn:Hl.
  - destruct (IH st1 st' e Hrun) as [pre [bad [post [-> [Hpre Hbad]]]]].
    exists (raw :: pre), bad, post. simpl. rewrite Hl. auto.
  - inversion Hrun. subst. exists [], raw, lines. auto.
Qed.

End LoadFailure.

(** C3, as the claim states it, fails: loading [bad_width_text] over a
    document with one layer and one stroke raises at the closing brace, after
    the canvas size was replaced, the layers cleared and layer 5 added. *)
Lemma failed_load_mutates_document :
  open_inks (one_layer [outline]) (Contents bad_width_text)
  = (mkInkPaint 100 50 "#0b0d12" [Layer.mk 5 "Layer 5" true []] 6 0 1
                "#ffffff" [] [] [outline],
     OpenFailed)
  /\ layers (one_layer [outline]) = [Layer.mk 1 "Layer 1" true [0%nat]].
Proof. split; vm_compute; reflexivity. Qed.

(** C3 (amended): a load that fails because the file cannot be read leaves
    the document exactly as it was. A load that fails while parsing leaves
    the document as the lines before the failing one made it, starting from
    the cleared layers and the reset counters: the failure is a raise of the
    line that follows them, or of the block finished at the end of the input. *)
Theorem failed_load_state :
  forall (RT : PyRuntime) (ed : InkPaint) (f : file_read) (ed' : InkPaint),
    open_inks ed f = (ed', OpenFailed) ->
    match f with
    | Unreadable => ed' = ed
    | Contents text =>
        exists pre post st,
          PyStr.readlines text = pre ++ post
          /\ load_loop (load_init ed) pre = (st, None)
          /\ ed' = editor st
          /\ match post with
             | bad :: _ => exists e, load_line st bad = Raise e
             | [] => exists e, load_final st = Failed e ed'
             end
    end.
Proof.
  intros RT ed [|text] ed' Hopen; simpl in Hopen.
  - now inversion Hopen.
  - unfold _load_from_lines in Hopen.
    destruct (load_loop (load_init ed) (PyStr.readlines text)) as [st [e|]]
      eqn:Hloop.
    + inversion Hopen. subst ed'.
      destruct (load_loop_raise _ _ _ _ Hloop) as [pre [bad [post [Hl [Hp Hb]]]]].
      exists pre, (bad :: post), st. split_and; auto. now exists e.
    + destruct (load_final st) as [ed1|e ed1] eqn:Hfin; [discriminate|].
      inversion Hopen. subst ed'.
      exists (PyStr.readlines text), [], st. rewrite app_nil_r.
      split_and; auto.
      * unfold load_final in Hfin.
        destruct (in_draw st && _); [|discriminate].
        destruct (finish_draw_block _ _ _ _ _); [discriminate|].
        now inversion Hfin.
      * now exists e.
Qed.

Lemma failed_load_state_witness :
  exists pre post st,
    PyStr.readlines bad_width_text = pre ++ post
    /\ load_loop (load_init (one_layer [outline])) pre = (st, None)
    /\ mkInkPaint 100 50 "#0b0d12" [Layer.mk 5 "Layer 5" true []] 6 0 1
                  "#ffffff" [] [] [outline] = editor st
    /\ match post with
       | bad :: _ => exists e, load_line st bad = Raise e
       | [] =>
           exists e,
             load_final st
             = Failed e (mkInkPaint 100 50 "#0b0d12"
                                    [Layer.mk 5 "Layer 5" true []] 6 0 1
                                    "#ffffff" [] [] [outline])
       end.
Proof.
  apply (failed_load_state cpython (one_layer [outline])
                           (Contents bad_width_text)).
  vm_compute. reflexivity.
Defined.

(** *** Blocks left open at the end of the input *)

Section OpenBlocks.

Context {RT : PyRuntime}.







End OpenBlocks.




(** *** Erased strokes in the file *)

Lemma rstrip_p_app :
  forall p s t,
    PyStr.rstrip_p p (s ++ t)%string
    = match PyStr.rstrip_p p t with
      | EmptyString => PyStr.rstrip_p p s
      | r => (s ++ r)%string
      end.
Proof.
  intros p s t. induction s as [|c s IH]; simpl.
  - destruct (PyStr.rstrip_p p t); reflexivity.
  - rewrite IH. destruct (PyStr.rstrip_p p t); [reflexivity|].
    destruct s; reflexivity.
Qed.

Lemma rstrip_p_none :
  forall p s, all_chars (fun c => negb (p c)) s = true -> PyStr.rstrip_p p s = s.
Proof.
  intros p s. induction s as [|c s IH]; simpl; [reflexivity|].
  intros H. apply andb_true_iff in H. destruct H as [Hc Hs].
  rewrite (IH Hs). apply negb_true_iff in Hc. rewrite Hc.
  destruct s; reflexivity.
Qed.

Lemma all_chars_weaken :
  forall (p q : ascii -> bool) s,
    (forall c, p c = true -> q c = true) ->
    all_chars p s = true -> all_chars q s = true.
Proof.
  intros p q s Hpq. induction s as [|c s IH]; simpl; [reflexivity|].
  intros H. apply andb_true_iff in H. destruct H as [Hc Hs].
  now rewrite (Hpq c Hc), (IH Hs).
Qed.

Lemma span_all :
  forall p s, all_chars p s = true -> PyStr.span p s = (s, EmptyString).
Proof.
  intros p s. induction s as [|c s IH]; simpl; [reflexivity|].
  intros H. apply andb_true_iff in H. destruct H as [Hc Hs].
  now rewrite Hc, (IH Hs).
Qed.

Lemma plain_not_space : forall c, plain c = true -> negb (PyStr.is_space c) = true.
Proof. intros c H. apply andb_true_iff in H. tauto. Qed.

Lemma plain_not_quote :
  forall c, plain c = true -> negb (PyStr.is_char PyStr.quote c) = true.
Proof.
  intros c H. apply andb_true_iff in H. destruct H as [_ H].
  unfold PyStr.is_char. now rewrite Ascii.eqb_sym.
Qed.

Lemma plain_not_lf :
  forall c, plain c = true -> negb (PyStr.is_char PyStr.LF c) = true.
Proof.
  intros c H. apply plain_not_space in H. apply negb_true_iff in H.
  apply negb_true_iff. unfold PyStr.is_char.
  destruct (Ascii.eqb PyStr.LF c) eqn:E; [|reflexivity].
  apply Ascii.eqb_eq in E. subst c. discriminate.
Qed.

Lemma match_value_plain :
  forall sid, plain_id sid = true ->
              PyRe.match_value sid = Some (sid, EmptyString).
Proof.
  intros sid H. apply andb_true_iff in H. destruct H as [Hne Hall].
  destruct sid as [|c sid]; [discriminate|].
  unfold PyRe.match_value.
  assert (Hc : Ascii.eqb c PyStr.quote = false).
  { simpl in Hall. apply andb_true_iff in Hall. destruct Hall as [Hc _].
    apply andb_true_iff in Hc. destruct Hc as [_ Hc].
    now apply negb_true_iff in Hc. }
  rewrite Hc.
  rewrite (span_all PyRe.not_space (String c sid)); [reflexivity|].
  apply (all_chars_weaken plain); [|assumption].
  intros a Ha. now apply plain_not_space.
Qed.

Lemma strip_quotes_plain :
  forall sid, plain_id sid = true -> PyStr.strip_quotes sid = sid.
Proof.
  intros sid H. apply andb_true_iff in H. destruct H as [Hne Hall].
  unfold PyStr.strip_quotes, PyStr.strip_p.
  assert (Hq : all_chars (fun c => negb (PyStr.is_char PyStr.quote c)) sid = true)
    by (apply (all_chars_weaken plain); [apply plain_not_quote | assumption]).
  replace (PyStr.lstrip_p (PyStr.is_char PyStr.quote) sid) with sid.
  - now apply rstrip_p_none.
  - destruct sid as [|c sid]; [reflexivity|]. simpl in *.
    apply andb_true_iff in Hq. destruct Hq as [Hc _].
    apply negb_true_iff in Hc. now rewrite Hc.
Qed.

Lemma erase_line_stripped :
  forall sid, plain_id sid = true ->
    PyStr.strip (PyStr.rstrip_nl (erase_line sid)) = ("erase ref=" ++ sid)%string.
Proof.
  intros sid H. pose proof H as Hp.
  apply andb_true_iff in H. destruct H as [Hne Hall].
  assert (Hlf : PyStr.rstrip_nl (erase_line sid) = ("  erase ref=" ++ sid)%string).
  { unfold PyStr.rstrip_nl, erase_line.
    rewrite rstrip_p_app, rstrip_p_app. unfold nl.
    replace (PyStr.rstrip_p (PyStr.is_char PyStr.LF) (String PyStr.LF ""))
      with EmptyString by reflexivity.
    rewrite (rstrip_p_none (PyStr.is_char PyStr.LF) sid)
      by (apply (all_chars_weaken plain); [apply plain_not_lf | assumption]).
    destruct sid; [discriminate | reflexivity]. }
  rewrite Hlf. unfold PyStr.strip, PyStr.strip_p.
  change (PyStr.lstrip_p PyStr.is_space ("  erase ref=" ++ sid)%string)
    with ("erase ref=" ++ sid)%string.
  rewrite rstrip_p_app.
  rewrite (rstrip_p_none PyStr.is_space sid)
    by (apply (all_chars_weaken plain); [apply plain_not_space | assumption]).
  destruct sid; [discriminate | reflexivity].
Qed.

Lemma search_ref_plain :
  forall sid, plain_id sid = true ->
    PyRe.search_key "ref=" ("erase ref=" ++ sid)%string = Some sid.
Proof.
  intros sid H. simpl. now rewrite (match_value_plain sid H).
Qed.

Section EraseLine.

Context {RT : PyRuntime}.

(** The loader reads the erase line of a plain id, in an open layer, as the
    erasure of the first stroke of the layer with that id. *)
Lemma load_erase_line :
  forall st li sid,
    in_draw st = false -> current_layer st = Some li -> plain_id sid = true ->
    load_line st (erase_line sid)
    = Ok (set_editor (erase_ref (editor st) li sid) st).
Proof.
  intros st li sid Hd Hc Hp. unfold load_line.
  rewrite (erase_line_stripped sid Hp), Hd, Hc.
  change (negb (PyStr.nonempty ("erase ref=" ++ sid))
          || PyStr.startswith "#" ("erase ref=" ++ sid)) with false.
  change (PyStr.startswith "canvas" ("erase ref=" ++ sid)) with false.
  change (PyStr.startswith "background" ("erase ref=" ++ sid)) with false.
  change (PyStr.startswith "layer" ("erase ref=" ++ sid)) with false.
  change (PyStr.startswith "}" ("erase ref=" ++ sid)) with false.
  change (PyStr.startswith "draw" ("erase ref=" ++ sid)) with false.
  change (PyStr.startswith "erase" ("erase ref=" ++ sid)) with true.
  cbn [andb]. unfold load_erase.
  now rewrite (search_ref_plain sid Hp), (strip_quotes_plain sid Hp).
Qed.

End EraseLine.

(** C1: the code loses an erased stroke on reload. The text written for a
    document whose only stroke is erased holds the erase line and no draw
    block, and loading that text gives a layer without strokes: the erase
    branch of the loader looks for the id among the strokes of the open
    layer, and no draw block of the text registers it. The claim promises
    the stroke back, erased, with its points, colour, width and fill. *)
Lemma erased_stroke_is_lost_on_reload :
  save_inks (one_layer [erased_outline])
  = ("inkscript 1.0" ++ nl ++ nl
     ++ "canvas 1000 700" ++ nl
     ++ "background #0b0d12" ++ nl ++ nl
     ++ "layer id=1 name=" ++ dquote ++ "Layer 1" ++ dquote
     ++ " visible=true {" ++ nl
     ++ "  erase ref=stroke_1" ++ nl
     ++ "}" ++ nl ++ nl)%string
  /\ _load_from_lines blank
       (PyStr.readlines (save_inks (one_layer [erased_outline])))
     = Loaded (mkInkPaint 1000 700 "#0b0d12" [Layer.mk 1 "Layer 1" true []]
                          2 0 1 "#ffffff" [] [] []).
Proof. split; vm_compute; reflexivity. Qed.

(** The erase line, written and read: for every stroke with
    [erased = true], the writer writes
    the single line [erase ref=<id>] and no draw block. When the loader reads
    that line (the id being plain: not empty, without whitespace or quotes)
    inside an open layer in which a stroke with that id is registered, it
    sets [erased = true] on the first such stroke and leaves its points,
    colour, width and fill, the other stroke objects and the layers as they
    were. *)
Theorem erase_line_written_and_read :
  forall (RT : PyRuntime) (s : Stroke.t),
    Stroke.erased s = true ->
    stroke_text s = erase_line (Stroke.id s)
    /\ (forall st li layer a t,
           plain_id (Stroke.id s) = true ->
           in_draw st = false ->
           current_layer st = Some li ->
           nth_error (layers (editor st)) li = Some layer ->
           find (has_id (heap (editor st)) (Stroke.id s)) (Layer.strokes layer)
           = Some a ->
           deref (heap (editor st)) a = Some t ->
           exists st',
             load_line st (stroke_text s) = Ok st'
             /\ layers (editor st') = layers (editor st)
             /\ deref (heap (editor st')) a
                = Some (Stroke.mk (Stroke.id t) (Stroke.color t)
                                  (Stroke.width t) (Stroke.points t) true
                                  (Stroke.fill t))
             /\ (forall b, b <> a ->
                           deref (heap (editor st')) b
                           = deref (heap (editor st)) b)).
Proof.
  intros RT s He.
  assert (Htext : stroke_text s = erase_line (Stroke.id s))
    by (unfold stroke_text; now rewrite He).
  split; [exact Htext|].
  intros st li layer a t Hp Hd Hc Hl Hfind Ha.
  rewrite Htext, (load_erase_line st li (Stroke.id s) Hd Hc Hp).
  eexists. split; [reflexivity|].
  unfold erase_ref. rewrite Hl, Hfind. simpl. split_and.
  - reflexivity.
  - now rewrite deref_modify_same, Ha.
  - intros b Hb. now rewrite deref_modify_other.
Qed.

Lemma erase_line_written_and_read_witness :
  stroke_text erased_outline = erase_line "stroke_1"
  /\ exists st',
      load_line inside_layer (stroke_text erased_outline) = Ok st'
      /\ layers (editor st') = layers (one_layer [outline])
      /\ deref (heap (editor st')) 0%nat = Some erased_outline
      /\ (forall b, b <> 0%nat ->
                    deref (heap (editor st')) b
                    = deref (heap (one_layer [outline])) b).
Proof.
  destruct (erase_line_written_and_read cpython erased_outline eq_refl)
    as [Htext Hread].
  split; [exact Htext|].
  apply (Hread inside_layer 0%nat (Layer.mk 1 "Layer 1" true [0%nat])
               0%nat outline); reflexivity.
Defined.

(* ===================================================================== *)
(** * Further properties of the code *)
(* ===================================================================== *)

(** ** The history *)

Lemma heap_ext :
  forall h h' : list Stroke.t,
    (forall a, deref h' a = deref h a) -> h' = h.
Proof.
  intros h h' H. apply nth_error_ext. exact H.
Qed.

Lemma set_erased_idempotent :
  forall b s, Stroke.set_erased b (Stroke.set_erased b s) = Stroke.set_erased b s.
Proof. intros b s. reflexivity. Qed.

Lemma set_erased_same :
  forall s, Stroke.set_erased (Stroke.erased s) s = s.
Proof. intros [i c w p e f]. reflexivity. Qed.

Lemma has_id_modify_erased :
  forall b c h sid a,
    has_id (modify (Stroke.set_erased b) c h) sid a = has_id h sid a.
Proof.
  intros b c h sid a. unfold has_id. rewrite deref_modify.
  destruct (Nat.eqb c a); [|reflexivity].
  destruct (deref h a); reflexivity.
Qed.

Lemma mark_id_deref :
  forall b strokes h sid a,
    deref (mark_id b strokes h sid) a
    = if existsb (Nat.eqb a) strokes && has_id h sid a
      then option_map (Stroke.set_erased b) (deref h a)
      else deref h a.
Proof.
  intros b strokes. unfold mark_id.
  induction strokes as [|c rest IH]; intros h sid a; simpl; [reflexivity|].
  rewrite IH. clear IH.
  destruct (has_id h sid c) eqn:Hc.
  - rewrite has_id_modify_erased, deref_modify.
    rewrite (Nat.eqb_sym a c).
    destruct (Nat.eqb c a) eqn:E; simpl.
    + apply Nat.eqb_eq in E. subst c. rewrite Hc.
      destruct (existsb (Nat.eqb a) rest); simpl; [|reflexivity].
      destruct (deref h a); reflexivity.
    + reflexivity.
  - rewrite (Nat.eqb_sym a c).
    destruct (Nat.eqb c a) eqn:E; simpl; [|reflexivity].
    apply Nat.eqb_eq in E. subst c. rewrite Hc.
    now rewrite andb_false_r.
Qed.

Lemma has_id_mark_id :
  forall b strokes h sid sid' a,
    has_id (mark_id b strokes h sid) sid' a = has_id h sid' a.
Proof.
  intros b strokes h sid sid' a. unfold has_id at 1. rewrite mark_id_deref.
  unfold has_id.
  destruct (existsb (Nat.eqb a) strokes && _); [|reflexivity].
  destruct (deref h a); reflexivity.
Qed.

Lemma mark_ids_deref :
  forall b strokes ids h a,
    deref (mark_ids b strokes ids h) a
    = if existsb (Nat.eqb a) strokes
         && existsb (fun sid => has_id h sid a) ids
      then option_map (Stroke.set_erased b) (deref h a)
      else deref h a.
Proof.
  intros b strokes ids. unfold mark_ids.
  induction ids as [|sid ids IH]; intros h a; simpl.
  - now rewrite andb_false_r.
  - rewrite IH. clear IH.
    assert (Hex : existsb (fun sid0 => has_id (mark_id b strokes h sid) sid0 a) ids
                  = existsb (fun sid0 => has_id h sid0 a) ids).
    { induction ids as [|x ids IHx]; simpl; [reflexivity|].
      now rewrite has_id_mark_id, IHx. }
    rewrite Hex, mark_id_deref.
    destruct (existsb (Nat.eqb a) strokes), (has_id h sid a),
      (existsb (fun sid0 => has_id h sid0 a) ids), (deref h a);
      reflexivity.
Qed.

Lemma length_mark_ids :
  forall b strokes ids h,
    List.length (mark_ids b strokes ids h) = List.length h.
Proof.
  intros b strokes ids. unfold mark_ids, mark_id.
  induction ids as [|sid ids IH]; intros h; simpl; [reflexivity|].
  rewrite IH. clear IH. revert h.
  induction strokes as [|c rest IHs]; intros h; simpl; [reflexivity|].
  rewrite IHs. destruct (has_id h sid c); [apply length_modify | reflexivity].
Qed.

Lemma static_eq_refl : forall h, static_eq h h.
Proof. intros h. split; auto. Qed.

Lemma static_eq_trans :
  forall h1 h2 h3, static_eq h1 h2 -> static_eq h2 h3 -> static_eq h1 h3.
Proof.
  intros h1 h2 h3 [L1 H1] [L2 H2]. split; [congruence|].
  intros a. now rewrite H2, H1.
Qed.

Lemma static_eq_modify :
  forall f a h,
    (forall s, stroke_static (f s) = stroke_static s) ->
    static_eq h (modify f a h).
Proof.
  intros f a h Hf. split; [apply length_modify|].
  intros b. rewrite deref_modify. destruct (Nat.eqb a b); [|reflexivity].
  destruct (deref h b); simpl; [now rewrite Hf | reflexivity].
Qed.

Lemma static_eq_mark_ids :
  forall b strokes ids h, static_eq h (mark_ids b strokes ids h).
Proof.
  intros b strokes ids h. split; [apply length_mark_ids|].
  intros a. rewrite mark_ids_deref.
  destruct (_ && _); [|reflexivity].
  destruct (deref h a); reflexivity.
Qed.

Lemma restore_points_fields :
  forall pick snaps ed,
    let ed' := restore_points pick snaps ed in
    layers ed' = layers ed /\ undo_stack ed' = undo_stack ed
    /\ redo_stack ed' = redo_stack ed /\ static_eq (heap ed) (heap ed').
Proof.
  intros pick snaps. unfold restore_points.
  induction snaps as [|[[sid old_pts] new_pts] snaps IH]; intros ed; simpl.
  - split_and; auto. apply static_eq_refl.
  - destruct (IH (match _find_stroke_by_id ed sid with
                  | Some a =>
                      set_heap
                        (modify (Stroke.set_points (pick (old_pts, new_pts)))
                                a (heap ed)) ed
                  | None => ed
                  end)) as [Hl [Hu [Hr Hs]]].
    destruct (_find_stroke_by_id ed sid) as [a|]; simpl in *.
    + split_and; auto.
      eapply static_eq_trans; [|exact Hs].
      apply static_eq_modify. reflexivity.
    + split_and; auto.
Qed.

Lemma undo_static :
  forall ed, static_eq (heap ed) (heap (undo ed))
             /\ (history_size (undo ed) <= history_size ed)%nat.
Proof.
  intros ed. unfold undo, history_size.
  destruct (undo_stack ed) as [|act stack] eqn:Hu;
    [rewrite Hu; split; [apply static_eq_refl | lia]|].
  destruct act as [lid a | lid ids | lid snaps].
  - destruct (_layer_by_id _ lid) as [li|];
      [|split; [apply static_eq_refl | simpl; lia]].
    destruct (nth_error _ li) as [layer|];
      [|split; [apply static_eq_refl | simpl; lia]].
    destruct (deref _ a) as [target|];
      [|split; [apply static_eq_refl | simpl; lia]].
    destruct (existsb _ _); split; try apply static_eq_refl; simpl; lia.
  - destruct (_layer_by_id _ lid) as [li|];
      [|split; [apply static_eq_refl | simpl; lia]].
    destruct (nth_error _ li) as [layer|];
      [|split; [apply static_eq_refl | simpl; lia]].
    split; [apply static_eq_mark_ids | simpl; lia].
  - destruct (_layer_by_id _ lid) as [li|];
      [|split; [apply static_eq_refl | simpl; lia]].
    destruct (restore_points_fields fst snaps (set_undo_stack stack ed))
      as [_ [Hus [Hrs Hs]]].
    unfold push_redo. simpl in *. split; [exact Hs|].
    rewrite Hus, Hrs. simpl. lia.
Qed.

Lemma redo_static :
  forall ed, static_eq (heap ed) (heap (redo ed))
             /\ (history_size (redo ed) <= history_size ed)%nat.
Proof.
  intros ed. unfold redo, history_size.
  destruct (redo_stack ed) as [|act stack] eqn:Hr;
    [rewrite Hr; split; [apply static_eq_refl | lia]|].
  destruct act as [lid a | lid ids | lid snaps].
  - destruct (_layer_by_id _ lid) as [li|];
      split; try apply static_eq_refl; simpl; lia.
  - destruct (_layer_by_id _ lid) as [li|];
      [|split; [apply static_eq_refl | simpl; lia]].
    destruct (nth_error _ li) as [layer|];
      [|split; [apply static_eq_refl | simpl; lia]].
    split; [apply static_eq_mark_ids | simpl; lia].
  - destruct (_layer_by_id _ lid) as [li|];
      [|split; [apply static_eq_refl | simpl; lia]].
    destruct (restore_points_fields snd snaps (set_redo_stack stack ed))
      as [_ [Hus [Hrs Hs]]].
    unfold push_undo. simpl in *. split; [exact Hs|].
    rewrite Hus, Hrs. simpl. lia.
Qed.

(** X1: no sequence of calls of [undo] and [redo] creates or deletes a
    stroke object, or changes the id, the colour, the width or the fill of
    one: a replay only moves strokes in and out of layers and changes their
    points and their erased flag. In particular no replay restores a fill. *)
Theorem replay_keeps_stroke_attributes :
  forall (ed : InkPaint) (calls : list replay) (a : addr),
    List.length (heap (run_replay ed calls)) = List.length (heap ed)
    /\ option_map stroke_static (deref (heap (run_replay ed calls)) a)
       = option_map stroke_static (deref (heap ed) a).
Proof.
  intros ed calls a.
  assert (H : static_eq (heap ed) (heap (run_replay ed calls))).
  { revert ed. unfold run_replay.
    induction calls as [|c calls IH]; intros ed; simpl;
      [apply static_eq_refl|].
    eapply static_eq_trans; [|apply IH].
    destruct c; [apply undo_static | apply redo_static]. }
  destruct H as [Hl Hs]. split; [exact Hl | apply Hs].
Qed.

(** X2: the history never grows under [undo] and [redo]: each call moves
    its entry to the other stack or drops it, so the two stacks together
    never hold more entries than before the replay. *)
Theorem replay_never_grows_history :
  forall (ed : InkPaint) (calls : list replay),
    (history_size (run_replay ed calls) <= history_size ed)%nat.
Proof.
  intros ed calls. revert ed. unfold run_replay.
  induction calls as [|c calls IH]; intros ed; simpl; [lia|].
  etransitivity; [apply IH|].
  destruct c; [apply undo_static | apply redo_static].
Qed.

Lemma fill_loop_found :
  forall strokes ed layer_id wx wy ed',
    fill_loop ed layer_id wx wy strokes = Ok ed' ->
    ed' = ed
    \/ exists before a after s,
         strokes = before ++ a :: after
         /\ deref (heap ed) a = Some s
         /\ not_fillable s = false
         /\ _point_in_polygon (wx, wy) (Stroke.points s) = Ok true
         /\ (forall b t,
                In b before -> deref (heap ed) b = Some t ->
                not_fillable t = true
                \/ _point_in_polygon (wx, wy) (Stroke.points t) = Ok false)
         /\ ed' = set_redo_stack []
                    (set_undo_stack
                       (ActionAddStroke layer_id a :: undo_stack ed)
                       (set_heap
                          (modify (Stroke.set_fill (Some (color ed))) a (heap ed))
                          ed)).
Proof.
  induction strokes as [|c rest IH]; intros ed lid wx wy ed' Hrun;
    simpl in Hrun.
  - left. now inversion Hrun.
  - assert (Hnext :
              fill_loop ed lid wx wy rest = Ok ed' ->
              (forall t, deref (heap ed) c = Some t ->
                         not_fillable t = true
                         \/ _point_in_polygon (wx, wy) (Stroke.points t)
                            = Ok false) ->
              ed' = ed
              \/ exists before a after s,
                  c :: rest = before ++ a :: after
                  /\ deref (heap ed) a = Some s
                  /\ not_fillable s = false
                  /\ _point_in_polygon (wx, wy) (Stroke.points s) = Ok true
                  /\ (forall b t,
                         In b before -> deref (heap ed) b = Some t ->
                         not_fillable t = true
                         \/ _point_in_polygon (wx, wy) (Stroke.points t)
                            = Ok false)
                  /\ ed' = set_redo_stack []
                             (set_undo_stack
                                (ActionAddStroke lid a :: undo_stack ed)
                                (set_heap
                                   (modify (Stroke.set_fill (Some (color ed)))
                                           a (heap ed))
                                   ed))).
    { intros Hrest Hc.
      destruct (IH _ _ _ _ _ Hrest)
        as [-> | [before [a [after [s [-> [Ha [Hs [Hp [Hb ->]]]]]]]]]];
        [now left|].
      right. exists (c :: before), a, after, s. split_and; auto.
      intros b t [<- | Hin] Ht; [now apply Hc | now apply (Hb b)]. }
    destruct (deref (heap ed) c) as [t|] eqn:Hc;
      [|apply Hnext; [assumption | discriminate]].
    fold (not_fillable t) in Hrun.
    destruct (not_fillable t) eqn:Hskip.
    + apply Hnext; [assumption|]. intros t' Ht'. inversion Ht'. subst.
      now left.
    + destruct (_point_in_polygon (wx, wy) (Stroke.points t)) as [[|]|e]
        eqn:Hpip; simpl in Hrun; [| |discriminate].
      * right. exists [], c, rest, t.
        split_and; auto; try (intros b t' Hb; now destruct Hb);
          try (now inversion Hrun).
      * apply Hnext; [assumption|]. intros t' Ht'. inversion Ht'. subst.
        now right.
Qed.

(** X3: a fill that returns either changes nothing, or fills exactly one
    stroke of the current layer: the topmost one (the last in the layer)
    among those that are not erased, have at least three points and contain
    the point; it sets the current colour as its fill, logs one
    [ActionAddStroke] for it and clears the redo stack. *)
Theorem fill_picks_topmost_shape :
  forall (ed : InkPaint) (wx wy : float) (ed' : InkPaint),
    _apply_fill_at ed wx wy = Ok ed' ->
    ed' = ed
    \/ exists li layer below a above s,
         _current_layer ed = Some li
         /\ nth_error (layers ed) li = Some layer
         /\ Layer.strokes layer = below ++ a :: above
         /\ deref (heap ed) a = Some s
         /\ not_fillable s = false
         /\ _point_in_polygon (wx, wy) (Stroke.points s) = Ok true
         /\ (forall b t,
                In b above -> deref (heap ed) b = Some t ->
                not_fillable t = true
                \/ _point_in_polygon (wx, wy) (Stroke.points t) = Ok false)
         /\ ed' = set_redo_stack []
                    (set_undo_stack
                       (ActionAddStroke (Layer.id layer) a :: undo_stack ed)
                       (set_heap
                          (modify (Stroke.set_fill (Some (color ed))) a (heap ed))
                          ed)).
Proof.
  intros ed wx wy ed' Hrun. unfold _apply_fill_at in Hrun.
  destruct (_current_layer ed) as [li|] eqn:Hcur; [|left; now inversion Hrun].
  destruct (nth_error (layers ed) li) as [layer|] eqn:Hl;
    [|left; now inversion Hrun].
  destruct (fill_loop_found _ _ _ _ _ _ Hrun)
    as [-> | [before [a [after [s [Hrev [Ha [Hs [Hp [Hb ->]]]]]]]]]];
    [now left|].
  right. exists li, layer, (rev after), a, (rev before), s.
  split_and; auto.
  - rewrite <- (rev_involutive (Layer.strokes layer)), Hrev.
    rewrite rev_app_distr. simpl. now rewrite <- app_assoc.
  - intros b t Hin Ht. apply (Hb b t); auto. now apply in_rev.
Qed.

Lemma fill_picks_topmost_shape_witness :
  exists ed',
    _apply_fill_at (one_layer [outline]) 5%float 5%float = Ok ed'
    /\ (ed' = one_layer [outline]
        \/ exists li layer below a above s,
             _current_layer (one_layer [outline]) = Some li
             /\ nth_error (layers (one_layer [outline])) li = Some layer
             /\ Layer.strokes layer = below ++ a :: above
             /\ deref (heap (one_layer [outline])) a = Some s
             /\ not_fillable s = false
             /\ _point_in_polygon (5, 5)%float (Stroke.points s) = Ok true
             /\ (forall b t,
                    In b above ->
                    deref (heap (one_layer [outline])) b = Some t ->
                    not_fillable t = true
                    \/ _point_in_polygon (5, 5)%float (Stroke.points t)
                       = Ok false)
             /\ ed' = set_redo_stack []
                        (set_undo_stack
                           (ActionAddStroke (Layer.id layer) a
                              :: undo_stack (one_layer [outline]))
                           (set_heap
                              (modify
                                 (Stroke.set_fill
                                    (Some (color (one_layer [outline]))))
                                 a (heap (one_layer [outline])))
                              (one_layer [outline])))).
Proof.
  eexists. split; [vm_compute; reflexivity|].
  apply (fill_picks_topmost_shape (one_layer [outline]) 5%float 5%float).
  vm_compute. reflexivity.
Defined.

Lemma erase_loop_ids_sound :
  forall rad path strokes h ids sid,
    In sid (fst (erase_loop rad path strokes h ids)) ->
    In sid ids
    \/ exists a s,
        In a strokes /\ deref h a = Some s /\ Stroke.erased s = false
        /\ hit_test rad path (Stroke.points s) = true /\ Stroke.id s = sid.
Proof.
  intros rad path strokes.
  induction strokes as [|b rest IH]; intros h ids sid Hin; simpl in Hin;
    [now left|].
  assert (Hkeep :
            In sid (fst (erase_loop rad path rest h ids)) ->
            In sid ids
            \/ exists a s,
                In a (b :: rest) /\ deref h a = Some s
                /\ Stroke.erased s = false
                /\ hit_test rad path (Stroke.points s) = true
                /\ Stroke.id s = sid).
  { intros H. destruct (IH h ids sid H) as [H0 | [a [s [Ha H1]]]];
      [now left|]. right. exists a, s. split; [now right | exact H1]. }
  destruct (deref h b) as [t|] eqn:Hb; [|now apply Hkeep].
  destruct (Stroke.erased t) eqn:He; [now apply Hkeep|].
  destruct (Stroke.points t) as [|p pts] eqn:Hp; [now apply Hkeep|].
  destruct (hit_test rad path (p :: pts)) eqn:Hh; [|now apply Hkeep].
  destruct (IH _ _ sid Hin) as [H0 | [a [s [Ha [Hs [Hes [Hhs Hid]]]]]]].
  - apply in_app_or in H0. destruct H0 as [H0 | [<- | []]]; [now left|].
    right. exists b, t. rewrite Hp. split_and; auto. now left.
  - right. rewrite deref_modify in Hs.
    destruct (Nat.eqb b a) eqn:E.
    + apply Nat.eqb_eq in E. subst a. rewrite Hb in Hs. simpl in Hs.
      inversion Hs. subst s. discriminate.
    + exists a, s. split_and; auto. now right.
Qed.

Lemma existsb_has_id :
  forall h ids a s,
    deref h a = Some s ->
    existsb (fun sid => has_id h sid a) ids = true <-> In (Stroke.id s) ids.
Proof.
  intros h ids a s Ha. rewrite existsb_exists. unfold has_id. rewrite Ha.
  split.
  - intros [sid [Hin Heq]]. apply String.eqb_eq in Heq. now subst.
  - intros Hin. exists (Stroke.id s). split; auto. apply String.eqb_refl.
Qed.

Lemma existsb_eqb_false :
  forall a l, ~ In a l -> existsb (Nat.eqb a) l = false.
Proof.
  intros a l Hn. destruct (existsb (Nat.eqb a) l) eqn:E; [|reflexivity].
  apply existsb_exists in E. destruct E as [x [Hx Heq]].
  apply Nat.eqb_eq in Heq. subst. contradiction.
Qed.

Lemma existsb_eqb_dec :
  forall a l, {In a l /\ existsb (Nat.eqb a) l = true}
              + {~ In a l /\ existsb (Nat.eqb a) l = false}.
Proof.
  intros a l. destruct (in_dec Nat.eq_dec a l) as [H | H].
  - left. split; auto. now apply existsb_eqb_In.
  - right. split; auto. now apply existsb_eqb_false.
Qed.

(** The store after the eraser, and the store after the marks of [undo] and
    [redo], when the ids of the layer are unique. *)
Lemma eraser_marks_round_trip :
  forall rad path strokes h,
    ids_unique h strokes ->
    let r := erase_loop rad path strokes h [] in
    mark_ids false strokes (fst r) (snd r) = h
    /\ mark_ids true strokes (fst r) h = snd r.
Proof.
  intros rad path strokes h Huniq r.
  pose proof (erase_loop_heap rad path strokes h []) as Hh1.
  pose proof (erase_loop_ids_sound rad path strokes h []) as Hsound.
  pose proof (erase_loop_ids_hit rad path strokes h []) as Hcomplete.
  fold r in Hh1, Hsound, Hcomplete.
  set (ids := fst r) in *. set (h1 := snd r) in *. clearbody ids h1. clear r.
  assert (Hhit : forall a s,
             In a strokes -> deref h a = Some s ->
             In (Stroke.id s) ids ->
             Stroke.erased s = false
             /\ hit_test rad path (Stroke.points s) = true).
  { intros a s Hin Ha Hid.
    destruct (Hsound _ Hid) as [[] | [b [t [Hb [Ht [He [Hh Heq]]]]]]].
    assert (a = b) by (apply (Huniq a b s t); auto).
    subst b. rewrite Ha in Ht. inversion Ht. subst t. auto. }
  assert (Hmiss : forall a s,
             In a strokes -> deref h a = Some s ->
             ~ In (Stroke.id s) ids ->
             erase_effect rad path s = s).
  { intros a s Hin Ha Hid. unfold erase_effect.
    destruct (Stroke.erased s) eqn:He; [reflexivity|].
    destruct (hit_test rad path (Stroke.points s)) eqn:Hh; [|reflexivity].
    exfalso. apply Hid. apply (Hcomplete a s); auto. }
  assert (Hsame_id : forall s,
             Stroke.id (erase_effect rad path s) = Stroke.id s).
  { intros s. unfold erase_effect. destruct (Stroke.erased s); [reflexivity|].
    destruct (hit_test _ _ _); reflexivity. }
  split; apply heap_ext; intros a; rewrite mark_ids_deref.
  - rewrite Hh1.
    destruct (existsb_eqb_dec a strokes) as [[Hin ->] | [Hin ->]];
      [|reflexivity].
    destruct (deref h a) as [s|] eqn:Ha; cbn [option_map andb];
      [|now destruct (existsb _ _)].
    assert (Hd : deref h1 a = Some (erase_effect rad path s))
      by (now rewrite Hh1, (existsb_eqb_In _ _ Hin), Ha).
    destruct (existsb (fun sid => has_id h1 sid a) ids) eqn:Hex.
    + apply (existsb_has_id _ _ _ _ Hd) in Hex. rewrite Hsame_id in Hex.
      destruct (Hhit a s Hin Ha Hex) as [He Hh].
      unfold erase_effect. rewrite He, Hh. cbn [option_map].
      destruct s as [i c w p e f]. simpl in He. now subst e.
    + f_equal. apply (Hmiss a s Hin Ha).
      intros Hid. rewrite <- Hsame_id in Hid.
      apply (existsb_has_id _ _ _ _ Hd) in Hid. congruence.
  - rewrite Hh1.
    destruct (existsb_eqb_dec a strokes) as [[Hin ->] | [Hin ->]];
      [|reflexivity].
    destruct (deref h a) as [s|] eqn:Ha; cbn [option_map andb];
      [|now destruct (existsb _ _)].
    destruct (existsb (fun sid => has_id h sid a) ids) eqn:Hex.
    + apply (existsb_has_id _ _ _ _ Ha) in Hex.
      destruct (Hhit a s Hin Ha Hex) as [He Hh].
      unfold erase_effect. now rewrite He, Hh.
    + f_equal. symmetry. apply (Hmiss a s Hin Ha).
      intros Hid. apply (existsb_has_id _ _ _ _ Ha) in Hid. congruence.
Qed.

Lemma editor_eta :
  forall ed,
    mkInkPaint (width ed) (height ed) (bg_color ed) (layers ed)
               (layer_counter ed) (current_layer_index ed) (stroke_counter ed)
               (color ed) (undo_stack ed) (redo_stack ed) (heap ed) = ed.
Proof. intros []. reflexivity. Qed.

(** X4: an eraser gesture that erased something is undone as a whole. When
    the current layer is the first layer with its id and the stroke objects
    of that layer have distinct ids, [undo] after the gesture restores every
    stroke object, the layers and the undo stack (only the redo stack, which
    the gesture cleared, differs), and [redo] after that [undo] gives back
    the state the gesture left. *)
Theorem eraser_gesture_undo_redo :
  forall (ed : InkPaint) (eraser : Stroke.t) (ed1 : InkPaint)
         (li : nat) (layer : Layer.t),
    on_pointer_up_eraser ed eraser = Ok ed1 ->
    _current_layer ed = Some li ->
    nth_error (layers ed) li = Some layer ->
    _layer_by_id ed (Layer.id layer) = Some li ->
    ids_unique (heap ed) (Layer.strokes layer) ->
    undo_stack ed1 <> undo_stack ed ->
    set_redo_stack (redo_stack ed) (undo ed1) = ed
    /\ redo (undo ed1) = ed1.
Proof.
  intros ed eraser ed1 li layer Hrun Hcur Hlayer Hby Huniq Hlogged.
  unfold on_pointer_up_eraser in Hrun. rewrite Hcur in Hrun.
  unfold _apply_eraser_path in Hrun.
  destruct (Stroke.points eraser) as [|ep path] eqn:Hpath;
    [simpl in Hrun; inversion Hrun; subst; now elim Hlogged|].
  rewrite Hcur in Hrun.
  destruct (PyNum.float_of_int (Stroke.width eraser)) as [w|e];
    [|discriminate].
  cbn [bind] in Hrun. rewrite Hlayer in Hrun.
  pose proof (eraser_marks_round_trip (PrimFloat.div w 2%float) (ep :: path)
                (Layer.strokes layer) (heap ed) Huniq) as Hmarks.
  destruct (erase_loop (PrimFloat.div w 2%float) (ep :: path)
                       (Layer.strokes layer) (heap ed) []) as [ids h1].
  cbn [bind fst snd] in Hrun, Hmarks. destruct Hmarks as [Hback Hforth].
  destruct ids as [|sid ids];
    [inversion Hrun; subst; now elim Hlogged|].
  change (_current_layer (set_heap h1 ed)) with (_current_layer ed) in Hrun.
  rewrite Hcur in Hrun.
  change (layers (set_heap h1 ed)) with (layers ed) in Hrun.
  rewrite Hlayer in Hrun. inversion Hrun. clear Hrun. subst ed1.
  unfold undo. cbn [undo_stack set_redo_stack set_undo_stack set_heap].
  change (_layer_by_id (set_undo_stack (undo_stack ed) _) (Layer.id layer))
    with (_layer_by_id ed (Layer.id layer)).
  rewrite Hby. cbn [layers set_undo_stack set_redo_stack set_heap heap].
  rewrite Hlayer. rewrite Hback.
  split.
  - unfold push_redo, set_redo_stack, set_undo_stack, set_heap. simpl.
    apply editor_eta.
  - unfold push_redo, redo.
    cbn [redo_stack set_redo_stack set_undo_stack set_heap].
    change (_layer_by_id (set_redo_stack [] _) (Layer.id layer))
      with (_layer_by_id ed (Layer.id layer)).
    rewrite Hby. cbn [layers set_undo_stack set_redo_stack set_heap heap].
    rewrite Hlayer, Hforth. reflexivity.
Qed.

Lemma eraser_gesture_undo_redo_witness :
  let eraser := Stroke.mk "eraser_1" None 10 [(0, 0)%float] false None in
  let ed := one_layer [outline] in
  exists ed1,
    on_pointer_up_eraser ed eraser = Ok ed1
    /\ set_redo_stack (redo_stack ed) (undo ed1) = ed
    /\ redo (undo ed1) = ed1.
Proof.
  intros eraser ed. eexists. split; [vm_compute; reflexivity|].
  apply (eraser_gesture_undo_redo ed eraser _ 0%nat
           (Layer.mk 1 "Layer 1" true [0%nat])).
  - vm_compute. reflexivity.
  - reflexivity.
  - reflexivity.
  - reflexivity.
  - intros a b s t [<- | []] [<- | []] _ _ _. reflexivity.
  - vm_compute. discriminate.
Defined.

Lemma find_index_update_nth :
  forall (A : Type) (p : A -> bool) (f : A -> A) n l,
    (forall x, p (f x) = p x) ->
    find_index p (update_nth f n l) = find_index p l.
Proof.
  intros A p f n l Hp. revert n.
  induction l as [|x l IH]; intros [|n]; simpl; auto.
  - now rewrite Hp.
  - now rewrite IH.
Qed.



Lemma modify_twice :
  forall f g a h, modify f a (modify g a h) = modify (fun s => f (g s)) a h.
Proof.
  intros f g a h. revert a.
  induction h as [|s h IH]; intros [|a]; simpl; auto.
  now rewrite IH.
Qed.

Lemma modify_ext :
  forall f g a h, (forall s, f s = g s) -> modify f a h = modify g a h.
Proof.
  intros f g a h Hfg. revert a.
  induction h as [|s h IH]; intros [|a]; simpl; auto.
  - now rewrite Hfg.
  - now rewrite IH.
Qed.

Lemma modify_fixed :
  forall f a h, (forall s, f s = s) -> modify f a h = h.
Proof.
  intros f a h Hf. revert a.
  induction h as [|s h IH]; intros [|a]; simpl; auto.
  - now rewrite Hf.
  - now rewrite IH.
Qed.


Lemma set_heap_same : forall ed, set_heap (heap ed) ed = ed.
Proof. intros []. reflexivity. Qed.

(** The moves of a brush gesture append their points to the active stroke. *)
Lemma brush_moves :
  forall moves ed a,
    fold_left (fun e p => on_pointer_move_brush e a (fst p) (snd p)) moves ed
    = set_heap
        (modify (fun s => Stroke.set_points (Stroke.points s ++ moves) s)
                a (heap ed))
        ed.
Proof.
  induction moves as [|[x y] moves IH]; intros ed a; simpl.
  - rewrite modify_fixed; [now rewrite set_heap_same|].
    intros [i c w p e f]. unfold Stroke.set_points. simpl.
    now rewrite app_nil_r.
  - rewrite IH. unfold on_pointer_move_brush, set_heap. simpl.
    rewrite modify_twice. f_equal. apply modify_ext.
    intros [i c w p e f]. unfold Stroke.set_points. simpl.
    now rewrite <- app_assoc.
Qed.


Lemma layer_set_strokes_same :
  forall layer, Layer.set_strokes (Layer.strokes layer) layer = layer.
Proof. intros []. reflexivity. Qed.



Lemma mark_ids_no_strokes :
  forall b ids h, mark_ids b [] ids h = h.
Proof.
  intros b ids. unfold mark_ids.
  induction ids as [|sid ids IH]; intros h; simpl; auto.
Qed.

(** X6: clearing a layer cannot be undone. When the current layer is the
    first layer with its id, [clear_current_layer] empties it and logs an
    erasure; [undo] then takes that entry from the undo stack and changes
    no stroke object and no layer, so the layer stays empty, and [redo]
    after it gives back the state the clearing left. *)
Theorem clear_layer_is_not_undone :
  forall (ed : InkPaint) (li : nat) (layer : Layer.t),
    _current_layer ed = Some li ->
    nth_error (layers ed) li = Some layer ->
    _layer_by_id ed (Layer.id layer) = Some li ->
    let ed1 := clear_current_layer ed in
    nth_error (layers ed1) li = Some (Layer.set_strokes [] layer)
    /\ undo_stack ed1
       = ActionEraseStrokes (Layer.id layer)
                            (live_ids (heap ed) (Layer.strokes layer))
         :: undo_stack ed
    /\ layers (undo ed1) = layers ed1
    /\ heap (undo ed1) = heap ed
    /\ undo_stack (undo ed1) = undo_stack ed
    /\ redo (undo ed1) = ed1.
Proof.
  intros ed li layer Hcur Hlayer Hby ed1.
  set (L' := update_nth (Layer.set_strokes []) li (layers ed)).
  set (act := ActionEraseStrokes (Layer.id layer)
                (live_ids (heap ed) (Layer.strokes layer))).
  assert (Hed1 : ed1
                 = mkInkPaint (width ed) (height ed) (bg_color ed) L'
                     (layer_counter ed) (current_layer_index ed)
                     (stroke_counter ed) (color ed)
                     (act :: undo_stack ed) [] (heap ed)).
  { unfold ed1, clear_current_layer. rewrite Hcur, Hlayer. reflexivity. }
  assert (HL' : nth_error L' li = Some (Layer.set_strokes [] layer))
    by (unfold L'; now rewrite nth_error_update_nth_same, Hlayer).
  assert (Hby' : find_index (fun l => Layer.id l =? Layer.id layer) L'
                 = Some li).
  { unfold L'. rewrite find_index_update_nth by reflexivity. exact Hby. }
  assert (Hundo : undo ed1
                  = mkInkPaint (width ed) (height ed) (bg_color ed) L'
                      (layer_counter ed) (current_layer_index ed)
                      (stroke_counter ed) (color ed)
                      (undo_stack ed) [act] (heap ed)).
  { rewrite Hed1. unfold undo. cbn [undo_stack act].
    unfold _layer_by_id, set_undo_stack. cbn [layers heap]. rewrite Hby'.
    simpl. rewrite HL'. cbn [Layer.strokes Layer.set_strokes].
    rewrite mark_ids_no_strokes. reflexivity. }
  split_and.
  - now rewrite Hed1.
  - now rewrite Hed1.
  - now rewrite Hundo, Hed1.
  - now rewrite Hundo.
  - now rewrite Hundo.
  - rewrite Hundo, Hed1. unfold redo. cbn [redo_stack act].
    unfold _layer_by_id, set_redo_stack. cbn [layers heap]. rewrite Hby'.
    simpl. rewrite HL'. cbn [Layer.strokes Layer.set_strokes].
    rewrite mark_ids_no_strokes. reflexivity.
Qed.

Lemma clear_layer_is_not_undone_witness :
  let ed1 := clear_current_layer (one_layer [outline]) in
  nth_error (layers ed1) 0 = Some (Layer.mk 1 "Layer 1" true [])
  /\ undo_stack ed1 = [ActionEraseStrokes 1 ["stroke_1"%string]]
  /\ layers (undo ed1) = layers ed1
  /\ heap (undo ed1) = [outline]
  /\ undo_stack (undo ed1) = []
  /\ redo (undo ed1) = ed1.
Proof.
  apply (clear_layer_is_not_undone (one_layer [outline]) 0%nat
           (Layer.mk 1 "Layer 1" true [0%nat]));
    reflexivity.
Defined.

Lemma find_index_none :
  forall (A : Type) (p : A -> bool) l,
    (forall x, In x l -> p x = false) -> find_index p l = None.
Proof.
  intros A p l. induction l as [|x l IH]; intros H; simpl; [reflexivity|].
  rewrite (H x) by now left.
  rewrite IH; [reflexivity|]. intros y Hy. apply H. now right.
Qed.

Lemma In_remove_nth :
  forall (A : Type) n (l : list A) x, In x (remove_nth n l) -> In x l.
Proof.
  intros A n l. revert n.
  induction l as [|y l IH]; intros [|n] x H; simpl in *; auto.
  destruct H as [<- | H]; [now left | right; eauto].
Qed.

Lemma remove_nth_distinct :
  forall (A B : Type) (g : A -> B) n (l : list A) x y,
    NoDup (map g l) -> nth_error l n = Some x -> In y (remove_nth n l) ->
    g y <> g x.
Proof.
  intros A B g n l. revert n.
  induction l as [|z l IH]; intros [|n] x y Hnd Hn Hy; simpl in *;
    try discriminate.
  - inversion Hn. subst z. inversion Hnd as [|? ? Hnotin _]. subst.
    intros Heq. apply Hnotin. rewrite <- Heq. now apply in_map.
  - inversion Hnd as [|? ? Hnotin Hnd']. subst.
    destruct Hy as [<- | Hy].
    + intros Heq. apply Hnotin. rewrite Heq.
      apply in_map. eapply nth_error_In. eassumption.
    + eapply IH; eassumption.
Qed.

Lemma undo_without_layer :
  forall ed act st,
    undo_stack ed = act :: st ->
    _layer_by_id ed (action_layer act) = None ->
    undo ed = set_undo_stack st ed.
Proof.
  intros ed act st Hst Hby. unfold undo. rewrite Hst.
  unfold _layer_by_id in *.
  destruct act; simpl in *; rewrite Hby; reflexivity.
Qed.

Lemma redo_without_layer :
  forall ed act st,
    redo_stack ed = act :: st ->
    _layer_by_id ed (action_layer act) = None ->
    redo ed = set_redo_stack st ed.
Proof.
  intros ed act st Hst Hby. unfold redo. rewrite Hst.
  unfold _layer_by_id in *.
  destruct act; simpl in *; rewrite Hby; reflexivity.
Qed.

(** X7: removing a layer orphans its history. When the layers have distinct
    ids and the current index names a layer, [remove_layer] removes that
    layer and keeps both stacks; an entry of that layer on top of the undo
    stack is then dropped by [undo], and one on top of the redo stack by
    [redo], without any other change: the entry does not move to the other
    stack, and neither the layers nor the stroke objects change. *)
Theorem history_of_removed_layer_is_dropped :
  forall (ed : InkPaint) (layer : Layer.t) (act : Action),
    NoDup (map Layer.id (layers ed)) ->
    0 <= current_layer_index ed ->
    nth_error (layers ed) (Z.to_nat (current_layer_index ed)) = Some layer ->
    action_layer act = Layer.id layer ->
    let ed1 := remove_layer ed in
    layers ed1 = remove_nth (Z.to_nat (current_layer_index ed)) (layers ed)
    /\ no_layer_with ed1 (Layer.id layer)
    /\ undo_stack ed1 = undo_stack ed
    /\ redo_stack ed1 = redo_stack ed
    /\ (forall st, undo_stack ed = act :: st ->
                   undo ed1 = set_undo_stack st ed1)
    /\ (forall st, redo_stack ed = act :: st ->
                   redo ed1 = set_redo_stack st ed1).
Proof.
  intros ed layer act Hnd Hidx Hlayer Hact ed1.
  assert (Hlt : (Z.to_nat (current_layer_index ed)
                 < List.length (layers ed))%nat).
  { apply nth_error_Some. rewrite Hlayer. discriminate. }
  assert (Hed1 : ed1
                 = set_current_layer_index
                     (Z.max 0
                        (Z.min (current_layer_index ed)
                           (Z.of_nat
                              (List.length
                                 (remove_nth
                                    (Z.to_nat (current_layer_index ed))
                                    (layers ed))) - 1)))
                     (set_layers
                        (remove_nth (Z.to_nat (current_layer_index ed))
                                    (layers ed)) ed)).
  { unfold ed1, remove_layer.
    destruct (layers ed) as [|l0 ls] eqn:HL; [simpl in Hlt; lia|].
    rewrite <- HL in Hlt |- *.
    replace (current_layer_index ed <? 0) with false
      by (symmetry; apply Z.ltb_ge; lia).
    replace (Z.of_nat (List.length (layers ed)) <=? current_layer_index ed)
      with false by (symmetry; apply Z.leb_gt; lia).
    reflexivity. }
  assert (Hno : no_layer_with ed1 (Layer.id layer)).
  { intros y Hy. rewrite Hed1 in Hy. simpl in Hy.
    eapply remove_nth_distinct; eassumption. }
  assert (Hby : _layer_by_id ed1 (action_layer act) = None).
  { unfold _layer_by_id. apply find_index_none. intros y Hy.
    apply Z.eqb_neq. rewrite Hact. now apply Hno. }
  split_and.
  - now rewrite Hed1.
  - exact Hno.
  - now rewrite Hed1.
  - now rewrite Hed1.
  - intros st Hst. apply (undo_without_layer ed1 act st); [|exact Hby].
    rewrite Hed1. exact Hst.
  - intros st Hst. apply (redo_without_layer ed1 act st); [|exact Hby].
    rewrite Hed1. exact Hst.
Qed.

Lemma history_of_removed_layer_is_dropped_witness :
  let ed := brush_gesture (add_layer (one_layer [outline]) None) 3
                          (1, 1)%float [] in
  undo_stack ed = [ActionAddStroke 2 1%nat]
  /\ layers (remove_layer ed) = [Layer.mk 1 "Layer 1" true [0%nat]]
  /\ undo (remove_layer ed) = set_undo_stack [] (remove_layer ed).
Proof.
  intros ed.
  destruct (history_of_removed_layer_is_dropped ed
              (Layer.mk 2 "Layer 2" true [1%nat])
              (ActionAddStroke 2 1%nat))
    as (H1 & _ & _ & _ & H5 & _).
  - simpl. repeat constructor; simpl; intuition discriminate.
  - simpl. lia.
  - reflexivity.
  - reflexivity.
  - split; [reflexivity|]. split; [reflexivity|].
    apply H5. reflexivity.
Defined.

(** ** The layer panel *)

Lemma py_index_in_range :
  forall n i, (0 <= i < Z.of_nat n)%Z -> py_index n i = Some (Z.to_nat i).
Proof.
  intros n i H. unfold py_index.
  replace (0 <=? i)%Z with true by (symmetry; apply Z.leb_le; lia).
  replace (i <? Z.of_nat n)%Z with true by (symmetry; apply Z.ltb_lt; lia).
  reflexivity.
Qed.

Lemma nth_error_middle :
  forall (A : Type) (l1 : list A) x l2,
    nth_error (l1 ++ x :: l2) (List.length l1) = Some x.
Proof. intros A l1 x l2. induction l1; simpl; auto. Qed.

Lemma update_nth_middle :
  forall (A : Type) (f : A -> A) (l1 : list A) x l2,
    update_nth f (List.length l1) (l1 ++ x :: l2) = l1 ++ f x :: l2.
Proof.
  intros A f l1 x l2. induction l1 as [|a l1 IH]; simpl; [reflexivity|].
  now rewrite IH.
Qed.

Lemma list_split_adjacent :
  forall (A : Type) (l : list A) n,
    (S n < List.length l)%nat ->
    exists l1 x y l2, l = l1 ++ x :: y :: l2 /\ List.length l1 = n.
Proof.
  intros A l. induction l as [|a l IH]; intros n Hn; simpl in Hn; [lia|].
  destruct n as [|n].
  - destruct l as [|b l]; simpl in Hn; [lia|].
    exists [], a, b, l. auto.
  - destruct (IH n) as (l1 & x & y & l2 & -> & Hlen); [lia|].
    exists (a :: l1), x, y, l2. simpl. auto.
Qed.

(** Swapping two neighbours, read in either order. *)
Lemma swap_items_adjacent :
  forall (A : Type) (l1 : list A) x y l2 i j,
    (i = Z.of_nat (List.length l1) /\ j = i + 1
     \/ j = Z.of_nat (List.length l1) /\ i = j + 1)%Z ->
    swap_items i j (l1 ++ x :: y :: l2) = Some (l1 ++ y :: x :: l2).
Proof.
  intros A l1 x y l2 i j Hij. unfold swap_items.
  assert (Hlen : List.length (l1 ++ x :: y :: l2)
                 = S (S (List.length l1 + List.length l2)))
    by (rewrite length_app; simpl; lia).
  assert (Hy : nth_error (l1 ++ x :: y :: l2) (S (List.length l1)) = Some y).
  { change (l1 ++ x :: y :: l2) with (l1 ++ [x] ++ y :: l2).
    rewrite app_assoc.
    replace (S (List.length l1)) with (List.length (l1 ++ [x]))
      by (rewrite length_app; simpl; lia).
    apply nth_error_middle. }
  assert (Hu : forall (f : A -> A) a b,
             update_nth f (S (List.length l1)) (l1 ++ a :: b :: l2)
             = l1 ++ a :: f b :: l2).
  { intros f a b.
    change (l1 ++ a :: b :: l2) with (l1 ++ [a] ++ b :: l2).
    rewrite app_assoc.
    replace (S (List.length l1)) with (List.length (l1 ++ [a]))
      by (rewrite length_app; simpl; lia).
    rewrite update_nth_middle, <- app_assoc. reflexivity. }
  rewrite !py_index_in_range by (rewrite Hlen; lia).
  destruct Hij as [[-> ->] | [-> ->]].
  - replace (Z.to_nat (Z.of_nat (List.length l1) + 1))
      with (S (List.length l1)) by lia.
    rewrite Nat2Z.id, Hy, nth_error_middle.
    now rewrite update_nth_middle, Hu.
  - replace (Z.to_nat (Z.of_nat (List.length l1) + 1))
      with (S (List.length l1)) by lia.
    rewrite Nat2Z.id, Hy, nth_error_middle.
    now rewrite Hu, update_nth_middle.
Qed.

(** X9: moving the current layer up and then down again is the identity.
    When the current index names a layer that is not the first, neither
    call raises, the first swaps the layer with the one before it and
    follows it with the index, and the second restores the editor. The same
    holds for down and then up when the layer is not the last. *)
Theorem move_layer_round_trip :
  forall (ed : InkPaint),
    (0 <= current_layer_index ed < Z.of_nat (List.length (layers ed)))%Z ->
    (0 < current_layer_index ed ->
     exists ed1,
       move_layer_up ed = Some ed1
       /\ current_layer_index ed1 = current_layer_index ed - 1
       /\ nth_error (layers ed1) (Z.to_nat (current_layer_index ed1))
          = nth_error (layers ed) (Z.to_nat (current_layer_index ed))
       /\ move_layer_down ed1 = Some ed)%Z
    /\ (current_layer_index ed < Z.of_nat (List.length (layers ed)) - 1 ->
        exists ed1,
          move_layer_down ed = Some ed1
          /\ current_layer_index ed1 = current_layer_index ed + 1
          /\ nth_error (layers ed1) (Z.to_nat (current_layer_index ed1))
             = nth_error (layers ed) (Z.to_nat (current_layer_index ed))
          /\ move_layer_up ed1 = Some ed)%Z.
Proof.
  intros [w h bg L lc idx sc col us rs hp]. cbn [current_layer_index layers].
  intros Hidx. split; intros H.
  - destruct (list_split_adjacent _ L (Z.to_nat (idx - 1)))
      as (l1 & x & y & l2 & -> & Hlen); [lia|].
    assert (Hl : Z.of_nat (List.length l1) = idx - 1) by lia.
    eexists. unfold move_layer_up. cbn [current_layer_index layers].
    replace (0 <? idx) with true by (symmetry; apply Z.ltb_lt; lia).
    rewrite (swap_items_adjacent _ l1 x y l2) by (left; lia).
    split; [reflexivity|]. cbn [set_current_layer_index set_layers
      current_layer_index layers width height bg_color layer_counter
      stroke_counter color undo_stack redo_stack heap].
    split; [reflexivity|]. split.
    + replace (Z.to_nat (idx - 1)) with (List.length l1) by lia.
      replace (Z.to_nat idx) with (S (List.length l1)) by lia.
      rewrite nth_error_middle.
      change (l1 ++ x :: y :: l2) with (l1 ++ [x] ++ y :: l2).
      rewrite app_assoc.
      replace (S (List.length l1)) with (List.length (l1 ++ [x]))
        by (rewrite length_app; simpl; lia).
      now rewrite nth_error_middle.
    + unfold move_layer_down.
      cbn [set_current_layer_index set_layers current_layer_index layers].
      replace (idx - 1 <? Z.of_nat (List.length (l1 ++ y :: x :: l2)) - 1)
        with true
        by (symmetry; apply Z.ltb_lt; rewrite length_app in *; simpl in *;
            lia).
      rewrite (swap_items_adjacent _ l1 y x l2) by (right; lia).
      unfold set_current_layer_index, set_layers. simpl.
      replace (idx - 1 + 1) with idx by lia. reflexivity.
  - destruct (list_split_adjacent _ L (Z.to_nat idx))
      as (l1 & x & y & l2 & -> & Hlen); [lia|].
    assert (Hl : Z.of_nat (List.length l1) = idx) by lia.
    eexists. unfold move_layer_down. cbn [current_layer_index layers].
    replace (idx <? Z.of_nat (List.length (l1 ++ x :: y :: l2)) - 1)
      with true by (symmetry; apply Z.ltb_lt; lia).
    rewrite (swap_items_adjacent _ l1 x y l2) by (right; lia).
    split; [reflexivity|]. cbn [set_current_layer_index set_layers
      current_layer_index layers width height bg_color layer_counter
      stroke_counter color undo_stack redo_stack heap].
    split; [reflexivity|]. split.
    + replace (Z.to_nat (idx + 1)) with (S (List.length l1)) by lia.
      replace (Z.to_nat idx) with (List.length l1) by lia.
      rewrite nth_error_middle.
      change (l1 ++ y :: x :: l2) with (l1 ++ [y] ++ x :: l2).
      rewrite app_assoc.
      replace (S (List.length l1)) with (List.length (l1 ++ [y]))
        by (rewrite length_app; simpl; lia).
      now rewrite nth_error_middle.
    + unfold move_layer_up.
      cbn [set_current_layer_index set_layers current_layer_index layers].
      replace (0 <? idx + 1) with true by (symmetry; apply Z.ltb_lt; lia).
      replace (idx + 1 - 1) with idx by lia.
      rewrite (swap_items_adjacent _ l1 y x l2) by (left; lia).
      unfold set_current_layer_index, set_layers. simpl. reflexivity.
Qed.

Lemma move_layer_round_trip_witness :
  let ed := set_current_layer_index 1 (add_layer (one_layer [outline]) None) in
  map Layer.id (layers ed) = [2; 1]
  /\ exists ed1,
       move_layer_up ed = Some ed1
       /\ current_layer_index ed1 = 0
       /\ map Layer.id (layers ed1) = [1; 2]
       /\ move_layer_down ed1 = Some ed.
Proof.
  intros ed. split; [reflexivity|].
  destruct (move_layer_round_trip ed) as [Hup _]; [simpl; lia|].
  destruct Hup as (ed1 & H1 & H2 & _ & H4); [simpl; lia|].
  exists ed1. split; [exact H1|]. split; [exact H2|]. split; [|exact H4].
  unfold ed in H1. vm_compute in H1. inversion H1. reflexivity.
Defined.

Lemma layers_wf_shape :
  forall ed ed',
    layer_shape ed' = layer_shape ed -> layers_wf ed -> layers_wf ed'.
Proof.
  intros ed ed' H. unfold layer_shape in H. inversion H as [[H1 H2 H3]].
  unfold layers_wf. now rewrite H1, H2, H3.
Qed.

Lemma restore_points_shape :
  forall pick snaps ed,
    layer_shape (restore_points pick snaps ed) = layer_shape ed.
Proof.
  intros pick snaps. unfold restore_points.
  induction snaps as [|[[sid old_pts] new_pts] snaps IH]; intros ed; simpl;
    [reflexivity|].
  rewrite IH. destruct (_find_stroke_by_id ed sid); reflexivity.
Qed.

Lemma undo_shape : forall ed, layer_shape (undo ed) = layer_shape ed.
Proof.
  intros ed. unfold undo.
  destruct (undo_stack ed) as [|act stack]; [reflexivity|].
  destruct act as [lid a | lid ids | lid snaps].
  - destruct (_layer_by_id _ lid) as [li|]; [|reflexivity].
    destruct (nth_error _ li) as [layer|]; [|reflexivity].
    destruct (deref _ a) as [target|]; [|reflexivity].
    destruct (existsb _ _); [|reflexivity].
    unfold push_redo, layer_shape. simpl.
    now rewrite map_update_nth_invariant.
  - destruct (_layer_by_id _ lid) as [li|]; [|reflexivity].
    destruct (nth_error _ li) as [layer|]; reflexivity.
  - destruct (_layer_by_id _ lid) as [li|]; [|reflexivity].
    unfold push_redo.
    change (layer_shape (restore_points fst snaps (set_undo_stack stack ed))
            = layer_shape ed).
    now rewrite restore_points_shape.
Qed.

Lemma redo_shape : forall ed, layer_shape (redo ed) = layer_shape ed.
Proof.
  intros ed. unfold redo.
  destruct (redo_stack ed) as [|act stack]; [reflexivity|].
  destruct act as [lid a | lid ids | lid snaps].
  - destruct (_layer_by_id _ lid) as [li|]; [|reflexivity].
    unfold push_undo, layer_shape. simpl.
    now rewrite map_update_nth_invariant.
  - destruct (_layer_by_id _ lid) as [li|]; [|reflexivity].
    destruct (nth_error _ li) as [layer|]; reflexivity.
  - destruct (_layer_by_id _ lid) as [li|]; [|reflexivity].
    unfold push_undo.
    change (layer_shape (restore_points snd snaps (set_redo_stack stack ed))
            = layer_shape ed).
    now rewrite restore_points_shape.
Qed.

Lemma toggle_shape :
  forall ed, layer_shape (toggle_layer_visibility ed) = layer_shape ed.
Proof.
  intros ed. unfold toggle_layer_visibility.
  destruct (_current_layer ed) as [li|]; [|reflexivity].
  unfold layer_shape. simpl. now rewrite map_update_nth_invariant.
Qed.

Lemma clear_shape :
  forall ed, layer_shape (clear_current_layer ed) = layer_shape ed.
Proof.
  intros ed. unfold clear_current_layer.
  destruct (_current_layer ed) as [li|]; [|reflexivity].
  destruct (nth_error _ li) as [layer|]; [|reflexivity].
  unfold layer_shape. simpl. now rewrite map_update_nth_invariant.
Qed.

Lemma brush_shape :
  forall ed w p0 moves,
    layer_shape (brush_gesture ed w p0 moves) = layer_shape ed.
Proof.
  intros ed w p0 moves. unfold brush_gesture, on_pointer_down_brush.
  destruct (_current_layer ed) as [li|]; [|reflexivity].
  cbn [alloc]. rewrite brush_moves. unfold on_pointer_up_brush.
  destruct (_current_layer _) as [lj|];
    [destruct (nth_error _ lj) as [layer|]|];
    unfold layer_shape; simpl; now rewrite map_update_nth_invariant.
Qed.

Lemma NoDup_swap_adjacent :
  forall (A : Type) (l1 : list A) x y l2,
    NoDup (l1 ++ x :: y :: l2) -> NoDup (l1 ++ y :: x :: l2).
Proof.
  intros A l1 x y l2. induction l1 as [|a l1 IH]; simpl; intros H.
  - inversion H as [|? ? Hx Hrest]. subst.
    inversion Hrest as [|? ? Hy Hl2]. subst.
    constructor; [|constructor; [|exact Hl2]].
    + simpl. intros [-> | Hin]; [apply Hx; now left | now apply Hy].
    + intros Hin. apply Hx. now right.
  - inversion H as [|? ? Ha Hrest]. subst.
    constructor; [|now apply IH].
    intros Hin. apply Ha. rewrite in_app_iff in *. simpl in *. tauto.
Qed.

Lemma NoDup_remove_nth :
  forall (A : Type) n (l : list A), NoDup l -> NoDup (remove_nth n l).
Proof.
  intros A n l. revert n.
  induction l as [|a l IH]; intros [|n] H; simpl; auto.
  - now inversion H.
  - inversion H as [|? ? Ha Hl]. subst. constructor; [|now apply IH].
    intros Hin. apply Ha. eapply In_remove_nth. eassumption.
Qed.

Lemma map_remove_nth :
  forall (A B : Type) (g : A -> B) n (l : list A),
    map g (remove_nth n l) = remove_nth n (map g l).
Proof.
  intros A B g n l. revert n.
  induction l as [|a l IH]; intros [|n]; simpl; auto. now rewrite IH.
Qed.

Lemma length_remove_nth :
  forall (A : Type) n (l : list A),
    (n < List.length l)%nat ->
    List.length (remove_nth n l) = (List.length l - 1)%nat.
Proof.
  intros A n l. revert n.
  induction l as [|a l IH]; intros [|n] H; simpl in *; try lia.
  rewrite IH by lia. lia.
Qed.

(** Every command keeps the layers well formed, and none raises. *)
Lemma run_command_wf :
  forall ed c,
    layers_wf ed -> exists ed', run_command ed c = Some ed' /\ layers_wf ed'.
Proof.
  intros ed c Hwf.
  destruct c as [name| | | | | |w p0 moves| |]; simpl.
  - (* add_layer *)
    eexists. split; [reflexivity|].
    destruct Hwf as (Hnd & Hlt & Hidx).
    unfold layers_wf, add_layer. simpl. split_and.
    + constructor; [|exact Hnd]. intros Hin. apply Hlt in Hin. lia.
    + intros lid [<- | Hin]; [lia|]. apply Hlt in Hin. lia.
    + lia.
    + lia.
  - (* remove_layer *)
    eexists. split; [reflexivity|].
    destruct Hwf as (Hnd & Hlt & Hidx).
    unfold remove_layer. destruct (layers ed) as [|l0 ls] eqn:HL.
    + unfold layers_wf. rewrite HL. auto.
    + rewrite <- HL in *.
      destruct ((current_layer_index ed <? 0)
                || (Z.of_nat (List.length (layers ed))
                    <=? current_layer_index ed)) eqn:Hrange.
      * unfold layers_wf. auto.
      * apply Bool.orb_false_iff in Hrange. destruct Hrange as [H0 H1].
        apply Z.ltb_ge in H0. apply Z.leb_gt in H1.
        unfold layers_wf. simpl. rewrite map_remove_nth. split_and.
        -- now apply NoDup_remove_nth.
        -- intros lid Hin. apply Hlt. eapply In_remove_nth. eassumption.
        -- lia.
        -- rewrite length_map in *.
           rewrite !length_remove_nth by (rewrite ?length_map; lia).
           rewrite length_map. lia.
  - (* move_layer_up *)
    destruct Hwf as (Hnd & Hlt & Hidx). rewrite length_map in Hidx.
    unfold move_layer_up.
    destruct (0 <? current_layer_index ed) eqn:Hpos.
    + apply Z.ltb_lt in Hpos.
      destruct (list_split_adjacent _ (layers ed)
                  (Z.to_nat (current_layer_index ed - 1)))
        as (l1 & x & y & l2 & HL & Hlen); [lia|].
      rewrite HL.
      rewrite (swap_items_adjacent _ l1 x y l2) by (left; lia).
      eexists. split; [reflexivity|].
      unfold layers_wf. simpl. rewrite HL in Hnd, Hlt, Hidx.
      rewrite map_app in *. simpl in *. split_and.
      * now apply NoDup_swap_adjacent.
      * intros lid Hin. apply Hlt. rewrite in_app_iff in *. simpl in *.
        tauto.
      * lia.
      * repeat first [rewrite length_app in * | rewrite length_map in *
                     | progress simpl in *].
        lia.
    + eexists. split; [reflexivity|]. unfold layers_wf.
      rewrite length_map. auto.
  - (* move_layer_down *)
    destruct Hwf as (Hnd & Hlt & Hidx). rewrite length_map in Hidx.
    unfold move_layer_down.
    destruct (current_layer_index ed
              <? Z.of_nat (List.length (layers ed)) - 1) eqn:Hpos.
    + apply Z.ltb_lt in Hpos.
      destruct (list_split_adjacent _ (layers ed)
                  (Z.to_nat (current_layer_index ed)))
        as (l1 & x & y & l2 & HL & Hlen); [lia|].
      rewrite HL.
      rewrite (swap_items_adjacent _ l1 x y l2) by (right; lia).
      eexists. split; [reflexivity|].
      unfold layers_wf. simpl. rewrite HL in Hnd, Hlt, Hidx, Hpos.
      rewrite map_app in *. simpl in *. split_and.
      * now apply NoDup_swap_adjacent.
      * intros lid Hin. apply Hlt. rewrite in_app_iff in *. simpl in *.
        tauto.
      * lia.
      * repeat first [rewrite length_app in * | rewrite length_map in *
                     | progress simpl in *].
        lia.
    + eexists. split; [reflexivity|]. unfold layers_wf.
      rewrite length_map. auto.
  - eexists. split; [reflexivity|].
    eapply layers_wf_shape; [apply toggle_shape | exact Hwf].
  - eexists. split; [reflexivity|].
    eapply layers_wf_shape; [apply clear_shape | exact Hwf].
  - eexists. split; [reflexivity|].
    eapply layers_wf_shape; [apply brush_shape | exact Hwf].
  - eexists. split; [reflexivity|].
    eapply layers_wf_shape; [apply undo_shape | exact Hwf].
  - eexists. split; [reflexivity|].
    eapply layers_wf_shape; [apply redo_shape | exact Hwf].
Qed.

Lemma run_commands_wf :
  forall cs ed,
    layers_wf ed -> exists ed', run_commands ed cs = Some ed' /\ layers_wf ed'.
Proof.
  induction cs as [|c cs IH]; intros ed Hwf; simpl.
  - exists ed. auto.
  - destruct (run_command_wf ed c Hwf) as (ed1 & -> & Hwf1).
    now apply IH.
Qed.

(** X8: the layer panel stays consistent. From a new document, every
    sequence of adding, removing, moving, hiding and clearing layers, brush
    gestures, undo and redo runs without an [IndexError] and leaves layers
    with distinct ids below the layer counter and a current index that names
    a layer whenever there is one. *)
Theorem commands_keep_layers_well_formed :
  forall (ed0 : InkPaint) (cs : list command),
  exists ed,
    run_commands (new_document ed0) cs = Some ed /\ layers_wf ed.
Proof.
  intros ed0 cs. apply run_commands_wf.
  unfold layers_wf, new_document, add_layer. simpl. split_and.
  - constructor; [intros []|constructor].
  - intros lid [<- | []]. lia.
  - lia.
  - lia.
Qed.

(** ** The eraser, applied twice *)

Lemma erase_loop_stable :
  forall rad path strokes h ids,
    (forall a s, In a strokes -> deref h a = Some s ->
                 Stroke.erased s = true
                 \/ hit_test rad path (Stroke.points s) = false) ->
    erase_loop rad path strokes h ids = (ids, h).
Proof.
  intros rad path strokes h ids.
  induction strokes as [|a rest IH]; intros H; simpl; [reflexivity|].
  assert (IH' : erase_loop rad path rest h ids = (ids, h))
    by (apply IH; intros b s Hb; apply H; now right).
  destruct (deref h a) as [s|] eqn:Ha; [|exact IH'].
  destruct (H a s (or_introl eq_refl) Ha) as [He | Hh].
  - now rewrite He.
  - destruct (Stroke.erased s); [exact IH'|].
    destruct (Stroke.points s) as [|p pts]; [exact IH'|].
    now rewrite Hh.
Qed.

Lemma erase_effect_settled :
  forall rad path s,
    Stroke.erased (erase_effect rad path s) = true
    \/ hit_test rad path (Stroke.points (erase_effect rad path s)) = false.
Proof.
  intros rad path s. unfold erase_effect.
  destruct (Stroke.erased s) eqn:He; [now left|].
  destruct (hit_test rad path (Stroke.points s)) eqn:Hh;
    [left; reflexivity | now right].
Qed.

(** X10: erasing is idempotent. When [_apply_eraser_path] returns, a second
    call with the same path and width on the editor it leaves erases nothing
    more: it returns no id and the same editor. *)
Theorem eraser_is_idempotent :
  forall (ed : InkPaint) (path : list point) (eraser_width : Z)
         (ids : list string) (ed1 : InkPaint),
    _apply_eraser_path ed path eraser_width = Ok (ids, ed1) ->
    _apply_eraser_path ed1 path eraser_width = Ok ([], ed1).
Proof.
  intros ed path w ids ed1. unfold _apply_eraser_path.
  destruct path as [|ep path]; [intros H; now inversion H|].
  destruct (_current_layer ed) as [li|] eqn:Hcur;
    [|intros H; inversion H; subst; now rewrite Hcur].
  destruct (PyNum.float_of_int w) as [wf|e] eqn:Hw; simpl;
    [|discriminate].
  destruct (nth_error (layers ed) li) as [layer|] eqn:Hlayer;
    [|intros H; inversion H; subst; now rewrite Hcur, Hlayer].
  set (rad := PrimFloat.div wf 2%float).
  destruct (erase_loop rad (ep :: path) (Layer.strokes layer) (heap ed) [])
    as [ids0 h1] eqn:Hloop.
  intros H. inversion H. subst ids0 ed1. clear H.
  assert (Hcur1 : _current_layer (set_heap h1 ed) = Some li) by exact Hcur.
  rewrite Hcur1. simpl. cbn [layers set_heap heap]. rewrite Hlayer.
  fold rad. rewrite erase_loop_stable.
  - unfold set_heap. reflexivity.
  - intros a s Ha Hs.
    pose proof (erase_loop_heap rad (ep :: path) (Layer.strokes layer)
                  (heap ed) [] a) as Hd.
    rewrite Hloop in Hd. simpl snd in Hd.
    replace (existsb (Nat.eqb a) (Layer.strokes layer)) with true in Hd.
    + rewrite Hs in Hd. destruct (deref (heap ed) a) as [s0|];
        [|discriminate].
      simpl in Hd. inversion Hd. apply erase_effect_settled.
    + symmetry. apply existsb_exists. exists a. split; [exact Ha|].
      apply Nat.eqb_refl.
Qed.

Lemma eraser_is_idempotent_witness :
  _apply_eraser_path (one_layer [outline]) [(0, 0)%float] 2
  = Ok (["stroke_1"%string], one_layer [erased_outline])
  /\ _apply_eraser_path (one_layer [erased_outline]) [(0, 0)%float] 2
     = Ok ([], one_layer [erased_outline]).
Proof.
  split; [vm_compute; reflexivity|].
  apply (eraser_is_idempotent (one_layer [outline]) [(0, 0)%float] 2
           ["stroke_1"%string]).
  vm_compute. reflexivity.
Defined.

(** ** The loader: what it keeps, and where it registers strokes *)

Lemma flat_map_update_last :
  forall (L : list Layer.t) li a,
    S li = List.length L ->
    flat_map Layer.strokes
      (update_nth (fun l => Layer.set_strokes (Layer.strokes l ++ [a]) l) li L)
    = flat_map Layer.strokes L ++ [a].
Proof.
  induction L as [|x L IH]; intros li a Hlen; simpl in Hlen; [lia|].
  destruct li as [|li]; simpl.
  - destruct L; [|simpl in Hlen; lia]. simpl.
    now rewrite !app_nil_r.
  - rewrite IH by lia. now rewrite app_assoc.
Qed.

Lemma firstn_modify :
  forall f n a h, (n <= a)%nat -> firstn n (modify f a h) = firstn n h.
Proof.
  intros f n a h. revert n a.
  induction h as [|s h IH]; intros [|n] [|a] H; simpl; auto; try lia.
  now rewrite IH by lia.
Qed.

Lemma firstn_alloc :
  forall n (h : list Stroke.t) s,
    (n <= List.length h)%nat -> firstn n (h ++ [s]) = firstn n h.
Proof.
  intros n h s H. rewrite firstn_app.
  replace (n - List.length h)%nat with 0%nat by lia.
  simpl. apply app_nil_r.
Qed.

Lemma seq_alloc :
  forall n len, (n <= len)%nat -> seq n (len - n) ++ [len] = seq n (S len - n).
Proof.
  intros n len H.
  replace (S len - n)%nat with (S (len - n)) by lia.
  rewrite seq_S. f_equal. f_equal. lia.
Qed.

Lemma In_flat_map_nth :
  forall (L : list Layer.t) li layer a,
    nth_error L li = Some layer -> In a (Layer.strokes layer) ->
    In a (flat_map Layer.strokes L).
Proof.
  intros L li layer a Hn Ha. apply in_flat_map. exists layer.
  split; [eapply nth_error_In; eassumption | exact Ha].
Qed.

Section LoaderOrder.

Context {RT : PyRuntime}.

Variable ed0 : InkPaint.

Lemma load_order_room :
  forall h : list Stroke.t,
    firstn (List.length (heap ed0)) h = heap ed0 ->
    (List.length (heap ed0) <= List.length h)%nat.
Proof.
  intros h H. apply (f_equal (@List.length _)) in H.
  rewrite length_firstn in H. lia.
Qed.

Lemma advance_stroke_counter_fields :
  forall sid ed,
    let ed' := advance_stroke_counter sid ed in
    session ed' = session ed /\ layers ed' = layers ed
    /\ heap ed' = heap ed.
Proof.
  intros sid ed. unfold advance_stroke_counter.
  destruct (PyStr.startswith "stroke_" sid); [|auto].
  destruct (py_int _); [|auto].
  destruct (stroke_counter ed <=? z)%Z; auto.
Qed.

Lemma finish_draw_block_order :
  forall st sid pts style ed' cur b i p,
    finish_draw_block (editor st) (current_layer st) sid pts style = Ok ed' ->
    load_order ed0 st ->
    (cur = current_layer st \/ cur = None) ->
    load_order ed0 (mkLoadState ed' cur b i p).
Proof.
  intros st sid pts style ed' cur b i p Hrun (Hs & Hf & Ho & Hl) Hcur.
  unfold finish_draw_block in Hrun.
  destruct (current_layer st) as [li|] eqn:Hli.
  - destruct (int_float (style_width style)) as [w|e]; simpl in Hrun;
      [|discriminate].
    inversion Hrun as [Hed]. clear Hrun.
    match goal with
    | |- context [advance_stroke_counter ?i (append_stroke li ?s (editor st))]
      => destruct (advance_stroke_counter_fields
                     i (append_stroke li s (editor st)))
        as (Hs' & Hl' & Hh'); set (sid' := i) in *; set (s0 := s) in *
    end.
    pose proof (load_order_room _ Hf) as Hroom.
    unfold load_order, listed_in_order. cbn [editor current_layer].
    rewrite Hs', Hl', Hh'. unfold append_stroke, alloc.
    cbn [layers heap set_layers set_heap]. split_and.
    + exact Hs.
    + rewrite firstn_alloc by exact Hroom. exact Hf.
    + rewrite flat_map_update_last by (apply Hl; reflexivity).
      unfold listed_in_order in Ho. rewrite Ho, length_app. simpl.
      replace (List.length (heap (editor st)) + 1)%nat
        with (S (List.length (heap (editor st)))) by lia.
      now apply seq_alloc.
    + intros lj Hlj. rewrite length_update_nth. apply Hl.
      destruct Hcur as [-> | ->]; [exact Hlj | discriminate].
  - inversion Hrun. subst ed'.
    unfold load_order. cbn [editor current_layer]. split_and; auto.
    intros lj Hlj. destruct Hcur as [-> | ->]; discriminate.
Qed.

Lemma erase_ref_order :
  forall st li rid,
    load_order ed0 st ->
    load_order ed0 (set_editor (erase_ref (editor st) li rid) st).
Proof.
  intros st li rid (Hs & Hf & Ho & Hl). unfold erase_ref.
  destruct (nth_error (layers (editor st)) li) as [layer|] eqn:Hn;
    [|destruct st; repeat split; auto].
  destruct (find _ _) as [a|] eqn:Hfind;
    [|destruct st; repeat split; auto].
  apply find_some in Hfind. destruct Hfind as [Ha _].
  pose proof (In_flat_map_nth _ _ _ _ Hn Ha) as Hin.
  unfold listed_in_order in Ho. rewrite Ho in Hin. apply in_seq in Hin.
  unfold load_order, listed_in_order, set_editor.
  cbn [editor current_layer layers heap set_heap]. split_and.
  - exact Hs.
  - rewrite firstn_modify by lia. exact Hf.
  - rewrite length_modify. exact Ho.
  - exact Hl.
Qed.

Lemma load_line_order :
  forall st raw st',
    load_line st raw = Ok st' -> load_order ed0 st -> load_order ed0 st'.
Proof.
  intros st raw st' Hrun Hinv. unfold load_line in Hrun.
  destruct (negb _ || _); [inversion Hrun; now subst|].
  destruct (in_draw st).
  { destruct (PyStr.contains_char "}" _).
    - destruct (PyStr.partition "}" _) as [l r].
      destruct (finish_draw_block _ _ _ _ _) as [ed|e] eqn:Hf; simpl in Hrun;
        [|discriminate].
      inversion Hrun. subst st'.
      eapply finish_draw_block_order; eauto.
    - inversion Hrun. subst st'. exact Hinv. }
  destruct Hinv as (Hs & Hf & Ho & Hl).
  destruct (PyStr.startswith "canvas" _).
  { inversion Hrun. subst st'. unfold load_canvas.
    destruct (PyStr.split _) as [|t0 [|w [|h l]]];
      try (destruct st; repeat split; assumption).
    destruct (py_int w); [|destruct st; repeat split; assumption].
    destruct (py_int h); repeat split; assumption. }
  destruct (PyStr.startswith "background" _).
  { inversion Hrun. subst st'. unfold load_background.
    destruct (PyStr.split_none_1 _) as [|t0 [|c [|x l]]];
      destruct st; repeat split; assumption. }
  destruct (PyStr.startswith "layer" _).
  { inversion Hrun. subst st'. unfold load_layer, load_order, listed_in_order.
    cbn [editor current_layer layers heap set_layers set_counters].
    split_and.
    - exact Hs.
    - exact Hf.
    - rewrite flat_map_app. simpl. rewrite app_nil_r. exact Ho.
    - intros li Hli. inversion Hli. rewrite length_app. simpl. lia. }
  destruct (PyStr.startswith "}" _).
  { inversion Hrun. subst st'. repeat split; try assumption.
    intros li Hli. discriminate. }
  destruct (current_layer st) as [li|] eqn:Hcur;
    [|inversion Hrun; subst; repeat split; try assumption;
      intros li Hli; apply Hl; congruence].
  assert (Hinv : load_order ed0 st)
    by (repeat split; try assumption; intros lj Hlj; apply Hl; congruence).
  destruct (PyStr.startswith "draw" _ && _).
  { unfold load_draw in Hrun.
    destruct (_ && _ && _).
    - destruct (finish_draw_block _ _ _ _ _) as [ed|e] eqn:Hfd;
        simpl in Hrun; [|discriminate].
      inversion Hrun. subst st'.
      eapply finish_draw_block_order; eauto.
    - inversion Hrun. subst st'. exact Hinv. }
  destruct (PyStr.startswith "erase" _);
    [|inversion Hrun; subst; exact Hinv].
  inversion Hrun. subst st'. unfold load_erase.
  destruct (PyRe.search_key _ _); [|exact Hinv].
  now apply erase_ref_order.
Qed.

Lemma load_loop_order :
  forall lines st,
    load_order ed0 st -> load_order ed0 (fst (load_loop st lines)).
Proof.
  induction lines as [|raw lines IH]; intros st Hinv; simpl; [assumption|].
  destruct (load_line st raw) as [st'|e] eqn:Hl; [|assumption].
  apply IH. now apply (load_line_order st raw).
Qed.

Lemma load_from_lines_order :
  forall lines,
    let ed' := result_editor (_load_from_lines ed0 lines) in
    session ed' = session ed0
    /\ firstn (List.length (heap ed0)) (heap ed') = heap ed0
    /\ listed_in_order (List.length (heap ed0)) ed'.
Proof.
  intros lines. unfold _load_from_lines.
  assert (Hinit : load_order ed0 (load_init ed0)).
  { unfold load_order, listed_in_order, load_init.
    cbn [editor current_layer layers heap set_layers set_counters].
    split_and.
    - reflexivity.
    - apply firstn_all.
    - now rewrite Nat.sub_diag.
    - discriminate. }
  pose proof (load_loop_order lines (load_init ed0) Hinit) as H.
  destruct (load_loop (load_init ed0) lines) as [st [e|]]; simpl in *.
  - destruct H as (Hs & Hf & Ho & _). auto.
  - unfold load_final. destruct (in_draw st && _);
      [|destruct H as (Hs & Hf & Ho & _); auto].
    destruct (finish_draw_block _ _ _ _ _) as [ed'|e] eqn:Hfd; simpl;
      [|destruct H as (Hs & Hf & Ho & _); auto].
    destruct (finish_draw_block_order st _ _ _ ed' (current_layer st)
                false None [] Hfd H (or_introl eq_refl))
      as (Hs & Hf & Ho & _).
    auto.
Qed.

End LoaderOrder.

(** X11: loading a document keeps the session. Whatever the lines, and
    whether the loader returns or raises, it leaves the colour, the current
    layer index and both history stacks as they were, and it changes none
    of the stroke objects that existed before: in particular the history of
    the replaced document is not cleared, and its entries still refer to
    the old objects. *)
Theorem loader_keeps_session :
  forall (RT : PyRuntime) (ed : InkPaint) (lines : list string),
    let ed' := result_editor (_load_from_lines ed lines) in
    color ed' = color ed
    /\ current_layer_index ed' = current_layer_index ed
    /\ undo_stack ed' = undo_stack ed
    /\ redo_stack ed' = redo_stack ed
    /\ firstn (List.length (heap ed)) (heap ed') = heap ed.
Proof.
  intros RT ed lines ed'.
  destruct (load_from_lines_order ed lines) as (Hs & Hf & _).
  fold ed' in Hs, Hf. unfold session in Hs. inversion Hs. auto.
Qed.

(** X12: the loader registers every stroke it creates exactly once. After
    loading any lines, returned or raised, the layers of the document list
    exactly the stroke objects created by this load, each in one layer and
    once, in the order of their creation; so no loaded stroke is shared by
    two layers, and none is lost. *)
Theorem loaded_strokes_listed_once :
  forall (RT : PyRuntime) (ed : InkPaint) (lines : list string),
    let ed' := result_editor (_load_from_lines ed lines) in
    flat_map Layer.strokes (layers ed')
    = seq (List.length (heap ed))
          (List.length (heap ed') - List.length (heap ed))
    /\ NoDup (flat_map Layer.strokes (layers ed'))
    /\ (forall a,
           (List.length (heap ed) <= a < List.length (heap ed'))%nat ->
           exists layer,
             In layer (layers ed') /\ In a (Layer.strokes layer)).
Proof.
  intros RT ed lines ed'.
  destruct (load_from_lines_order ed lines) as (_ & _ & Ho).
  fold ed' in Ho. unfold listed_in_order in Ho. split_and.
  - exact Ho.
  - rewrite Ho. apply seq_NoDup.
  - intros a Ha.
    assert (Hin : In a (flat_map Layer.strokes (layers ed')))
      by (rewrite Ho; apply in_seq; lia).
    apply in_flat_map in Hin. exact Hin.
Qed.

(** ** Colours *)

(** X13: the editor and the renderer read a long colour alike. On a string
    of seven characters that starts with one hash sign (and not two), the
    renderer's [parse_color] gives the channels that the editor's
    [_hex_to_rgb] gives, and raises when it raises. *)
Theorem long_colour_read_alike :
  forall (RT : PyRuntime) (c : string),
    PyStr.startswith "#" c = true ->
    String.length c = 7%nat ->
    PyStr.startswith "##" c = false ->
    parse_color c = (v <- _hex_to_rgb (Some c) ;; Ok (Some v)).
Proof.
  intros RT c Hhash Hlen Hone.
  destruct c as [|c0 [|c1 [|c2 [|c3 [|c4 [|c5 [|c6 [|c7 c]]]]]]]];
    try discriminate.
  assert (Hc0 : c0 = "#"%char).
  { destruct (Ascii.eqb_spec "#"%char c0) as [<-|Hne]; [reflexivity|].
    apply Ascii.eqb_neq in Hne. cbn [PyStr.startswith] in Hhash.
    rewrite Hne in Hhash. discriminate. }
  subst c0. cbn [PyStr.startswith] in Hone.
  rewrite Ascii.eqb_refl, Bool.andb_true_r in Hone. cbn [andb] in Hone.
  unfold parse_color, _hex_to_rgb, truthy, PyStr.lstrip_hash, PyStr.is_char.
  cbn [PyStr.nonempty PyStr.lstrip_p PyStr.startswith].
  rewrite !Ascii.eqb_refl, Hone.
  cbn -[channels]. reflexivity.
Qed.

Lemma long_colour_read_alike_witness :
  @parse_color cpython "#ff8800" = Ok (Some (255, 136, 0))
  /\ @parse_color cpython "#ff8800"
     = (v <- @_hex_to_rgb cpython (Some "#ff8800"%string) ;; Ok (Some v)).
Proof.
  split; [vm_compute; reflexivity|].
  apply (long_colour_read_alike cpython "#ff8800"); reflexivity.
Defined.

Lemma bytes_round_trip : forallb byte_round_trip (seq 0 256) = true.
Proof. vm_compute. reflexivity. Qed.

Lemma fmt_02x_byte :
  forall r,
    0 <= r <= 255 ->
    exists d1 d2,
      fmt_02x r = String d1 (String d2 EmptyString)
      /\ Ascii.eqb "#" d1 = false
      /\ PyNum.int16 (String d1 (String d2 EmptyString)) = Some r.
Proof.
  intros r Hr.
  pose proof bytes_round_trip as H. rewrite forallb_forall in H.
  specialize (H (Z.to_nat r)).
  assert (Hin : In (Z.to_nat r) (seq 0 256)) by (apply in_seq; lia).
  apply H in Hin. unfold byte_round_trip in Hin.
  rewrite Z2Nat.id in Hin by lia.
  destruct (fmt_02x r) as [|d1 [|d2 [|d3 s]]]; try discriminate.
  apply andb_prop in Hin. destruct Hin as [Hd1 Hv].
  exists d1, d2. split; [reflexivity|]. split.
  - now apply Bool.negb_true_iff in Hd1.
  - destruct (PyNum.int16 _) as [v|]; [|discriminate].
    apply Z.eqb_eq in Hv. now subst.
Qed.

(** X14: a colour written by [_hex_from_rgb_tuple] is read back. For
    channels from 0 to 255 the editor's [_hex_to_rgb] and the renderer's
    [parse_color], run by the reference interpreter, both give the three
    channels back from the string that [_hex_from_rgb_tuple] writes. *)
Theorem written_colour_is_read_back :
  forall r g b : Z,
    0 <= r <= 255 -> 0 <= g <= 255 -> 0 <= b <= 255 ->
    @_hex_to_rgb cpython (Some (_hex_from_rgb_tuple (r, g, b)))
    = Ok (r, g, b)
    /\ @parse_color cpython (_hex_from_rgb_tuple (r, g, b))
       = Ok (Some (r, g, b)).
Proof.
  intros r g b Hr Hg Hb.
  destruct (fmt_02x_byte r Hr) as (r1 & r2 & Hfr & Hr1 & Hir).
  destruct (fmt_02x_byte g Hg) as (g1 & g2 & Hfg & _ & Hig).
  destruct (fmt_02x_byte b Hb) as (b1 & b2 & Hfb & _ & Hib).
  unfold _hex_from_rgb_tuple. rewrite Hfr, Hfg, Hfb.
  unfold parse_color, _hex_to_rgb, truthy, PyStr.lstrip_hash, PyStr.is_char.
  cbn [String.append PyStr.nonempty PyStr.lstrip_p PyStr.startswith].
  rewrite !Ascii.eqb_refl, Hr1.
  cbn -[channels PyNum.int16]. unfold channels, hex.
  cbn [py_int16 cpython]. rewrite Hir, Hig, Hib. split; reflexivity.
Qed.

Lemma written_colour_is_read_back_witness :
  _hex_from_rgb_tuple (255, 136, 0) = "#ff8800"%string
  /\ @_hex_to_rgb cpython (Some (_hex_from_rgb_tuple (255, 136, 0)))
     = Ok (255, 136, 0)
  /\ @parse_color cpython (_hex_from_rgb_tuple (255, 136, 0))
     = Ok (Some (255, 136, 0)).
Proof.
  split; [reflexivity|].
  apply (written_colour_is_read_back 255 136 0); lia.
Defined.

(** ** The renderer's path parser *)

Section RendererProperties.

Context {RT : PyRuntime}.

Lemma look_ahead_consumed :
  forall rest passed toks k,
    look_ahead rest passed = (toks, k) ->
    (k = 0 \/ passed < k <= passed + List.length rest)%nat.
Proof.
  induction rest as [|raw rest IH]; intros passed toks k H;
    cbn [look_ahead] in H.
  - inversion H. now left.
  - destruct (negb _ || _).
    + apply IH in H. simpl. lia.
    + destruct (_ && _); inversion H; simpl; lia.
Qed.

Lemma path_loop_consumed :
  forall rest points consumed pts toks k,
    path_loop rest points consumed = (pts, toks, k) ->
    (consumed <= k <= consumed + List.length rest)%nat
    /\ (rest <> [] -> (consumed < k)%nat).
Proof.
  induction rest as [|raw rest IH]; intros points consumed pts toks k H;
    cbn [path_loop] in H.
  - inversion H. split; [simpl; lia | congruence].
  - destruct (negb _ || _).
    + apply IH in H. simpl. split; [lia | intros _; lia].
    + destruct (PyStr.startswith "}" _).
      * destruct (PyStr.nonempty _).
        -- inversion H. simpl. split; [lia | intros _; lia].
        -- destruct (look_ahead rest 0) as [toks' k'] eqn:Hla.
           inversion H. apply look_ahead_consumed in Hla.
           simpl. split; [lia | intros _; lia].
      * apply IH in H. simpl. split; [lia | intros _; lia].
Qed.

End RendererProperties.

(** X15: the renderer's path parser advances and stays within the file.
    When the [path] branch of [_parse_draw] returns, the index it gives back
    is not before the one it received and not past the end of the lines,
    and it is strictly greater whenever a line was left to read; so the
    loop of [_parse_layer], which continues from that index, makes
    progress. *)
Theorem path_parser_advances :
  forall (RT : PyRuntime) (lines : list string) (idx : nat)
         (layer_style : LayerStyle) (cmd : PathCommand) (idx' : nat),
    _parse_draw_path lines idx layer_style = Ok (cmd, idx') ->
    (idx <= idx')%nat
    /\ ((idx < List.length lines)%nat ->
        (idx < idx' <= List.length lines)%nat).
Proof.
  intros RT lines idx layer_style cmd idx' H. unfold _parse_draw_path in H.
  destruct (path_loop (skipn idx lines) [] 0) as [[pts toks] k] eqn:Hloop.
  apply path_loop_consumed in Hloop. destruct Hloop as [Hk Hpos].
  destruct (match dict_get "stroke" _ with
            | Some c => parse_color c
            | None => _
            end) as [stroke|e]; simpl in H; [|discriminate].
  destruct (match dict_get "strokeWidth" _ with
            | Some w => _
            | None => _
            end) as [sw|e]; simpl in H; [|discriminate].
  inversion H. subst idx'. rewrite length_skipn in Hk. split; [lia|].
  intros Hidx.
  assert (Hne : skipn idx lines <> []).
  { intros Hnil. apply (f_equal (@List.length _)) in Hnil.
    rewrite length_skipn in Hnil. simpl in Hnil. lia. }
  specialize (Hpos Hne). lia.
Qed.

Lemma path_parser_advances_witness :
  (2 <= 5)%nat
  /\ ((2 < List.length brace_tail_file)%nat ->
      (2 < 5 <= List.length brace_tail_file)%nat).
Proof.
  eapply (path_parser_advances cpython brace_tail_file 2%nat
            (mkLayerStyle (Some (255, 255, 255)) 2) _ 5%nat).
  vm_compute. reflexivity.
Defined.







(** ** Lines outside a layer *)

Lemma load_line_outside_layer :
  forall (RT : PyRuntime) st raw,
    PyStr.startswith "layer" (PyStr.strip (PyStr.rstrip_nl raw)) = false ->
    current_layer st = None -> in_draw st = false ->
    exists st',
      load_line st raw = Ok st'
      /\ current_layer st' = None /\ in_draw st' = false
      /\ layers (editor st') = layers (editor st)
      /\ heap (editor st') = heap (editor st).
Proof.
  intros RT st raw Hraw Hcur Hdraw. unfold load_line.
  rewrite Hdraw, Hraw, Hcur.
  destruct (negb _ || _); [exists st; auto|].
  destruct (PyStr.startswith "canvas" _).
  { eexists. split; [reflexivity|]. unfold load_canvas.
    destruct (PyStr.split _) as [|t0 [|w [|h l]]]; auto.
    destruct (py_int w); auto. destruct (py_int h); auto. }
  destruct (PyStr.startswith "background" _).
  { eexists. split; [reflexivity|]. unfold load_background.
    destruct (PyStr.split_none_1 _) as [|t0 [|c [|x l]]]; auto. }
  destruct (PyStr.startswith "}" _); eexists; (split; [reflexivity|]); auto.
Qed.

(** X17: strokes outside a layer are dropped. When no line of the input is
    a layer header, the loader returns, whatever else the lines hold, and
    leaves a document without layers in which no stroke object was created
    or changed: draw blocks and erase lines that no layer header precedes
    are passed over. *)
Theorem lines_outside_layers_are_dropped :
  forall (RT : PyRuntime) (ed : InkPaint) (lines : list string),
    (forall raw, In raw lines ->
                 PyStr.startswith "layer" (PyStr.strip (PyStr.rstrip_nl raw))
                 = false) ->
    exists ed',
      _load_from_lines ed lines = Loaded ed'
      /\ layers ed' = [] /\ heap ed' = heap ed.
Proof.
  intros RT ed lines Hlines. unfold _load_from_lines.
  assert (H : forall st,
             current_layer st = None -> in_draw st = false ->
             exists st',
               load_loop st lines = (st', None)
               /\ in_draw st' = false
               /\ layers (editor st') = layers (editor st)
               /\ heap (editor st') = heap (editor st)).
  { induction lines as [|raw lines IH]; intros st Hcur Hdraw.
    - exists st. auto.
    - destruct (load_line_outside_layer RT st raw) as
          (st1 & Hl & Hc1 & Hd1 & Hlay1 & Hheap1); auto.
      { apply Hlines. now left. }
      destruct (IH (fun r Hr => Hlines r (or_intror Hr)) st1 Hc1 Hd1)
        as (st2 & Hloop & Hd2 & Hlay2 & Hheap2).
      exists st2. simpl. rewrite Hl. split; [exact Hloop|].
      split; [exact Hd2|]. split; congruence. }
  destruct (H (load_init ed) eq_refl eq_refl) as (st & Hloop & Hd & Hlay & Hh).
  rewrite Hloop. unfold load_final. rewrite Hd. simpl.
  exists (editor st). split; [reflexivity|]. split; [exact Hlay | exact Hh].
Qed.

Lemma lines_outside_layers_are_dropped_witness :
  exists ed',
    @_load_from_lines cpython (one_layer [outline])
      ["draw path id=a {"; "  move 1.00 2.00"; "} stroke=#ff0000";
       "erase ref=stroke_1"]%string
    = Loaded ed'
    /\ layers ed' = [] /\ heap ed' = [outline].
Proof.
  apply (lines_outside_layers_are_dropped cpython (one_layer [outline])).
  intros raw Hin. simpl in Hin.
  destruct Hin as [<- | [<- | [<- | [<- | []]]]]; reflexivity.
Defined.
